(** * Rerito/components: the dependency manager of src/singleton

    A shallow embedding of [DependencyManager.hpp] and of the parts of
    [SingletonWithDependency.hpp] it is instantiated with, followed by the
    properties of registration, cycle detection and the clean-up sweep. *)

From Equations Require Import Equations.
From Equations.Prop Require Import Logic.
From stdpp Require Import gmap strings list relations.

(** ** Exceptions and the monad of throwing, state-changing code *)

(** The two exception types the sources throw: [std::runtime_error] with its
    message and [graph_details::breaking_condition_exception]. *)
Inductive exception : Type :=
| runtime_error (what : string)
| breaking_condition_exception.

#[global] Instance exception_eq_dec : EqDecision exception.
Proof. solve_decision. Defined.

(** How a call ends: it returns a value or an exception leaves it. *)
Inductive completion (A : Type) : Type :=
| Normal (a : A)
| Throw (e : exception).
Arguments Normal {A} a.
Arguments Throw {A} e.

(** A member function over the mutable state [Σ]: the state is returned in
    both cases, as whatever was written before a [throw] stays written. *)
Definition M (Σ A : Type) : Type := Σ → completion A * Σ.

#[global] Instance M_ret {Σ} : MRet (M Σ) := λ A a σ, (Normal a, σ).
#[global] Instance M_bind {Σ} : MBind (M Σ) := λ A B k m σ,
  match m σ with
  | (Normal a, σ') => k a σ'
  | (Throw e, σ') => (Throw e, σ')
  end.
Definition throw {Σ A} (e : exception) : M Σ A := λ σ, (Throw e, σ).
Definition gets {Σ A} (f : Σ → A) : M Σ A := λ σ, (Normal (f σ), σ).
Definition modify {Σ} (f : Σ → Σ) : M Σ unit := λ σ, (Normal tt, f σ).

(** Exposes the state passing behind the monad operations. *)
Ltac unfold_M :=
  unfold mbind, M_bind, mret, M_ret, throw, gets, modify in *.

(** A range-based loop whose body may throw. *)
Fixpoint for_each {Σ A} (body : A → M Σ unit) (l : list A) : M Σ unit :=
  match l with
  | [] => mret tt
  | x :: l' => body x;; for_each body l'
  end.

(** ** Boost.Graph: [adjacency_list<vecS, vecS, bidirectionalS, VP, EP>]

    With [vecS] for the vertex container a vertex descriptor is the index of
    the vertex in [m_vertices]. *)
Abbreviation Vertex := nat (only parsing).

(** An edge descriptor: both endpoints and where the edge's property lives,
    here the position of the edge in the out-edge list of its source. *)
Record Edge : Type := mkEdge {
  m_source : Vertex;
  m_target : Vertex;
  m_eproperty : nat
}.

#[global] Instance Edge_eq_dec : EqDecision Edge.
Proof. solve_decision. Defined.

Definition source (e : Edge) : Vertex := m_source e.
Definition target (e : Edge) : Vertex := m_target e.

Section adjacency_list.
Context {VertexProperty EdgeProperty : Type}.
Context `{!Inhabited VertexProperty, !Inhabited EdgeProperty}.

(** What the graph stores per vertex: the out-edges (target and bundled
    edge property) in insertion order, the sources of the in-edges in
    insertion order, and the bundled vertex property. *)
Record stored_vertex : Type := mkStoredVertex {
  m_out_edges : list (Vertex * EdgeProperty);
  m_in_edges : list Vertex;
  m_property : VertexProperty
}.

Record adjacency_list : Type := mkGraph {
  m_vertices : list stored_vertex
}.

(** A default-constructed graph. *)
Definition empty_graph : adjacency_list := mkGraph [].

(** What [resize] value-initialises new vertices with. *)
Definition default_stored_vertex : stored_vertex :=
  mkStoredVertex [] [] inhabitant.

Definition adj_num_vertices (g : adjacency_list) : nat :=
  length (m_vertices g).

(** [vertices(g)]: the descriptors [0 .. num_vertices(g) - 1] in order. *)
Definition vertices (g : adjacency_list) : list Vertex :=
  seq 0 (adj_num_vertices g).

(** The out-edge list of [u]; indexing [m_vertices] outside its range is
    undefined in C++ and read as the empty list here. *)
Definition out_edge_list (u : Vertex) (g : adjacency_list)
    : list (Vertex * EdgeProperty) :=
  from_option m_out_edges [] (m_vertices g !! u).

Definition in_edge_list (v : Vertex) (g : adjacency_list) : list Vertex :=
  from_option m_in_edges [] (m_vertices g !! v).

(** [out_edges(u, g)] as the list the iterator pair ranges over. *)
Definition adj_out_edges (u : Vertex) (g : adjacency_list) : list Edge :=
  imap (λ i tp, mkEdge u tp.1 i) (out_edge_list u g).

(** [in_edges(v, g)], as the sources of the edges in the range. *)
Definition in_edges (v : Vertex) (g : adjacency_list) : list Vertex :=
  in_edge_list v g.

(** [add_vertex(p, g)]: appends a vertex and returns its descriptor. *)
Definition add_vertex (p : VertexProperty) (g : adjacency_list)
    : Vertex * adjacency_list :=
  (adj_num_vertices g, mkGraph (m_vertices g ++ [mkStoredVertex [] [] p])).

(** [add_edge(u, v, g)] for a [vecS] vertex container: the vertex vector is
    grown first when an endpoint is past its end; parallel edges are
    allowed with [vecS] out-edge lists, so the insertion always happens and
    the flag is [true]. The new edge carries a default-constructed
    property. *)
Definition add_edge (u v : Vertex) (g : adjacency_list)
    : (Edge * bool) * adjacency_list :=
  let x := u `max` v in
  let vs := if decide (adj_num_vertices g ≤ x)
            then resize (S x) default_stored_vertex (m_vertices g)
            else m_vertices g in
  let slot := length (from_option m_out_edges [] (vs !! u)) in
  let vs1 := alter (λ sv, mkStoredVertex (m_out_edges sv ++ [(v, inhabitant)])
                                         (m_in_edges sv) (m_property sv)) u vs in
  let vs2 := alter (λ sv, mkStoredVertex (m_out_edges sv)
                                         (m_in_edges sv ++ [u]) (m_property sv)) v vs1 in
  ((mkEdge u v slot, true), mkGraph vs2).

(** [edge(u, v, g)]: the first out-edge of [u] whose target is [v], and
    whether there is one. *)
Definition edge (u v : Vertex) (g : adjacency_list) : Edge * bool :=
  match list_find (λ e, target e = v) (adj_out_edges u g) with
  | Some (_, e) => (e, true)
  | None => (mkEdge u v 0, false)
  end.

(** [g[v]], read. *)
Definition vertex_bundle (v : Vertex) (g : adjacency_list)
    : option VertexProperty :=
  m_property <$> m_vertices g !! v.

(** [g[v] = p]. *)
Definition put_vertex_bundle (v : Vertex) (p : VertexProperty)
    (g : adjacency_list) : adjacency_list :=
  mkGraph (alter (λ sv, mkStoredVertex (m_out_edges sv) (m_in_edges sv) p)
                 v (m_vertices g)).

(** [g[e] = p]. *)
Definition put_edge_bundle (e : Edge) (p : EdgeProperty)
    (g : adjacency_list) : adjacency_list :=
  mkGraph (alter (λ sv, mkStoredVertex
                          (alter (λ tp, (tp.1, p)) (m_eproperty e) (m_out_edges sv))
                          (m_in_edges sv) (m_property sv))
                 (m_source e) (m_vertices g)).

(** [g[e]], read. *)
Definition edge_bundle (e : Edge) (g : adjacency_list) : option EdgeProperty :=
  snd <$> out_edge_list (m_source e) g !! m_eproperty e.
End adjacency_list.

Arguments stored_vertex : clear implicits.
Arguments adjacency_list : clear implicits.

(** The part of the graph concepts a breadth-first search uses
    ([VertexListGraph] and [IncidenceGraph]). *)
Class Graph (G : Type) : Type := {
  num_vertices : G → nat;
  out_edges : Vertex → G → list Edge
}.

#[global] Instance adjacency_list_graph {VP EP} : Graph (adjacency_list VP EP) := {|
  num_vertices := adj_num_vertices;
  out_edges := adj_out_edges
|}.

(** [boost::filtered_graph<G, EdgePredicate, VertexPredicate>]: the out-edge
    range keeps the edges the edge predicate accepts and whose target the
    vertex predicate accepts; the number of vertices is the underlying one. *)
Record filtered_graph (G : Type) : Type := mkFiltered {
  m_g : G;
  m_edge_pred : Edge → bool;
  m_vertex_pred : Vertex → bool
}.
Arguments mkFiltered {G} _ _ _.
Arguments m_g {G} _.
Arguments m_edge_pred {G} _.
Arguments m_vertex_pred {G} _.

Definition keep_all {A} : A → bool := λ _, true.

#[global] Instance filtered_graph_graph {G} `{!Graph G} : Graph (filtered_graph G) := {|
  num_vertices fg := num_vertices (m_g fg);
  out_edges u fg :=
    filter (λ e, m_edge_pred fg e && m_vertex_pred fg (target e) = true)
           (out_edges u (m_g fg))
|}.

(** ** Boost.Graph: [breadth_first_search] *)

Inductive default_color_type : Type := white_color | gray_color | black_color.

#[global] Instance default_color_type_eq_dec : EqDecision default_color_type.
Proof. solve_decision. Defined.

(** A BFS visitor with state [Vis]. Of the event points of the visitor concept
    only [discover_vertex] and [examine_edge] are given: every visitor of the
    sources leaves the others to [boost::default_bfs_visitor], where they do
    nothing. *)
Record BFSVisitor (G Vis : Type) : Type := mkVisitor {
  discover_vertex : Vertex → G → M Vis unit;
  examine_edge : Edge → G → M Vis unit
}.
Arguments mkVisitor {G Vis} _ _.
Arguments discover_vertex {G Vis} _ _ _.
Arguments examine_edge {G Vis} _ _ _.

Definition default_bfs_visitor {G Vis} : BFSVisitor G Vis :=
  mkVisitor (λ _ _, mret tt) (λ _ _, mret tt).

(** The locals of the search: the colour map, the FIFO queue (front first)
    and the visitor. *)
Record bfs_state (Vis : Type) : Type := mkBfs {
  color : list default_color_type;
  Q : list Vertex;
  vis : Vis
}.
Arguments mkBfs {Vis} _ _ _.
Arguments color {Vis} _.
Arguments Q {Vis} _.
Arguments vis {Vis} _.

Section breadth_first_search.
Context {G Vis : Type} `{!Graph G}.
Variable (g : G) (V : BFSVisitor G Vis).

(** [get(color, v)]; outside the map (undefined in C++) the vertex is read
    as already finished. *)
Definition get_color (σ : bfs_state Vis) (v : Vertex) : default_color_type :=
  default black_color (color σ !! v).

Definition put_color (v : Vertex) (c : default_color_type) : M (bfs_state Vis) unit :=
  modify (λ σ, mkBfs (<[v:=c]> (color σ)) (Q σ) (vis σ)).

Definition Q_push (v : Vertex) : M (bfs_state Vis) unit :=
  modify (λ σ, mkBfs (color σ) (Q σ ++ [v]) (vis σ)).

(** A visitor event, run on the visitor inside the search. *)
Definition on_vis (m : M Vis unit) : M (bfs_state Vis) unit :=
  λ σ, let '(r, s) := m (vis σ) in (r, mkBfs (color σ) (Q σ) s).

(** The body of the loop over the out-edges of the vertex being examined. *)
Definition bfs_edge (e : Edge) : M (bfs_state Vis) unit :=
  let v := target e in
  on_vis (examine_edge V e g);;
  v_color ← gets (λ σ, get_color σ v);
  match v_color with
  | white_color =>
      put_color v gray_color;;
      on_vis (discover_vertex V v g);;
      Q_push v
  | _ => mret tt
  end.

Definition count_white (σ : bfs_state Vis) : nat :=
  length (filter (λ c, c = white_color) (color σ)).

(** Each vertex enters the queue at most once, while it is white. *)
Definition bfs_measure (σ : bfs_state Vis) : nat :=
  2 * count_white σ + length (Q σ).

Lemma count_white_insert (cs : list default_color_type) v c :
  c ≠ white_color →
  length (filter (λ c, c = white_color) (<[v:=c]> cs))
  ≤ length (filter (λ c, c = white_color) cs).
Proof.
  intros Hc. revert v. induction cs as [|c' cs IH]; intros [|v]; simpl; try lia.
  - rewrite !filter_cons. repeat case_decide; simplify_eq/=; lia.
  - rewrite !filter_cons. specialize (IH v). case_decide; simpl; lia.
Qed.

Lemma count_white_discover (cs : list default_color_type) v c :
  cs !! v = Some white_color → c ≠ white_color →
  S (length (filter (λ c, c = white_color) (<[v:=c]> cs)))
  = length (filter (λ c, c = white_color) cs).
Proof.
  intros Hv Hc. revert v Hv.
  induction cs as [|c' cs IH]; intros [|v] Hv; simplify_eq/=.
  - rewrite !filter_cons. repeat case_decide; simplify_eq/=; try lia.
  - rewrite !filter_cons. specialize (IH v Hv). case_decide; simpl; lia.
Qed.

Lemma bfs_edge_measure e σ r σ' :
  bfs_edge e σ = (r, σ') → bfs_measure σ' ≤ bfs_measure σ.
Proof.
  unfold bfs_edge, on_vis, get_color, put_color, Q_push, bfs_measure,
    count_white; unfold_M.
  destruct (examine_edge V e g (vis σ)) as [[[]|ex] s1]; simpl;
    [|intros; simplify_eq/=; lia].
  destruct (color σ !! target e) as [[]|] eqn:Hc; simpl;
    try (intros; simplify_eq/=; lia).
  pose proof (count_white_discover _ _ gray_color Hc ltac:(done)) as Hd.
  destruct (discover_vertex V (target e) g s1) as [[[]|ex] s2]; simpl;
    intros; simplify_eq/=; rewrite ?length_app; simpl; lia.
Qed.

Lemma for_each_bfs_edge_measure es σ r σ' :
  for_each bfs_edge es σ = (r, σ') → bfs_measure σ' ≤ bfs_measure σ.
Proof.
  revert σ. induction es as [|e es IH]; intros σ; simpl.
  - unfold_M. intros; simplify_eq/=. lia.
  - unfold_M.
    destruct (bfs_edge e σ) as [[[]|ex] σ1] eqn:He; intros Hr.
    + apply bfs_edge_measure in He. apply IH in Hr. lia.
    + apply bfs_edge_measure in He. simplify_eq. lia.
Qed.

(** The [while (!Q.empty())] loop of [breadth_first_visit]. *)
Equations? bfs_loop (σ : bfs_state Vis) : completion unit * bfs_state Vis
    by wf (bfs_measure σ) lt :=
  bfs_loop σ with inspect (Q σ) := {
    | exist _ [] _ => (Normal tt, σ)
    | exist _ (u :: q) HQ
        with inspect (for_each bfs_edge (out_edges u g)
                               (mkBfs (color σ) q (vis σ))) := {
        | exist _ (Normal _, σ') Hscan =>
            bfs_loop (mkBfs (<[u:=black_color]> (color σ')) (Q σ') (vis σ'))
        | exist _ (Throw e, σ') _ => (Throw e, σ') } }.
Proof.
  apply for_each_bfs_edge_measure in Hscan.
  pose proof (count_white_insert (color σ') u black_color) as Hb.
  unfold bfs_measure, count_white in *. simpl in *. rewrite HQ. simpl.
  specialize (Hb ltac:(done)). lia.
Qed.

(** [breadth_first_search(g, s, visitor(vis))]: every vertex is painted
    white, then [breadth_first_visit] discovers [s] and runs the loop. *)
Definition breadth_first_visit (s : Vertex) : M (bfs_state Vis) unit :=
  put_color s gray_color;;
  on_vis (discover_vertex V s g);;
  Q_push s;;
  bfs_loop.

Definition breadth_first_search (s : Vertex) : M Vis unit :=
  λ vs, let '(r, σ) := breadth_first_visit s
                         (mkBfs (replicate (num_vertices g) white_color) [] vs)
        in (r, vis σ).
End breadth_first_search.

(** ** [graph_details]: the halting visitor *)

(** [no_halting]: the predicate that never asks to stop. *)
Definition no_halting {A G} : A → G → bool := λ _ _, false.
Definition make_no_halting {A G} : A → G → bool := no_halting.

(** [bfs_halting_visitor<VertexPredicate, EdgePredicate, BFSVisitor>]: each
    event evaluates its predicate, forwards to the base visitor and throws
    [breaking_condition_exception] when the predicate held. *)
Definition bfs_halting_visitor {G Vis} (vpred : Vertex → G → bool)
    (epred : Edge → G → bool) (base : BFSVisitor G Vis) : BFSVisitor G Vis :=
  mkVisitor
    (λ v g, let result := vpred v g in
            discover_vertex base v g;;
            if result then throw breaking_condition_exception else mret tt)
    (λ e g, let result := epred e g in
            examine_edge base e g;;
            if result then throw breaking_condition_exception else mret tt).

(** ** [DependencyManager<DepGraph, Deleter, ID>] *)

Section DependencyManager.
Context {ID : Type} `{Countable ID}.
Context {VertexProperty EdgeProperty World : Type}.
Context `{!Inhabited VertexProperty, !Inhabited EdgeProperty}.

(** The [Deleter] template argument: a default-constructible functor called
    on a vertex bundle by reference. It may write the bundle, act on the
    rest of the program ([World]) and throw. *)
Variable Deleter : M (VertexProperty * World) unit.

Abbreviation DepGraph := (adjacency_list VertexProperty EdgeProperty).

Record DependencyManager : Type := mkManager {
  m_dependency_graph : DepGraph;
  m_vertices_map : gmap ID Vertex
}.

(** The default-constructed manager. *)
Definition empty_manager : DependencyManager := mkManager empty_graph ∅.

(** [DeletionStackBfsVisitor]: pushes every discovered vertex on the
    vector it holds a reference to. *)
Definition DeletionStackBfsVisitor {G} : BFSVisitor G (list Vertex) :=
  mkVisitor (λ v _, modify (λ m_deletion_stack, m_deletion_stack ++ [v]))
            (λ _ _, mret tt).

(** [std::unordered_map::emplace]: inserts unless the key is present. *)
Definition emplace (id : ID) (v : Vertex) (m : gmap ID Vertex) : gmap ID Vertex :=
  match m !! id with
  | None => <[id:=v]> m
  | Some _ => m
  end.

(** *** Clean-up member functions *)

(** [get_deletion_stack(root, pred)]: the vertices a breadth-first search
    from [root] discovers in the graph filtered by [pred], in discovery
    order. *)
Definition get_deletion_stack (root : Vertex) (pred : Vertex → bool)
    : M DependencyManager (list Vertex) :=
  λ σ, let fg := mkFiltered (m_dependency_graph σ) keep_all pred in
       match breadth_first_search fg DeletionStackBfsVisitor root [] with
       | (Normal _, result_stack) => (Normal result_stack, σ)
       | (Throw e, _) => (Throw e, σ)
       end.

Definition is_root_dependency (v : Vertex) (σ : DependencyManager) : bool :=
  bool_decide (in_edges v (m_dependency_graph σ) = []).

(** What the sweep runs in: the manager, the rest of the program the
    clean-up actions act on, and (kept alongside, to state in which order
    clean-ups run) the vertices whose bundle was handed to the [Deleter],
    oldest first. *)
Record process : Type := mkProcess {
  manager : DependencyManager;
  world : World;
  calls : list Vertex
}.

Definition on_manager {A} (m : M DependencyManager A) : M process A :=
  λ π, let '(r, σ) := m (manager π) in (r, mkProcess σ (world π) (calls π)).

(** [del(m_dependency_graph[v])]; a descriptor outside the graph
    (undefined in C++, never produced by the search) is passed over. *)
Definition call_Deleter (v : Vertex) : M process unit :=
  λ π, let g := m_dependency_graph (manager π) in
       match vertex_bundle v g with
       | Some p =>
           let '(r, (p', w')) := Deleter (p, world π) in
           (r, mkProcess (mkManager (put_vertex_bundle v p' g)
                                    (m_vertices_map (manager π)))
                         w' (calls π ++ [v]))
       | None => (Normal tt, π)
       end.

Definition perform_deletion_from (v : Vertex) : M process unit :=
  del_stack ← on_manager (get_deletion_stack v keep_all);
  for_each call_Deleter (reverse del_stack).

Definition clear : M process unit :=
  vs ← gets (λ π, vertices (m_dependency_graph (manager π)));
  for_each (λ v_it,
              is_root ← gets (λ π, is_root_dependency v_it (manager π));
              if is_root : bool then perform_deletion_from v_it else mret tt)
           vs.

(** *** Cycle detection *)

(** [detect_cycle()] reads the iterators [src_it] and [dst_it] of its
    caller; their vertices are the arguments here. *)
Definition detect_cycle (src dst : Vertex) : M DependencyManager unit :=
  λ σ, let base_vis : BFSVisitor DepGraph unit := default_bfs_visitor in
       let vis := bfs_halting_visitor (λ v _, bool_decide (v = src))
                                      make_no_halting base_vis in
       match breadth_first_search (m_dependency_graph σ) vis dst tt with
       | (Normal _, _) => (Normal tt, σ)
       | (Throw breaking_condition_exception, _) =>
           (Throw (runtime_error
              "Registering the dependency would produce a cycle in the dependency graph."), σ)
       | (Throw e, _) => (Throw e, σ)
       end.

(** *** The public interface *)

Definition register_component (id : ID) (properties : VertexProperty)
    : M DependencyManager unit :=
  found ← gets (λ σ, m_vertices_map σ !! id);
  match found with
  | None =>
      modify (λ σ, let '(v, g) := add_vertex properties (m_dependency_graph σ) in
                   mkManager g (emplace id v (m_vertices_map σ)))
  | Some _ => throw (runtime_error "Object is already registered")
  end.

Definition register_dependency (src_id dst_id : ID) (edge_prop : EdgeProperty)
    : M DependencyManager unit :=
  src_it ← gets (λ σ, m_vertices_map σ !! src_id);
  dst_it ← gets (λ σ, m_vertices_map σ !! dst_id);
  match src_it, dst_it with
  | Some src, Some dst =>
      registered ← gets (λ σ, (edge src dst (m_dependency_graph σ)).2);
      if registered : bool then
        throw (runtime_error "The described dependency is already registered.")
      else
        detect_cycle src dst;;
        modify (λ σ, let '(added_edge, g) := add_edge src dst (m_dependency_graph σ) in
                     mkManager (put_edge_bundle added_edge.1 edge_prop g)
                               (m_vertices_map σ))
  | _, _ =>
      throw (runtime_error
        "The source and/or the target of the dependency relationship is not registered in the graph.")
  end.

(** *** Clients *)

(** The calls a client makes on the manager. [clear()] is declared among
    the private members; it is listed as the sweep the spec calls
    [shutdown]. *)
Inductive call : Type :=
| RegisterComponent (id : ID) (properties : VertexProperty)
| RegisterDependency (src_id dst_id : ID) (edge_prop : EdgeProperty)
| Clear.

Definition run_call (c : call) : M process unit :=
  match c with
  | RegisterComponent id p => on_manager (register_component id p)
  | RegisterDependency s d l => on_manager (register_dependency s d l)
  | Clear => clear
  end.

(** A client that catches whatever a call throws and carries on. *)
Definition run_calls (cs : list call) (π : process) : process :=
  foldl (λ π c, (run_call c π).2) π cs.

Definition initial (w : World) : process := mkProcess empty_manager w [].

(** The states of the program a client can bring about. *)
Definition reachable (π : process) : Prop :=
  ∃ cs w, π = run_calls cs (initial w).
End DependencyManager.

(** ** [namespace singleton]: the component record and the manager it gives *)

Module singleton.
Section singleton.
Context {World : Type}.

(** [DependencyComponent]; [std::size_t] identifiers are read as [N]. *)
Record DependencyComponent : Type := mkComponent {
  is_deleted : bool;
  id : N;
  cleaner : M World unit
}.

(** [DependencyComponent()] *)
Definition DependencyComponent_default : DependencyComponent :=
  mkComponent true 0%N (mret tt).

(** [DependencyComponent(id, cleaner_ftor)] *)
Definition DependencyComponent_new (id : N) (cleaner_ftor : M World unit)
    : DependencyComponent :=
  mkComponent false id cleaner_ftor.

#[global] Instance DependencyComponent_inhabited : Inhabited DependencyComponent :=
  populate DependencyComponent_default.

(** [DependencyComponent::clear()]: runs the cleaner, then writes the
    flag; a throwing cleaner leaves the flag unwritten. *)
Definition DependencyComponent_clear : M (DependencyComponent * World) unit :=
  λ '(c, w),
    match cleaner c w with
    | (Normal _, w') => (Normal tt, (mkComponent false (id c) (cleaner c), w'))
    | (Throw e, w') => (Throw e, (c, w'))
    end.

(** Modelled from the spec: [DependencyCleaner], the [Deleter] the
    [DepManager] typedef names, is declared nowhere in the sources; the
    clean-up of a component is taken to be the call of its record's
    [clear()], which invokes the clean-up action and writes the state. *)
Definition DependencyCleaner : M (DependencyComponent * World) unit :=
  DependencyComponent_clear.

(** The lifecycle state of the spec, as the record holds it. *)
Inductive lifecycle : Type := Live | CleanedUp.

Definition state (c : DependencyComponent) : lifecycle :=
  if is_deleted c then CleanedUp else Live.
End singleton.
Arguments DependencyComponent : clear implicits.

(** [DependencyGraph] and [DepManager]: edges carry [boost::no_property],
    identifiers are [std::size_t]. *)
Abbreviation DependencyGraph World :=
  (adjacency_list (DependencyComponent World) unit).
Abbreviation DepManager World :=
  (DependencyManager (ID:=N) (VertexProperty:=DependencyComponent World)
                     (EdgeProperty:=unit)).

(** The program around the manager's instance, and the calls made on it. *)
Abbreviation DepProcess World :=
  (process (ID:=N) (VertexProperty:=DependencyComponent World)
           (EdgeProperty:=unit) (World:=World)).
Abbreviation DepCall World :=
  (call (ID:=N) (VertexProperty:=DependencyComponent World) (EdgeProperty:=unit)).
End singleton.

(** * Properties *)

(** ** The search loop *)

(** [u] has an out-edge to [v]. *)
Definition edge_rel {G} `{!Graph G} (g : G) (u v : Vertex) : Prop :=
  v ∈ target <$> out_edges u g.

Section bfs_loop_facts.
Context {G Vis : Type} `{!Graph G}.
Variable (g : G) (V : BFSVisitor G Vis).

Lemma bfs_loop_eq σ :
  bfs_loop g V σ =
  match Q σ with
  | [] => (Normal tt, σ)
  | u :: q =>
      match for_each (bfs_edge g V) (out_edges u g) (mkBfs (color σ) q (vis σ)) with
      | (Normal _, σ') =>
          bfs_loop g V (mkBfs (<[u:=black_color]> (color σ')) (Q σ') (vis σ'))
      | (Throw e, σ') => (Throw e, σ')
      end
  end.
Proof.
  funelim (bfs_loop g V σ).
  - by rewrite e.
  - by rewrite HQ, Hscan.
  - by rewrite HQ, e1.
Qed.

(** Loop rule: [I] holds whenever the queue is inspected, [R] of the way
    the loop is left. *)
Lemma bfs_loop_rule (I : bfs_state Vis → Prop)
    (R : completion unit → bfs_state Vis → Prop) :
  (∀ σ, I σ → Q σ = [] → R (Normal tt) σ) →
  (∀ σ u q σ',
      I σ → Q σ = u :: q →
      for_each (bfs_edge g V) (out_edges u g) (mkBfs (color σ) q (vis σ))
        = (Normal tt, σ') →
      I (mkBfs (<[u:=black_color]> (color σ')) (Q σ') (vis σ'))) →
  (∀ σ u q e σ',
      I σ → Q σ = u :: q →
      for_each (bfs_edge g V) (out_edges u g) (mkBfs (color σ) q (vis σ))
        = (Throw e, σ') →
      R (Throw e) σ') →
  ∀ σ, I σ → R (bfs_loop g V σ).1 (bfs_loop g V σ).2.
Proof.
  intros Hexit Hstep Hthrow σ.
  remember (bfs_measure σ) as n eqn:Hn. revert σ Hn.
  induction n as [n IH] using lt_wf_ind. intros σ -> HI.
  rewrite bfs_loop_eq. destruct (Q σ) as [|u q] eqn:HQ; [by apply Hexit|].
  destruct (for_each _ _ _) as [[[]|e] σ'] eqn:Hscan; [|by eapply Hthrow].
  eapply IH; [|done|by eapply Hstep].
  apply for_each_bfs_edge_measure in Hscan.
  pose proof (count_white_insert (color σ') u black_color ltac:(done)).
  unfold bfs_measure, count_white in *. simpl in *. rewrite HQ. simpl. lia.
Qed.
End bfs_loop_facts.

(** ** The search that looks for a vertex *)

(** The visitor [detect_cycle] builds: halt when [src] is discovered. *)
Definition cycle_visitor {G} (src : Vertex) : BFSVisitor G unit :=
  bfs_halting_visitor (λ v _, bool_decide (v = src)) make_no_halting
                      default_bfs_visitor.

Section cycle_search.
Context {G : Type} `{!Graph G}.
Variable (g : G) (src s : Vertex).
Hypothesis targets_valid : ∀ u v, edge_rel g u v → v < num_vertices g.
Hypothesis src_valid : src < num_vertices g.
Hypothesis s_valid : s < num_vertices g.

Abbreviation reaches := (rtc (edge_rel g)).
Abbreviation nonwhite σ v := (color σ !! v ≠ Some white_color).

Lemma bfs_edge_cycle e (σ : bfs_state unit) :
  bfs_edge g (cycle_visitor src) e σ =
  match color σ !! target e with
  | Some white_color =>
      if bool_decide (target e = src)
      then (Throw breaking_condition_exception,
            mkBfs (<[target e:=gray_color]> (color σ)) (Q σ) (vis σ))
      else (Normal tt,
            mkBfs (<[target e:=gray_color]> (color σ)) (Q σ ++ [target e]) (vis σ))
  | _ => (Normal tt, σ)
  end.
Proof.
  destruct σ as [cs q []].
  unfold bfs_edge, cycle_visitor, bfs_halting_visitor, on_vis, get_color,
    put_color, Q_push, make_no_halting, no_halting, default_bfs_visitor;
    unfold_M; simpl.
  destruct (cs !! target e) as [[]|]; simpl; try done.
  by case_bool_decide.
Qed.

(** What holds of the locals while the search runs; [cur] is the vertex
    whose out-edges are being examined, if any. *)
Record bfs_inv (cur : option Vertex) (σ : bfs_state unit) : Prop := {
  inv_len : length (color σ) = num_vertices g;
  inv_queue : ∀ v, v ∈ Q σ → nonwhite σ v;
  inv_gray : ∀ v, color σ !! v = Some gray_color → v ∈ Q σ ∨ cur = Some v;
  inv_cur : ∀ u, cur = Some u → nonwhite σ u ∧ reaches s u;
  inv_black : ∀ u v, color σ !! u = Some black_color → edge_rel g u v → nonwhite σ v;
  inv_start : nonwhite σ s;
  inv_src : color σ !! src = Some white_color;
  inv_reach : ∀ v, v ∈ Q σ → reaches s v
}.

Lemma bfs_edge_inv u e σ :
  bfs_inv (Some u) σ → edge_rel g u (target e) →
  match bfs_edge g (cycle_visitor src) e σ with
  | (Normal _, σ') =>
      bfs_inv (Some u) σ' ∧ nonwhite σ' (target e) ∧
      (∀ v, nonwhite σ v → nonwhite σ' v)
  | (Throw ex, _) => ex = breaking_condition_exception ∧ reaches s src
  end.
Proof.
  intros Hinv He. rewrite bfs_edge_cycle.
  destruct (color σ !! target e) as [c|] eqn:Hc; [|by rewrite ?Hc].
  destruct c; [|by rewrite ?Hc..].
  destruct (inv_cur _ _ Hinv u eq_refl) as [Hu Hsu].
  assert (reaches s (target e)) as Hst by (eapply rtc_r; eauto).
  assert (target e < length (color σ)) as Hlt by (by eapply lookup_lt_Some).
  case_bool_decide as Hsrc; [by rewrite <-Hsrc|].
  assert (∀ v, nonwhite σ v →
               <[target e:=gray_color]> (color σ) !! v ≠ Some white_color) as Hmono.
  { intros v Hv. destruct (decide (v = target e)) as [->|].
    - by rewrite list_lookup_insert_eq.
    - by rewrite list_lookup_insert_ne. }
  split_and!; [split; simpl| |done].
  - rewrite length_insert. apply (inv_len _ _ Hinv).
  - intros v [Hv| ->%list_elem_of_singleton]%elem_of_app.
    + apply Hmono, (inv_queue _ _ Hinv), Hv.
    + by rewrite list_lookup_insert_eq.
  - intros v Hv. destruct (decide (v = target e)) as [->|Hne].
    + left. apply elem_of_app. right. by apply list_elem_of_singleton.
    + rewrite list_lookup_insert_ne in Hv by done.
      destruct (inv_gray _ _ Hinv v Hv); [left|by right].
      apply elem_of_app. by left.
  - intros u' [= <-]. split; [by apply Hmono|done].
  - intros u' v Hu' Hedge. destruct (decide (u' = target e)) as [->|Hne].
    + by rewrite list_lookup_insert_eq in Hu'.
    + rewrite list_lookup_insert_ne in Hu' by done.
      eapply Hmono, (inv_black _ _ Hinv); eauto.
  - apply Hmono, (inv_start _ _ Hinv).
  - rewrite list_lookup_insert_ne by done. apply (inv_src _ _ Hinv).
  - intros v [Hv| ->%list_elem_of_singleton]%elem_of_app; [|done].
    by apply (inv_reach _ _ Hinv).
  - simpl. by rewrite list_lookup_insert_eq.
Qed.

Lemma for_each_bfs_edge_inv u es σ :
  bfs_inv (Some u) σ → (∀ e, e ∈ es → edge_rel g u (target e)) →
  match for_each (bfs_edge g (cycle_visitor src)) es σ with
  | (Normal _, σ') =>
      bfs_inv (Some u) σ' ∧ (∀ e, e ∈ es → nonwhite σ' (target e)) ∧
      (∀ v, nonwhite σ v → nonwhite σ' v)
  | (Throw ex, _) => ex = breaking_condition_exception ∧ reaches s src
  end.
Proof.
  revert σ. induction es as [|e es IH]; intros σ Hinv Hes; simpl.
  - unfold_M. split_and!; [done| |done]. by intros e ?%elem_of_nil.
  - pose proof (bfs_edge_inv u e σ Hinv (Hes e ltac:(left))) as He.
    unfold_M. destruct (bfs_edge _ _ e σ) as [[[]|ex] σ1]; [|done].
    destruct He as (Hinv1 & He1 & Hmono1).
    specialize (IH σ1 Hinv1 (λ e' He', Hes e' ltac:(by right))).
    destruct (for_each _ es σ1) as [[[]|ex] σ2]; [|done].
    destruct IH as (Hinv2 & Hes2 & Hmono2).
    split_and!; [done| |by auto].
    intros e' [->|He']%elem_of_cons; auto.
Qed.

Lemma bfs_loop_cycle σ :
  bfs_inv None σ →
  match bfs_loop g (cycle_visitor src) σ with
  | (Normal _, σ') => bfs_inv None σ' ∧ Q σ' = []
  | (Throw ex, _) => ex = breaking_condition_exception ∧ reaches s src
  end.
Proof.
  intros Hinv.
  pose proof (bfs_loop_rule g (cycle_visitor src) (bfs_inv None)
    (λ r σ', match r with
             | Normal _ => bfs_inv None σ' ∧ Q σ' = []
             | Throw ex => ex = breaking_condition_exception ∧ reaches s src
             end)) as Hrule.
  destruct (bfs_loop _ _ σ) as [r σ'] eqn:Hloop.
  assert (r = (bfs_loop g (cycle_visitor src) σ).1) as -> by by rewrite Hloop.
  assert (σ' = (bfs_loop g (cycle_visitor src) σ).2) as -> by by rewrite Hloop.
  apply Hrule; [done| | |done]; clear dependent σ.
  - (* the out-edges of [u] were all examined: [u] turns black *)
    intros σ u q σ' Hinv HQ Hscan.
    assert (bfs_inv (Some u) (mkBfs (color σ) q (vis σ))) as Hpop.
    { destruct Hinv as [Hlen Hq Hgray _ Hblack Hs Hsrc Hreach].
      rewrite HQ in Hq, Hgray, Hreach. split; simpl; try done.
      - intros v Hv. apply Hq. by right.
      - intros v [[->|Hv]%elem_of_cons|[=]]%Hgray; [by right|by left].
      - intros u' [= <-]. split; [apply Hq|apply Hreach]; by left.
      - intros v Hv. apply Hreach. by right. }
    pose proof (for_each_bfs_edge_inv u (out_edges u g) _ Hpop) as Hfor.
    rewrite Hscan in Hfor.
    destruct Hfor as ([Hlen Hq Hgray Hcur Hblack Hs Hsrc Hreach] & Hout & _).
    { intros e He. unfold edge_rel. apply list_elem_of_fmap. eauto. }
    destruct (Hcur u eq_refl) as [Hu _].
    assert (∀ v, nonwhite σ' v →
                 <[u:=black_color]> (color σ') !! v ≠ Some white_color) as Hmono.
    { intros v Hv. destruct (decide (v = u)) as [->|].
      - intros Hw. apply Hu. apply list_lookup_insert_Some in Hw.
        by destruct Hw as [(_ & ? & _)|[_ ?]].
      - by rewrite list_lookup_insert_ne. }
    split; simpl; try done.
    + by rewrite length_insert.
    + intros v Hv. by apply Hmono, Hq.
    + intros v Hv. destruct (decide (v = u)) as [->|Hne].
      * apply list_lookup_insert_Some in Hv.
        destruct Hv as [(_ & [=] & _)|[? _]]; done.
      * rewrite list_lookup_insert_ne in Hv by done.
        destruct (Hgray v Hv) as [|[=]]; [by left|done].
    + intros u' v Hu' Hedge. apply Hmono.
      destruct (decide (u' = u)) as [->|Hne].
      * unfold edge_rel in Hedge. apply list_elem_of_fmap in Hedge.
        destruct Hedge as (e & -> & He). by apply Hout.
      * rewrite list_lookup_insert_ne in Hu' by done. by eapply Hblack.
    + by apply Hmono.
    + rewrite list_lookup_insert_ne; [done|]. intros ->. by apply Hu.
  - (* an out-edge of [u] led to [src] *)
    intros σ u q ex σ' Hinv HQ Hscan.
    assert (bfs_inv (Some u) (mkBfs (color σ) q (vis σ))) as Hpop.
    { destruct Hinv as [Hlen Hq Hgray _ Hblack Hs Hsrc Hreach].
      rewrite HQ in Hq, Hgray, Hreach. split; simpl; try done.
      - intros v Hv. apply Hq. by right.
      - intros v [[->|Hv]%elem_of_cons|[=]]%Hgray; [by right|by left].
      - intros u' [= <-]. split; [apply Hq|apply Hreach]; by left.
      - intros v Hv. apply Hreach. by right. }
    pose proof (for_each_bfs_edge_inv u (out_edges u g) _ Hpop) as Hfor.
    rewrite Hscan in Hfor. apply Hfor.
    intros e He. unfold edge_rel. apply list_elem_of_fmap. eauto.
Qed.

(** When the loop has emptied the queue, every vertex [s] reaches is
    black. *)
Lemma bfs_inv_closed σ v :
  bfs_inv None σ → Q σ = [] → reaches s v →
  color σ !! v = Some black_color.
Proof.
  intros [Hlen Hq Hgray _ Hblack Hs Hsrc Hreach] HQ.
  assert (∀ w, w < num_vertices g → nonwhite σ w →
               color σ !! w = Some black_color) as Hfin.
  { intros w Hw Hnw. rewrite <-Hlen in Hw.
    destruct (lookup_lt_is_Some_2 _ _ Hw) as [[] Hc]; [done| |done].
    destruct (Hgray w Hc) as [Hin|[=]]. rewrite HQ in Hin.
    by apply elem_of_nil in Hin. }
  revert v. apply (rtc_ind_r (λ v, color σ !! v = Some black_color)).
  - by apply Hfin.
  - intros u v Hsu Huv IH.
    apply Hfin; [by eapply targets_valid|]. by eapply Hblack.
Qed.

Lemma breadth_first_search_cycle :
  breadth_first_search g (cycle_visitor src) s tt =
  if bool_decide (s = src) then (Throw breaking_condition_exception, tt)
  else ((bfs_loop g (cycle_visitor src)
           (mkBfs (<[s:=gray_color]> (replicate (num_vertices g) white_color))
                  [s] tt)).1,
        tt).
Proof.
  assert (discover_vertex (cycle_visitor src) s g tt =
          if bool_decide (s = src)
          then (Throw breaking_condition_exception, tt) else (Normal tt, tt))
    as Hdiscover.
  { unfold cycle_visitor, bfs_halting_visitor, default_bfs_visitor;
      unfold_M; simpl. by case_bool_decide. }
  unfold breadth_first_search, breadth_first_visit, on_vis, put_color, Q_push;
    unfold_M; cbn -[cycle_visitor].
  rewrite Hdiscover. case_bool_decide; simpl; [done|].
  by destruct (bfs_loop _ _ _) as [r [? ? []]].
Qed.

Lemma bfs_inv_init :
  s ≠ src →
  bfs_inv None (mkBfs (<[s:=gray_color]> (replicate (num_vertices g) white_color))
                      [s] tt).
Proof.
  intros Hne. split; simpl.
  - by rewrite length_insert, length_replicate.
  - intros v ->%list_elem_of_singleton.
    rewrite list_lookup_insert_eq; [done|by rewrite length_replicate].
  - intros v Hv. destruct (decide (v = s)) as [->|]; [left; by left|].
    rewrite list_lookup_insert_ne in Hv by done.
    by apply lookup_replicate in Hv as [[=] _].
  - done.
  - intros u v Hu. destruct (decide (u = s)) as [->|].
    + rewrite list_lookup_insert_eq in Hu; [done|by rewrite length_replicate].
    + rewrite list_lookup_insert_ne in Hu by done.
      by apply lookup_replicate in Hu as [[=] _].
  - rewrite list_lookup_insert_eq; [done|by rewrite length_replicate].
  - rewrite list_lookup_insert_ne by done. by apply lookup_replicate.
  - by intros v ->%list_elem_of_singleton.
Qed.

(** The search from [s] is left by [breaking_condition_exception] when [s]
    reaches [src], and returns when it does not. *)
Lemma breadth_first_search_spec :
  match breadth_first_search g (cycle_visitor src) s tt with
  | (Normal _, _) => ¬ reaches s src
  | (Throw ex, _) => ex = breaking_condition_exception ∧ reaches s src
  end.
Proof.
  rewrite breadth_first_search_cycle.
  case_bool_decide as Hne; [by rewrite Hne|].
  pose proof (bfs_loop_cycle _ (bfs_inv_init Hne)) as Hloop.
  destruct (bfs_loop _ _ _) as [[[]|ex] σ']; simpl; [|done].
  destruct Hloop as [Hinv HQ]. intros Hreach.
  pose proof (bfs_inv_closed _ _ Hinv HQ Hreach) as Hb.
  by rewrite (inv_src _ _ Hinv) in Hb.
Qed.
End cycle_search.

(** ** The adjacency list *)

Section adjacency_list_facts.
Context {VP EP : Type} `{!Inhabited VP, !Inhabited EP}.
Implicit Types g : adjacency_list VP EP.

(** The structure of a graph: per vertex, in the order of the
    descriptors, its out-edges with their labels and the sources of its
    in-edges. The bundled vertex properties are what is left out. *)
Definition skeleton g : list (list (Vertex * EP) * list Vertex) :=
  (λ sv, (m_out_edges sv, m_in_edges sv)) <$> m_vertices g.

Lemma skeleton_lookup g g' u :
  skeleton g = skeleton g' →
  out_edge_list u g = out_edge_list u g' ∧ in_edge_list u g = in_edge_list u g'.
Proof.
  intros Hsk. apply (f_equal (.!! u)) in Hsk. unfold skeleton in Hsk.
  rewrite !list_lookup_fmap in Hsk. unfold out_edge_list, in_edge_list.
  destruct (m_vertices g !! u), (m_vertices g' !! u); by simplify_eq/=.
Qed.

Lemma skeleton_num_vertices g g' :
  skeleton g = skeleton g' → adj_num_vertices g = adj_num_vertices g'.
Proof.
  intros Hsk. apply (f_equal length) in Hsk. unfold skeleton in Hsk.
  by rewrite !length_fmap in Hsk.
Qed.

Lemma skeleton_out_edges g g' u :
  skeleton g = skeleton g' → adj_out_edges u g = adj_out_edges u g'.
Proof.
  intros Hsk. unfold adj_out_edges. by destruct (skeleton_lookup g g' u Hsk) as [-> _].
Qed.

Lemma skeleton_put_vertex_bundle v p g :
  skeleton (put_vertex_bundle v p g) = skeleton g.
Proof.
  unfold skeleton, put_vertex_bundle. simpl. apply list_eq. intros i.
  rewrite !list_lookup_fmap.
  destruct (decide (i = v)) as [->|].
  - rewrite list_lookup_alter_eq. by destruct (m_vertices g !! v).
  - by rewrite list_lookup_alter_ne.
Qed.

Lemma adj_edge_rel g u v : edge_rel g u v ↔ v ∈ (out_edge_list u g).*1.
Proof.
  unfold edge_rel. simpl. unfold adj_out_edges. rewrite fmap_imap.
  by rewrite (imap_ext _ (const fst)), imap_const.
Qed.

Lemma edge_found g u v : (edge u v g).2 = true ↔ edge_rel g u v.
Proof.
  unfold edge, edge_rel. simpl.
  destruct (list_find _ _) as [[i e]|] eqn:Hfind; simpl.
  - apply list_find_Some in Hfind as (Hi & <- & _). split; [|done].
    intros _. apply list_elem_of_fmap. exists e. split; [done|].
    by eapply list_elem_of_lookup_2.
  - split; [done|]. intros (e & -> & He)%list_elem_of_fmap.
    eapply list_find_None, Forall_forall in Hfind; [|done]. done.
Qed.

Lemma out_edge_list_add_vertex p g u :
  out_edge_list u (add_vertex p g).2 = out_edge_list u g.
Proof.
  unfold out_edge_list, add_vertex. simpl.
  destruct (decide (u < length (m_vertices g))).
  - by rewrite lookup_app_l.
  - rewrite lookup_app_r by lia. rewrite (lookup_ge_None_2 (m_vertices g)) by lia.
    by destruct (u - _) as [|[|]].
Qed.

(** Adding an edge between vertices of the graph and installing its label
    appends [(v, l)] to the out-edges of [u] and changes no other
    out-edge list. *)
Lemma out_edge_list_add_edge u v l g a :
  u < adj_num_vertices g → v < adj_num_vertices g →
  out_edge_list a (put_edge_bundle (add_edge u v g).1.1 l (add_edge u v g).2)
  = if decide (a = u) then out_edge_list u g ++ [(v, l)] else out_edge_list a g.
Proof.
  intros Hu Hv. unfold put_edge_bundle, add_edge, out_edge_list. simpl.
  rewrite decide_False by lia.
  destruct (lookup_lt_is_Some_2 (m_vertices g) u Hu) as [su Hsu].
  destruct (lookup_lt_is_Some_2 (m_vertices g) v Hv) as [sv Hsv].
  case_decide as Ha.
  - subst a. rewrite list_lookup_alter_eq.
    destruct (decide (u = v)) as [<-|Hne].
    + rewrite !list_lookup_alter_eq, Hsu. simpl.
      by rewrite alter_app_r_alt, Nat.sub_diag by done.
    + rewrite list_lookup_alter_ne by done.
      rewrite list_lookup_alter_eq, Hsu. simpl.
      by rewrite alter_app_r_alt, Nat.sub_diag by done.
  - rewrite list_lookup_alter_ne by done.
    destruct (decide (a = v)) as [->|Hne].
    + rewrite list_lookup_alter_eq, list_lookup_alter_ne by done.
      by rewrite Hsv.
    + by rewrite !list_lookup_alter_ne by done.
Qed.

Lemma num_vertices_add_edge u v l g :
  u < adj_num_vertices g → v < adj_num_vertices g →
  adj_num_vertices (put_edge_bundle (add_edge u v g).1.1 l (add_edge u v g).2)
  = adj_num_vertices g.
Proof.
  intros Hu Hv. unfold put_edge_bundle, add_edge, adj_num_vertices in *. simpl.
  rewrite decide_False by lia. by rewrite !length_alter.
Qed.
End adjacency_list_facts.

(** ** Loops and searches in general *)

Section for_each_facts.
Context {Σ A : Type}.
Implicit Types (body : A → M Σ unit) (l : list A).

Lemma for_each_app body l1 l2 σ :
  for_each body (l1 ++ l2) σ = (for_each body l1;; for_each body l2) σ.
Proof.
  revert σ. induction l1 as [|x l1 IH]; intros σ; simpl; unfold_M; [done|].
  destruct (body x σ) as [[[]|e] σ1]; [|done]. apply IH.
Qed.

Lemma for_each_ext body body' l σ :
  (∀ x σ, body x σ = body' x σ) → for_each body l σ = for_each body' l σ.
Proof.
  intros Hext. revert σ. induction l as [|x l IH]; intros σ; simpl; [done|].
  unfold_M. rewrite Hext. destruct (body' x σ) as [[[]|e] σ1]; [|done]. apply IH.
Qed.

(** What every run of the body keeps, the loop keeps, however it is left. *)
Lemma for_each_preserves (P : Σ → Prop) body l σ :
  (∀ x σ, P σ → P (body x σ).2) → P σ → P (for_each body l σ).2.
Proof.
  intros Hbody. revert σ. induction l as [|x l IH]; intros σ Hσ; simpl; [done|].
  unfold_M. specialize (Hbody x σ Hσ).
  destruct (body x σ) as [[[]|e] σ1]; [|done]. by apply IH.
Qed.

(** A loop left by an exception was left by the first run of the body that
    threw, in the state this run left. *)
Lemma for_each_throw body l σ e σ' :
  for_each body l σ = (Throw e, σ') →
  ∃ done x rest σ1,
    l = done ++ x :: rest ∧
    for_each body done σ = (Normal tt, σ1) ∧
    body x σ1 = (Throw e, σ').
Proof.
  revert σ. induction l as [|x l IH]; intros σ; simpl; unfold_M; [done|].
  destruct (body x σ) as [[[]|e1] σ1] eqn:Hx.
  - intros (done & y & rest & σ2 & -> & Hdone & Hy)%IH.
    exists (x :: done), y, rest, σ2. simpl. unfold_M. by rewrite Hx.
  - intros [= -> ->]. by exists [], x, l, σ.
Qed.
End for_each_facts.

Section bfs_ext.
Context {G G' Vis : Type} `{!Graph G, !Graph G'}.
Variable (g : G) (g' : G') (V : BFSVisitor G Vis) (V' : BFSVisitor G' Vis).
Hypothesis same_num : num_vertices g = num_vertices g'.
Hypothesis same_out : ∀ u, out_edges u g = out_edges u g'.
Hypothesis same_discover : ∀ v vs, discover_vertex V v g vs = discover_vertex V' v g' vs.
Hypothesis same_examine : ∀ e vs, examine_edge V e g vs = examine_edge V' e g' vs.

Lemma bfs_edge_ext e σ : bfs_edge g V e σ = bfs_edge g' V' e σ.
Proof.
  unfold bfs_edge, on_vis, put_color, Q_push; unfold_M. simpl.
  rewrite same_examine. destruct (examine_edge V' e g' _) as [[[]|ex] s1]; [|done].
  simpl. destruct (get_color _ _); try done. simpl. by rewrite same_discover.
Qed.

Lemma bfs_loop_ext σ : bfs_loop g V σ = bfs_loop g' V' σ.
Proof.
  remember (bfs_measure σ) as n eqn:Hn. revert σ Hn.
  induction n as [n IH] using lt_wf_ind. intros σ ->.
  rewrite (bfs_loop_eq g), (bfs_loop_eq g'). destruct (Q σ) as [|u q] eqn:HQ; [done|].
  rewrite same_out, (for_each_ext _ _ _ _ bfs_edge_ext).
  destruct (for_each _ _ _) as [[[]|e] σ'] eqn:Hscan; [|done].
  eapply IH; [|done].
  apply for_each_bfs_edge_measure in Hscan.
  pose proof (count_white_insert (color σ') u black_color ltac:(done)).
  unfold bfs_measure, count_white in *. simpl in *. rewrite HQ. simpl. lia.
Qed.

(** A search sees of the graph its number of vertices and its out-edges. *)
Lemma breadth_first_search_ext s vs :
  breadth_first_search g V s vs = breadth_first_search g' V' s vs.
Proof.
  unfold breadth_first_search, breadth_first_visit, on_vis, put_color, Q_push;
    unfold_M. simpl.
  rewrite same_num, same_discover.
  destruct (discover_vertex V' s g' vs) as [[[]|e] s1]; [|done].
  by rewrite bfs_loop_ext.
Qed.
End bfs_ext.

(** ** The sweep *)

Section sweep_facts.
Context {ID : Type} `{Countable ID}.
Context {VertexProperty EdgeProperty World : Type}.
Context `{!Inhabited VertexProperty, !Inhabited EdgeProperty}.
Variable Deleter : M (VertexProperty * World) unit.

Abbreviation Mgr :=
  (DependencyManager (ID:=ID) (VertexProperty:=VertexProperty)
                     (EdgeProperty:=EdgeProperty)).
Abbreviation Proc :=
  (process (ID:=ID) (VertexProperty:=VertexProperty)
           (EdgeProperty:=EdgeProperty) (World:=World)).
Abbreviation graph π := (m_dependency_graph (manager π)).
Implicit Types (σ : Mgr) (π : Proc) (g : adjacency_list VertexProperty EdgeProperty).

(** The search that fills the deletion stack is never left by an
    exception. *)
Lemma deletion_scan_returns {G} `{!Graph G} (fg : G) es (σb : bfs_state (list Vertex)) :
  (for_each (bfs_edge fg DeletionStackBfsVisitor) es σb).1 = Normal tt.
Proof.
  revert σb. induction es as [|e es IH]; intros σb; simpl; [done|].
  unfold_M.
  assert ((bfs_edge fg DeletionStackBfsVisitor e σb).1 = Normal tt) as He.
  { unfold bfs_edge, DeletionStackBfsVisitor, on_vis, put_color, Q_push;
      unfold_M; simpl. by destruct (get_color _ _). }
  destruct (bfs_edge _ _ e σb) as [[[]|ex] σ1]; [apply IH|done].
Qed.

Lemma deletion_loop_returns {G} `{!Graph G} (fg : G) (σb : bfs_state (list Vertex)) :
  (bfs_loop fg DeletionStackBfsVisitor σb).1 = Normal tt.
Proof.
  apply (bfs_loop_rule fg DeletionStackBfsVisitor (λ _, True) (λ r _, r = Normal tt));
    [done..| |done].
  intros σ u q e σ' _ _ Hscan.
  pose proof (deletion_scan_returns fg (out_edges u fg) (mkBfs (color σ) q (vis σ)))
    as Hret.
  by rewrite Hscan in Hret.
Qed.

Lemma deletion_search_returns {G} `{!Graph G} (fg : G) root vs :
  (breadth_first_search fg DeletionStackBfsVisitor root vs).1 = Normal tt.
Proof.
  unfold breadth_first_search, breadth_first_visit, on_vis, put_color, Q_push;
    unfold_M. simpl.
  match goal with |- context [bfs_loop _ _ ?σ0] =>
    pose proof (deletion_loop_returns fg σ0) as Hloop;
    by destruct (bfs_loop _ _ σ0) as [r σ1]
  end.
Qed.

(** The vertices the search from [root] discovers, in discovery order. *)
Definition deletion_stack (root : Vertex) g : list Vertex :=
  (breadth_first_search (mkFiltered g keep_all keep_all)
                        DeletionStackBfsVisitor root []).2.

Lemma get_deletion_stack_eq root σ :
  get_deletion_stack root keep_all σ
  = (Normal (deletion_stack root (m_dependency_graph σ)), σ).
Proof.
  unfold get_deletion_stack, deletion_stack.
  pose proof (deletion_search_returns
    (mkFiltered (m_dependency_graph σ) keep_all keep_all) root []) as Hret.
  by destruct (breadth_first_search _ _ _ _) as [[[]|e] st].
Qed.

Lemma deletion_stack_skeleton root g g' :
  skeleton g = skeleton g' → deletion_stack root g = deletion_stack root g'.
Proof.
  intros Hsk. unfold deletion_stack. f_equal.
  apply breadth_first_search_ext; simpl; try done.
  - by apply skeleton_num_vertices.
  - intros u. by rewrite (skeleton_out_edges g g' u Hsk).
Qed.

(** The order in which the sweep hands vertices to the [Deleter]: for each
    vertex without in-edges, in the order of the descriptors, its deletion
    stack from the top down. *)
Definition deletion_schedule g : list Vertex :=
  concat ((λ v, reverse (deletion_stack v g))
            <$> filter (λ v, in_edges v g = []) (vertices g)).

(** What no call of the [Deleter] changes. *)
Definition same_structure π π' : Prop :=
  skeleton (graph π') = skeleton (graph π) ∧
  m_vertices_map (manager π') = m_vertices_map (manager π).

Lemma call_Deleter_structure v π : same_structure π (call_Deleter Deleter v π).2.
Proof.
  unfold call_Deleter, same_structure.
  destruct (vertex_bundle _ _) as [p|]; [|done].
  destruct (Deleter _) as [r [p' w']]. simpl.
  by rewrite skeleton_put_vertex_bundle.
Qed.

Lemma for_each_call_Deleter_structure l π :
  same_structure π (for_each (call_Deleter Deleter) l π).2.
Proof.
  apply (for_each_preserves (same_structure π)); [|done].
  intros v π1 [Hsk Hmap]. destruct (call_Deleter_structure v π1) as [Hsk1 Hmap1].
  split; congruence.
Qed.

Lemma perform_deletion_from_eq v π :
  perform_deletion_from Deleter v π
  = for_each (call_Deleter Deleter) (reverse (deletion_stack v (graph π))) π.
Proof.
  unfold perform_deletion_from, on_manager; unfold_M.
  rewrite get_deletion_stack_eq. by destruct π as [σ w cs].
Qed.

Lemma clear_loop_schedule g0 vs π :
  skeleton (graph π) = skeleton g0 →
  for_each (λ v_it,
              is_root ← gets (λ π, is_root_dependency v_it (manager π));
              if is_root : bool then perform_deletion_from Deleter v_it
              else mret tt) vs π
  = for_each (call_Deleter Deleter)
      (concat ((λ v, reverse (deletion_stack v g0))
                 <$> filter (λ v, in_edges v g0 = []) vs)) π.
Proof.
  revert π. induction vs as [|v vs IH]; intros π Hsk; [done|].
  simpl. unfold_M. rewrite filter_cons. unfold is_root_dependency, in_edges.
  destruct (skeleton_lookup _ _ v Hsk) as [_ ->].
  case_bool_decide as Hroot.
  - rewrite decide_True by done. simpl. rewrite for_each_app. unfold_M.
    rewrite perform_deletion_from_eq, (deletion_stack_skeleton v _ g0) by done.
    pose proof (for_each_call_Deleter_structure
                  (reverse (deletion_stack v g0)) π) as [Hsk1 _].
    destruct (for_each _ (reverse _) π) as [[[]|e] π1]; [|done].
    apply IH. simpl in Hsk1. congruence.
  - rewrite decide_False by done. by apply IH.
Qed.

(** [clear()] is the loop over the deletion schedule of the graph it
    starts from. *)
Lemma clear_schedule π :
  clear Deleter π
  = for_each (call_Deleter Deleter) (deletion_schedule (graph π)) π.
Proof. unfold clear; unfold_M. by apply clear_loop_schedule. Qed.

Lemma clear_structure π : same_structure π (clear Deleter π).2.
Proof. rewrite clear_schedule. apply for_each_call_Deleter_structure. Qed.
End sweep_facts.

(** ** Registration *)

(** The spec's names for the errors of registration, by the message the
    sources give each. *)
Definition AlreadyExists : exception :=
  runtime_error "Object is already registered".
Definition UnknownId : exception :=
  runtime_error
    "The source and/or the target of the dependency relationship is not registered in the graph.".
Definition DuplicateEdge : exception :=
  runtime_error "The described dependency is already registered.".
Definition WouldCycle : exception :=
  runtime_error
    "Registering the dependency would produce a cycle in the dependency graph.".

(** A relation grown by one pair: a path of the new relation is a path of the
    old one or passes through the new pair. *)
Lemma tc_add_pair {A} (R R' : relation A) (u v : A) :
  (∀ a b, R' a b → R a b ∨ (a = u ∧ b = v)) →
  ∀ x y, tc R' x y → tc R x y ∨ (rtc R x u ∧ rtc R v y).
Proof.
  intros Hadd x y Hxy. induction Hxy as [x y Hxy|x z y Hxz Hzy IH].
  - destruct (Hadd _ _ Hxy) as [?|[-> ->]]; [left; by apply tc_once|by right].
  - destruct (Hadd _ _ Hxz) as [HR|[-> ->]].
    + destruct IH as [IH|[Hzu Hvy]].
      * left. by eapply tc_l.
      * right. split; [by eapply rtc_l|done].
    + right. split; [done|]. destruct IH as [IH|[_ Hvy]]; [|done].
      by apply tc_rtc.
Qed.

Section registration_facts.
Context {ID : Type} `{Countable ID}.
Context {VertexProperty EdgeProperty World : Type}.
Context `{!Inhabited VertexProperty, !Inhabited EdgeProperty}.
Variable Deleter : M (VertexProperty * World) unit.

Abbreviation Mgr' :=
  (DependencyManager (ID:=ID) (VertexProperty:=VertexProperty)
                     (EdgeProperty:=EdgeProperty)).
Abbreviation Proc' :=
  (process (ID:=ID) (VertexProperty:=VertexProperty)
           (EdgeProperty:=EdgeProperty) (World:=World)).
Implicit Types (σ : Mgr') (π : Proc').

(** What registration maintains: the map holds vertices of the graph,
    edges lead to vertices of the graph, and no path of edges returns to
    where it started. *)
Record manager_wf σ : Prop := {
  wf_map : ∀ id v,
    m_vertices_map σ !! id = Some v → v < adj_num_vertices (m_dependency_graph σ);
  wf_targets : ∀ u v,
    edge_rel (m_dependency_graph σ) u v → v < adj_num_vertices (m_dependency_graph σ);
  wf_acyclic : ∀ v, ¬ tc (edge_rel (m_dependency_graph σ)) v v
}.

Lemma manager_wf_structure σ σ' :
  skeleton (m_dependency_graph σ') = skeleton (m_dependency_graph σ) →
  m_vertices_map σ' = m_vertices_map σ →
  manager_wf σ → manager_wf σ'.
Proof.
  intros Hsk Hmap [Hm Ht Ha].
  assert (∀ u v, edge_rel (m_dependency_graph σ') u v
                 ↔ edge_rel (m_dependency_graph σ) u v) as Hedge.
  { intros u v. rewrite !adj_edge_rel.
    by destruct (skeleton_lookup _ _ u Hsk) as [-> _]. }
  pose proof (skeleton_num_vertices _ _ Hsk) as Hn.
  split.
  - intros id v. rewrite Hmap, Hn. apply Hm.
  - intros u v. rewrite Hedge, Hn. apply Ht.
  - intros v Hv. apply (Ha v). eapply tc_congruence with (f := λ x, x); [|done].
    intros ??. by apply Hedge.
Qed.

(** [detect_cycle] writes nothing; it throws the would-cycle error when
    [dst] reaches [src] and returns when it does not. *)
Lemma detect_cycle_spec σ src dst :
  manager_wf σ →
  src < adj_num_vertices (m_dependency_graph σ) →
  dst < adj_num_vertices (m_dependency_graph σ) →
  match detect_cycle src dst σ with
  | (Normal _, σ1) => σ1 = σ ∧ ¬ rtc (edge_rel (m_dependency_graph σ)) dst src
  | (Throw e, σ1) =>
      σ1 = σ ∧ e = WouldCycle ∧ rtc (edge_rel (m_dependency_graph σ)) dst src
  end.
Proof.
  intros [_ Ht _] Hsrc Hdst. unfold detect_cycle.
  change (bfs_halting_visitor _ _ _)
    with (cycle_visitor (G:=adjacency_list VertexProperty EdgeProperty) src).
  pose proof (breadth_first_search_spec (m_dependency_graph σ) src dst Ht Hsrc Hdst)
    as Hspec.
  destruct (breadth_first_search _ _ _ _) as [[[]|e] []]; [done|].
  by destruct Hspec as [-> ?].
Qed.

Lemma detect_cycle_state σ src dst : (detect_cycle src dst σ).2 = σ.
Proof.
  unfold detect_cycle.
  by destruct (breadth_first_search _ _ _ _) as [[[]|[]] []].
Qed.

(** [register_dependency] once both identifiers are found. *)
Lemma register_dependency_found src_id dst_id l σ src dst :
  m_vertices_map σ !! src_id = Some src →
  m_vertices_map σ !! dst_id = Some dst →
  register_dependency src_id dst_id l σ =
  if (edge src dst (m_dependency_graph σ)).2 then (Throw DuplicateEdge, σ)
  else match detect_cycle src dst σ with
       | (Normal _, σ1) =>
           (Normal tt,
            mkManager
              (put_edge_bundle (add_edge src dst (m_dependency_graph σ1)).1.1 l
                               (add_edge src dst (m_dependency_graph σ1)).2)
              (m_vertices_map σ1))
       | (Throw e, σ1) => (Throw e, σ1)
       end.
Proof.
  intros Hsrc Hdst. unfold register_dependency; unfold_M. rewrite Hsrc, Hdst.
  destruct (edge _ _ _).2; [done|].
  by destruct (detect_cycle src dst σ) as [[[]|e] σ1].
Qed.
Lemma register_component_wf id p σ :
  manager_wf σ → manager_wf (register_component id p σ).2.
Proof.
  intros [Hm Ht Ha]. unfold register_component, emplace; unfold_M.
  destruct (m_vertices_map σ !! id) as [v0|] eqn:Hid; [done|]. simpl.
  assert (∀ u v, edge_rel (add_vertex p (m_dependency_graph σ)).2 u v
                 ↔ edge_rel (m_dependency_graph σ) u v) as Hedge.
  { intros u v. by rewrite !adj_edge_rel, out_edge_list_add_vertex. }
  assert (adj_num_vertices (add_vertex p (m_dependency_graph σ)).2
          = S (adj_num_vertices (m_dependency_graph σ))) as Hn.
  { unfold adj_num_vertices, add_vertex. simpl. rewrite length_app. simpl. lia. }
  unfold add_vertex in Hedge, Hn. cbn [snd] in Hedge, Hn.
  split; simpl; rewrite ?Hid.
  - intros id' v. rewrite lookup_insert, Hn. case_decide.
    + intros [= <-]. lia.
    + intros ?%Hm. lia.
  - intros u v ?%Hedge%Ht. rewrite Hn. lia.
  - intros v Hv. apply (Ha v). eapply tc_congruence with (f := λ x, x); [|done].
    intros ??. by apply Hedge.
Qed.

Lemma register_dependency_wf src_id dst_id l σ :
  manager_wf σ → manager_wf (register_dependency src_id dst_id l σ).2.
Proof.
  intros Hwf.
  destruct (m_vertices_map σ !! src_id) as [src|] eqn:Hs; cycle 1.
  { unfold register_dependency; unfold_M. by rewrite Hs. }
  destruct (m_vertices_map σ !! dst_id) as [dst|] eqn:Hd; cycle 1.
  { unfold register_dependency; unfold_M. by rewrite Hs, Hd. }
  rewrite (register_dependency_found _ _ _ _ src dst) by done.
  destruct (edge _ _ _).2; [done|].
  pose proof (wf_map _ Hwf _ _ Hs) as Hsrc.
  pose proof (wf_map _ Hwf _ _ Hd) as Hdst.
  pose proof (detect_cycle_spec σ src dst Hwf Hsrc Hdst) as Hdetect.
  destruct (detect_cycle src dst σ) as [[[]|e] σ1]; [|by destruct Hdetect as [-> _]].
  destruct Hdetect as [-> Hno]. destruct Hwf as [Hm Ht Ha]. cbn [snd].
  set (g' := put_edge_bundle _ _ _).
  assert (∀ a b, edge_rel g' a b
                 → edge_rel (m_dependency_graph σ) a b ∨ (a = src ∧ b = dst)) as Hedge.
  { intros a b. rewrite !adj_edge_rel. unfold g'.
    rewrite out_edge_list_add_edge by done. case_decide as Ha'; [|by left].
    subst a. rewrite fmap_app.
    intros [?| ->%list_elem_of_singleton]%elem_of_app; [by left|by right]. }
  assert (adj_num_vertices g' = adj_num_vertices (m_dependency_graph σ)) as Hn
    by by apply num_vertices_add_edge.
  split; simpl.
  - intros id v. rewrite Hn. apply Hm.
  - intros u v [?%Ht|[-> ->]]%Hedge; by rewrite Hn.
  - intros v [Hv|[Hvs Hdv]]%(tc_add_pair _ _ src dst Hedge).
    + by apply (Ha v).
    + apply Hno. by etrans.
Qed.

Lemma run_call_wf c π :
  manager_wf (manager π) → manager_wf (manager (run_call Deleter c π).2).
Proof.
  intros Hwf. destruct c as [id p|src_id dst_id l|]; simpl.
  - unfold on_manager. pose proof (register_component_wf id p _ Hwf).
    by destruct (register_component _ _ _).
  - unfold on_manager. pose proof (register_dependency_wf src_id dst_id l _ Hwf).
    by destruct (register_dependency _ _ _ _).
  - destruct (clear_structure Deleter π) as [Hsk Hmap].
    by eapply manager_wf_structure.
Qed.

Lemma run_calls_wf cs π :
  manager_wf (manager π) → manager_wf (manager (run_calls Deleter cs π)).
Proof.
  revert π. induction cs as [|c cs IH]; intros π Hwf; [done|].
  simpl. by apply IH, run_call_wf.
Qed.

Lemma empty_manager_wf : manager_wf (empty_manager (ID:=ID)).
Proof.
  assert (∀ u v, ¬ edge_rel (empty_graph (VertexProperty:=VertexProperty)
                                         (EdgeProperty:=EdgeProperty)) u v) as Hno.
  { intros u v Huv%adj_edge_rel. by apply elem_of_nil in Huv. }
  split; simpl; [done| |].
  - intros u v Huv. by apply Hno in Huv.
  - intros v Hv. destruct Hv as [?? Huv|??? Huv _]; by apply Hno in Huv.
Qed.
End registration_facts.

(** ** What a sweep leaves of the manager *)

Section structure_facts.
Context {ID : Type} `{Countable ID}.
Context {VertexProperty EdgeProperty : Type}.
Context `{!Inhabited VertexProperty, !Inhabited EdgeProperty}.
Implicit Types σ : DependencyManager (ID:=ID) (VertexProperty:=VertexProperty)
                                     (EdgeProperty:=EdgeProperty).

Lemma put_vertex_bundle_id v p (g : adjacency_list VertexProperty EdgeProperty) :
  vertex_bundle v g = Some p → put_vertex_bundle v p g = g.
Proof.
  unfold vertex_bundle, put_vertex_bundle. destruct g as [vs]. simpl.
  intros Hv. f_equal. apply list_eq. intros i.
  destruct (decide (i = v)) as [->|]; [|by rewrite list_lookup_alter_ne].
  rewrite list_lookup_alter_eq. destruct (vs !! v) as [[]|]; by simplify_eq/=.
Qed.

Lemma deletion_schedule_skeleton (g g' : adjacency_list VertexProperty EdgeProperty) :
  skeleton g = skeleton g' → deletion_schedule g = deletion_schedule g'.
Proof.
  intros Hsk. unfold deletion_schedule, vertices, in_edges.
  rewrite (skeleton_num_vertices g g' Hsk). f_equal.
  induction (seq 0 _) as [|v vs IH]; [done|].
  rewrite !filter_cons. destruct (skeleton_lookup g g' v Hsk) as [_ ->].
  case_decide; [|done]. rewrite !fmap_cons.
  by rewrite IH, (deletion_stack_skeleton v g g').
Qed.

(** Whether a registration returns or throws, and what it throws, is
    decided by the map and the structure of the graph. *)
Lemma register_component_outcome id p σ σ' :
  m_vertices_map σ' = m_vertices_map σ →
  (register_component id p σ').1 = (register_component id p σ).1.
Proof.
  intros Hmap. unfold register_component; unfold_M. rewrite Hmap.
  by destruct (m_vertices_map σ !! id).
Qed.

Lemma register_dependency_outcome src_id dst_id l σ σ' :
  skeleton (m_dependency_graph σ') = skeleton (m_dependency_graph σ) →
  m_vertices_map σ' = m_vertices_map σ →
  (register_dependency src_id dst_id l σ').1
  = (register_dependency src_id dst_id l σ).1.
Proof.
  intros Hsk Hmap. unfold register_dependency; unfold_M. rewrite Hmap.
  destruct (m_vertices_map σ !! src_id) as [src|]; [|done].
  destruct (m_vertices_map σ !! dst_id) as [dst|]; [|done].
  unfold edge. rewrite (skeleton_out_edges _ _ src Hsk).
  destruct (list_find _ _) as [[]|]; simpl; [done|].
  unfold detect_cycle.
  rewrite (breadth_first_search_ext (m_dependency_graph σ') (m_dependency_graph σ)
             _ (bfs_halting_visitor (λ v _, bool_decide (v = src))
                                    make_no_halting default_bfs_visitor));
    [|by apply skeleton_num_vertices|by intros; apply skeleton_out_edges|done..].
  by destruct (breadth_first_search _ _ _ _) as [[[]|[]] []].
Qed.
End structure_facts.

(** ** The manager, for any vertex bundle, label and [Deleter] *)

(** No path of edges leads from a vertex back to it. *)
Definition acyclic {G} `{!Graph G} (g : G) : Prop :=
  ∀ v, ¬ tc (edge_rel g) v v.

(** The calls that register. *)
Definition is_registration {ID VP EP} (c : call (ID:=ID) (VertexProperty:=VP)
                                               (EdgeProperty:=EP)) : bool :=
  match c with
  | Clear => false
  | _ => true
  end.

Section manager_claims.
Context {ID : Type} `{Countable ID}.
Context {VertexProperty EdgeProperty World : Type}.
Context `{!Inhabited VertexProperty, !Inhabited EdgeProperty}.
Variable Deleter : M (VertexProperty * World) unit.
Implicit Types π : process (ID:=ID) (VertexProperty:=VertexProperty)
                           (EdgeProperty:=EdgeProperty) (World:=World).
Implicit Types c : call (ID:=ID) (VertexProperty:=VertexProperty)
                        (EdgeProperty:=EdgeProperty).
Implicit Types cs : list (call (ID:=ID) (VertexProperty:=VertexProperty)
                               (EdgeProperty:=EdgeProperty)).

Lemma reachable_wf π : reachable Deleter π → manager_wf (manager π).
Proof.
  intros (cs & w & ->). apply run_calls_wf. apply empty_manager_wf.
Qed.

(** C1. In every state the calls of a client lead to, for registered
    identifiers [a] and [b], [register_dependency(a, b, label)] throws the
    would-cycle error exactly when the vertex of [b] reaches the vertex of
    [a] along the edges of the graph (in zero or more steps, as the search
    from [b] discovers [b] itself first). *)
Theorem cycle_rejection_exact π (a b : ID) (label : EdgeProperty) (va vb : Vertex) :
  reachable Deleter π →
  m_vertices_map (manager π) !! a = Some va →
  m_vertices_map (manager π) !! b = Some vb →
  (register_dependency a b label (manager π)).1 = Throw WouldCycle
  ↔ rtc (edge_rel (m_dependency_graph (manager π))) vb va.
Proof.
  intros Hwf%reachable_wf Ha Hb.
  rewrite (register_dependency_found _ _ _ _ va vb) by done.
  pose proof (wf_map _ Hwf _ _ Ha) as Hva.
  pose proof (wf_map _ Hwf _ _ Hb) as Hvb.
  destruct (edge _ _ _).2 eqn:Hedge.
  - apply edge_found in Hedge. split; [done|]. intros Hreach.
    destruct (wf_acyclic _ Hwf va). eapply tc_rtc_r; [by apply tc_once|done].
  - pose proof (detect_cycle_spec _ va vb Hwf Hva Hvb) as Hdetect.
    destruct (detect_cycle va vb (manager π)) as [[[]|e] σ1]; simpl.
    + by destruct Hdetect as [_ ?].
    + by destruct Hdetect as (_ & -> & ?).
Qed.

(** C2. Whatever sequence of calls a client makes from the empty manager,
    and however each call ends, the graph is acyclic afterwards; so it is
    after every prefix, that is between any two calls. *)
Theorem acyclicity_preserved cs (w : World) :
  acyclic (m_dependency_graph (manager (run_calls Deleter cs (initial w)))).
Proof.
  assert (reachable Deleter (run_calls Deleter cs (initial w))) as Hreach
    by by exists cs, w.
  intros v. apply (wf_acyclic _ (reachable_wf _ Hreach)).
Qed.

(** C5. A registration call that throws leaves the whole state as it was:
    the graph with its vertices, edges and labels, and the map. *)
Theorem failed_registration_leaves_state c π (e : exception) π' :
  is_registration c = true →
  run_call Deleter c π = (Throw e, π') →
  π' = π.
Proof.
  destruct π as [σ w cs]. destruct c as [id p|src_id dst_id l|]; [| |done]; intros _.
  - simpl. unfold on_manager, register_component; unfold_M. simpl.
    destruct (m_vertices_map σ !! id); [|done]. by intros; simplify_eq.
  - simpl. unfold on_manager. simpl.
    destruct (m_vertices_map σ !! src_id) as [src|] eqn:Hs; cycle 1.
    { unfold register_dependency; unfold_M. rewrite Hs. by intros; simplify_eq. }
    destruct (m_vertices_map σ !! dst_id) as [dst|] eqn:Hd; cycle 1.
    { unfold register_dependency; unfold_M. rewrite Hs, Hd. by intros; simplify_eq. }
    rewrite (register_dependency_found _ _ _ _ src dst) by done.
    destruct (edge _ _ _).2; [by intros; simplify_eq|].
    pose proof (detect_cycle_state σ src dst) as Hstate.
    destruct (detect_cycle src dst σ) as [[[]|e'] σ1]; [done|].
    simpl in Hstate. by intros; simplify_eq.
Qed.

(** C9. In every state the calls of a client lead to, registering the
    dependency of a registered identifier on itself throws the would-cycle
    error and leaves the manager as it was. *)
Theorem self_dependency_rejected π (a : ID) (label : EdgeProperty) (v : Vertex) :
  reachable Deleter π →
  m_vertices_map (manager π) !! a = Some v →
  register_dependency a a label (manager π) = (Throw WouldCycle, manager π).
Proof.
  intros Hwf%reachable_wf Ha.
  rewrite (register_dependency_found _ _ _ _ v v) by done.
  pose proof (wf_map _ Hwf _ _ Ha) as Hv.
  destruct (edge _ _ _).2 eqn:Hedge.
  - apply edge_found in Hedge. destruct (wf_acyclic _ Hwf v). by apply tc_once.
  - pose proof (detect_cycle_spec _ v v Hwf Hv Hv) as Hdetect.
    destruct (detect_cycle v v (manager π)) as [[[]|e] σ1].
    + by destruct Hdetect as [_ []].
    + by destruct Hdetect as (-> & -> & _).
Qed.

(** C7, as the code has it. The manager keeps no record of a sweep: after
    [clear()] has run (to its end or not), [register_component] and
    [register_dependency] return or throw exactly as they would have
    before it, and [clear()] called again runs the sweep over the same
    schedule again. *)
Theorem sweep_closes_nothing π :
  (∀ id p, (register_component id p (manager (clear Deleter π).2)).1
           = (register_component id p (manager π)).1) ∧
  (∀ src_id dst_id label,
      (register_dependency src_id dst_id label (manager (clear Deleter π).2)).1
      = (register_dependency src_id dst_id label (manager π)).1) ∧
  clear Deleter (clear Deleter π).2
  = for_each (call_Deleter Deleter)
             (deletion_schedule (m_dependency_graph (manager π)))
             (clear Deleter π).2.
Proof.
  destruct (clear_structure Deleter π) as [Hsk Hmap]. split_and!.
  - intros id p. by apply register_component_outcome.
  - intros src_id dst_id label. by apply register_dependency_outcome.
  - rewrite (clear_schedule _ (clear Deleter π).2).
    by rewrite (deletion_schedule_skeleton _ _ Hsk).
Qed.
End manager_claims.

(** ** The manager of [namespace singleton] *)

Section singleton_claims.
Import singleton.
Context {World : Type}.
Implicit Types (π : DepProcess World) (c : DependencyComponent World).

(** What of a record [clear()] never writes: the identifier and the
    clean-up action. *)
Definition identity c : N * M World unit := (id c, cleaner c).

Lemma vertex_bundle_put (g : adjacency_list (DependencyComponent World) unit) u v c :
  vertex_bundle v (put_vertex_bundle u c g)
  = if decide (v = u) then (λ _, c) <$> vertex_bundle v g else vertex_bundle v g.
Proof.
  unfold vertex_bundle, put_vertex_bundle. simpl. case_decide as Hv.
  - subst v. rewrite list_lookup_alter_eq. by destruct (m_vertices g !! u).
  - by rewrite list_lookup_alter_ne.
Qed.

Lemma call_DependencyCleaner_identity u π v :
  identity <$> vertex_bundle v
                 (m_dependency_graph (manager (call_Deleter DependencyCleaner u π).2))
  = identity <$> vertex_bundle v (m_dependency_graph (manager π)).
Proof.
  unfold call_Deleter.
  destruct (vertex_bundle u _) as [c|] eqn:Hu; [|done].
  unfold DependencyCleaner, DependencyComponent_clear.
  destruct (cleaner c (world π)) as [[[]|e] w']; simpl;
    rewrite vertex_bundle_put; case_decide; subst; by rewrite ?Hu.
Qed.

(** C10. The sweep, however it ends, leaves the map from identifiers to
    vertices and the structure of the graph (the vertices, and per vertex
    its out-edges with their labels and its in-edges) as they were; of a
    component record it keeps the identifier and the clean-up action, so
    that only the deleted-flag can differ. *)
Theorem sweep_frame π :
  m_vertices_map (manager (clear DependencyCleaner π).2) = m_vertices_map (manager π) ∧
  skeleton (m_dependency_graph (manager (clear DependencyCleaner π).2))
    = skeleton (m_dependency_graph (manager π)) ∧
  ∀ v, identity <$> vertex_bundle v
                      (m_dependency_graph (manager (clear DependencyCleaner π).2))
       = identity <$> vertex_bundle v (m_dependency_graph (manager π)).
Proof.
  destruct (clear_structure DependencyCleaner π) as [Hsk Hmap].
  split_and!; [done..|]. rewrite clear_schedule.
  apply (for_each_preserves
           (λ π', ∀ v, identity <$> vertex_bundle v (m_dependency_graph (manager π'))
                       = identity <$> vertex_bundle v (m_dependency_graph (manager π))));
    [|done].
  intros u π1 IH v. by rewrite call_DependencyCleaner_identity.
Qed.

(** C6, as the code has it. Nothing catches what a clean-up action throws:
    the exception leaves [clear()] at once. The records scheduled before
    the failing one were handed to the [Deleter] and its calls returned,
    the failing record is left as it was, no later record is attempted and
    the manager ends as the calls before left it; [clear()] returns only
    when every scheduled clean-up returned. *)
Theorem failing_cleanup_ends_sweep π :
  match clear DependencyCleaner π with
  | (Normal _, π') =>
      for_each (call_Deleter DependencyCleaner)
               (deletion_schedule (m_dependency_graph (manager π))) π
      = (Normal tt, π')
  | (Throw e, π') =>
      ∃ done v rest π1 c,
        deletion_schedule (m_dependency_graph (manager π)) = done ++ v :: rest ∧
        for_each (call_Deleter DependencyCleaner) done π = (Normal tt, π1) ∧
        vertex_bundle v (m_dependency_graph (manager π1)) = Some c ∧
        cleaner c (world π1) = (Throw e, world π') ∧
        manager π' = manager π1 ∧
        calls π' = calls π1 ++ [v]
  end.
Proof.
  rewrite clear_schedule.
  destruct (for_each _ _ π) as [[[]|e] π'] eqn:Hsweep; [done|].
  apply for_each_throw in Hsweep as (done & v & rest & π1 & Hsched & Hdone & Hv).
  unfold call_Deleter in Hv.
  destruct (vertex_bundle v _) as [c|] eqn:Hc; [|done].
  unfold DependencyCleaner, DependencyComponent_clear in Hv.
  destruct (cleaner c (world π1)) as [[[]|e'] w'] eqn:Hclean; [done|].
  simplify_eq. exists done, v, rest, π1, c. split_and!; try done.
  simpl. rewrite put_vertex_bundle_id by done. by destruct (manager π1).
Qed.
End singleton_claims.

(** ** Runs of the manager of [namespace singleton] *)

Section scenarios.
Import singleton.

(** Components whose clean-up action appends the identifier to a log, and
    components whose clean-up action throws. The log is the [World]. *)
Definition logging (i : N) : DependencyComponent (list N) :=
  DependencyComponent_new i (modify (λ log, log ++ [i])).
Definition failing (i : N) : DependencyComponent (list N) :=
  DependencyComponent_new i (throw (runtime_error "cleanup failed")).

Definition run (cs : list (DepCall (list N))) : DepProcess (list N) :=
  run_calls DependencyCleaner cs (initial []).

(** 10 is depended on by 11 and 12, and 12 by 11. *)
Definition triangle : list (DepCall (list N)) :=
  [RegisterComponent 10%N (logging 10); RegisterComponent 11%N (logging 11);
   RegisterComponent 12%N (logging 12);
   RegisterDependency 10%N 11%N tt; RegisterDependency 10%N 12%N tt;
   RegisterDependency 12%N 11%N tt].

(** 1 and 2 are both depended on by 3. *)
Definition two_roots : list (DepCall (list N)) :=
  [RegisterComponent 1%N (logging 1); RegisterComponent 2%N (logging 2);
   RegisterComponent 3%N (logging 3);
   RegisterDependency 1%N 3%N tt; RegisterDependency 2%N 3%N tt].

(** A component registered with a default-constructed record. *)
Definition default_record : list (DepCall (list N)) :=
  [RegisterComponent 7%N DependencyComponent_default].

(** 1 is depended on by 2, whose clean-up throws. *)
Definition failing_leaf : list (DepCall (list N)) :=
  [RegisterComponent 1%N (logging 1); RegisterComponent 2%N (failing 2);
   RegisterDependency 1%N 2%N tt].

(** The lifecycle states of the records, in the order of the vertices. *)
Definition states (π : DepProcess (list N)) : list lifecycle :=
  (λ sv, state (m_property sv)) <$> m_vertices (m_dependency_graph (manager π)).

(** The chain 1, 2, 3 of the spec's first scenario, for which the reverse
    discovery order is the order of the dependencies. *)
Example chain_teardown :
  world (clear DependencyCleaner
           (run [RegisterComponent 1%N (logging 1); RegisterComponent 2%N (logging 2);
                 RegisterComponent 3%N (logging 3);
                 RegisterDependency 1%N 2%N tt; RegisterDependency 2%N 3%N tt])).2
  = [3; 2; 1]%N.
Proof. by vm_compute. Qed.

(** The four ways a registration throws. *)
Example registration_errors :
  (run_call DependencyCleaner (RegisterComponent 11%N (logging 11)) (run triangle)).1
    = Throw AlreadyExists ∧
  (run_call DependencyCleaner (RegisterDependency 10%N 14%N tt) (run triangle)).1
    = Throw UnknownId ∧
  (run_call DependencyCleaner (RegisterDependency 10%N 12%N tt) (run triangle)).1
    = Throw DuplicateEdge ∧
  (run_call DependencyCleaner (RegisterDependency 11%N 10%N tt) (run triangle)).1
    = Throw WouldCycle.
Proof. by vm_compute. Qed.

(** C3 on [triangle]. All six registrations return, so the edge from 12
    (vertex 2) to 11 (vertex 1) is in the graph when the sweep starts and
    11 is to be cleaned before 12; the sweep returns having handed vertex 2
    to the [Deleter] first, then vertex 1, then vertex 0, so that the
    clean-up of 12 ran first, then that of 11, then that of 10. *)
Theorem teardown_against_an_edge :
  m_vertices_map (manager (run triangle)) !! 12%N = Some 2 ∧
  m_vertices_map (manager (run triangle)) !! 11%N = Some 1 ∧
  (edge 2 1 (m_dependency_graph (manager (run triangle)))).2 = true ∧
  (clear DependencyCleaner (run triangle)).1 = Normal tt ∧
  calls (clear DependencyCleaner (run triangle)).2 = [2; 1; 0] ∧
  world (clear DependencyCleaner (run triangle)).2 = [12; 11; 10]%N.
Proof. by vm_compute. Qed.

(** C4 on [two_roots]. The sweep returns having handed vertex 2 to the
    [Deleter] twice, once below each root, so that the clean-up of 3 ran
    twice, and every record is [Live] afterwards. *)
Theorem cleanup_repeated_and_state_unchanged :
  states (run two_roots) = [Live; Live; Live] ∧
  (clear DependencyCleaner (run two_roots)).1 = Normal tt ∧
  calls (clear DependencyCleaner (run two_roots)).2 = [2; 0; 2; 1] ∧
  world (clear DependencyCleaner (run two_roots)).2 = [3; 1; 3; 2]%N ∧
  states (clear DependencyCleaner (run two_roots)).2 = [Live; Live; Live].
Proof. by vm_compute. Qed.

(** C8 on [default_record]. [clear()] turns the default-constructed record
    from [CleanedUp] to [Live]; so the record is [CleanedUp] when registered
    and [Live] after the sweep. *)
Theorem sweep_revives_default_record :
  state (World:=list N) DependencyComponent_default = CleanedUp ∧
  state (DependencyComponent_clear (DependencyComponent_default, @nil N)).2.1 = Live ∧
  states (run default_record) = [CleanedUp] ∧
  (clear DependencyCleaner (run default_record)).1 = Normal tt ∧
  states (clear DependencyCleaner (run default_record)).2 = [Live].
Proof. by vm_compute. Qed.

(** Against C6, on [failing_leaf]: the sweep is left by the exception of
    the clean-up of 2 (vertex 1); the clean-up of 1 (vertex 0) is never
    attempted, the failing record stays [Live] and no list of failures is
    returned. *)
Lemma failing_cleanup_skips_the_rest :
  (clear DependencyCleaner (run failing_leaf)).1
    = Throw (runtime_error "cleanup failed") ∧
  calls (clear DependencyCleaner (run failing_leaf)).2 = [1] ∧
  world (clear DependencyCleaner (run failing_leaf)).2 = [] ∧
  states (clear DependencyCleaner (run failing_leaf)).2 = [Live; Live].
Proof. by vm_compute. Qed.

(** Against C7, on [triangle]: after a sweep that returned, registering a
    new component returns, registering a dependency on it returns, and a
    second sweep returns having run every clean-up again. *)
Lemma calls_after_sweep_are_served :
  (clear DependencyCleaner (run triangle)).1 = Normal tt ∧
  (run_call DependencyCleaner (RegisterComponent 13%N (logging 13))
            (clear DependencyCleaner (run triangle)).2).1 = Normal tt ∧
  (run_call DependencyCleaner (RegisterDependency 11%N 13%N tt)
            (run_call DependencyCleaner (RegisterComponent 13%N (logging 13))
                      (clear DependencyCleaner (run triangle)).2).2).1 = Normal tt ∧
  (clear DependencyCleaner (clear DependencyCleaner (run triangle)).2).1 = Normal tt ∧
  world (clear DependencyCleaner (clear DependencyCleaner (run triangle)).2).2
    = [12; 11; 10; 12; 11; 10]%N.
Proof. by vm_compute. Qed.
Lemma run_reachable cs : reachable DependencyCleaner (run cs).
Proof. by exists cs, []. Defined.

(** On [triangle], making 10 depend on 11, which depends on 10: vertex 0
    reaches vertex 1. *)
Lemma cycle_rejection_exact_witness :
  reachable DependencyCleaner (run triangle) ∧
  m_vertices_map (manager (run triangle)) !! 11%N = Some 1 ∧
  m_vertices_map (manager (run triangle)) !! 10%N = Some 0 ∧
  ((register_dependency 11%N 10%N tt (manager (run triangle))).1 = Throw WouldCycle
   ↔ rtc (edge_rel (m_dependency_graph (manager (run triangle)))) 0 1).
Proof.
  split_and!; [apply run_reachable|reflexivity|reflexivity|].
  apply (cycle_rejection_exact DependencyCleaner (run triangle) 11%N 10%N tt 1 0);
    [apply run_reachable|reflexivity|reflexivity].
Defined.

(** On [triangle], registering 10 a second time. *)
Lemma failed_registration_leaves_state_witness :
  run_call DependencyCleaner (RegisterComponent 10%N (logging 10)) (run triangle)
    = (Throw AlreadyExists,
       (run_call DependencyCleaner (RegisterComponent 10%N (logging 10))
                 (run triangle)).2) ∧
  (run_call DependencyCleaner (RegisterComponent 10%N (logging 10)) (run triangle)).2
    = run triangle.
Proof.
  split; [reflexivity|].
  apply (failed_registration_leaves_state DependencyCleaner
           (RegisterComponent 10%N (logging 10)) (run triangle) AlreadyExists);
    reflexivity.
Defined.

(** On [triangle], 12 depending on itself. *)
Lemma self_dependency_rejected_witness :
  reachable DependencyCleaner (run triangle) ∧
  m_vertices_map (manager (run triangle)) !! 12%N = Some 2 ∧
  register_dependency 12%N 12%N tt (manager (run triangle))
    = (Throw WouldCycle, manager (run triangle)).
Proof.
  split_and!; [apply run_reachable|reflexivity|].
  apply (self_dependency_rejected DependencyCleaner (run triangle) 12%N tt 2);
    [apply run_reachable|reflexivity].
Defined.
End scenarios.

(** * Further properties *)

(** ** More on the adjacency list *)

Section adjacency_list_more.
Context {VP EP : Type} `{!Inhabited VP, !Inhabited EP}.
Implicit Types g : adjacency_list VP EP.

Lemma in_edge_list_add_vertex p g v :
  in_edge_list v (add_vertex p g).2 = in_edge_list v g.
Proof.
  unfold in_edge_list, add_vertex. simpl.
  destruct (decide (v < length (m_vertices g))).
  - by rewrite lookup_app_l.
  - rewrite lookup_app_r by lia. rewrite (lookup_ge_None_2 (m_vertices g)) by lia.
    by destruct (v - _) as [|[|]].
Qed.

Lemma vertex_bundle_add_vertex p g v :
  vertex_bundle v (add_vertex p g).2
  = if decide (v = adj_num_vertices g) then Some p else vertex_bundle v g.
Proof.
  unfold vertex_bundle, add_vertex, adj_num_vertices. simpl. case_decide as Hv.
  - subst v. by rewrite lookup_app_r, Nat.sub_diag by lia.
  - destruct (decide (v < length (m_vertices g))).
    + by rewrite lookup_app_l.
    + rewrite lookup_app_r by lia. rewrite (lookup_ge_None_2 (m_vertices g)) by lia.
      destruct (v - _) as [|[|]] eqn:Hd; [lia|done..].
Qed.

Lemma skeleton_add_vertex p g :
  skeleton (add_vertex p g).2 = skeleton g ++ [([], [])].
Proof. unfold skeleton, add_vertex. simpl. by rewrite fmap_app. Qed.

Lemma in_edge_list_add_edge u v l g a :
  u < adj_num_vertices g → v < adj_num_vertices g →
  in_edge_list a (put_edge_bundle (add_edge u v g).1.1 l (add_edge u v g).2)
  = if decide (a = v) then in_edge_list v g ++ [u] else in_edge_list a g.
Proof.
  intros Hu Hv. unfold put_edge_bundle, add_edge, in_edge_list. simpl.
  rewrite decide_False by lia.
  destruct (lookup_lt_is_Some_2 (m_vertices g) u Hu) as [su Hsu].
  destruct (lookup_lt_is_Some_2 (m_vertices g) v Hv) as [sv Hsv].
  destruct (decide (a = u)) as [->|Hau].
  - rewrite list_lookup_alter_eq. case_decide as Huv.
    + subst v. by rewrite !list_lookup_alter_eq, Hsu.
    + by rewrite list_lookup_alter_ne, list_lookup_alter_eq, Hsu by done.
  - rewrite list_lookup_alter_ne by done. case_decide as Hav.
    + subst a. by rewrite list_lookup_alter_eq, list_lookup_alter_ne, Hsv by done.
    + by rewrite !list_lookup_alter_ne by done.
Qed.

Lemma vertex_bundle_add_edge u v l g a :
  u < adj_num_vertices g → v < adj_num_vertices g →
  vertex_bundle a (put_edge_bundle (add_edge u v g).1.1 l (add_edge u v g).2)
  = vertex_bundle a g.
Proof.
  intros Hu Hv. unfold put_edge_bundle, add_edge, vertex_bundle. simpl.
  rewrite decide_False by lia.
  rewrite !list_lookup_alter. repeat case_decide; subst;
    by destruct (m_vertices g !! _).
Qed.

(** The descriptor [add_edge] returns designates the new edge, and the label
    installed through it is the one read back. *)
Lemma edge_bundle_add_edge u v l g :
  u < adj_num_vertices g → v < adj_num_vertices g →
  edge_bundle (add_edge u v g).1.1
              (put_edge_bundle (add_edge u v g).1.1 l (add_edge u v g).2)
  = Some l.
Proof.
  intros Hu Hv. unfold edge_bundle.
  assert (m_source (add_edge u v g).1.1 = u) as -> by done.
  rewrite out_edge_list_add_edge, decide_True by done.
  assert (m_eproperty (add_edge u v g).1.1 = length (out_edge_list u g)) as ->.
  { unfold add_edge, out_edge_list. simpl. by rewrite decide_False by lia. }
  by rewrite lookup_app_r, Nat.sub_diag by lia.
Qed.
(** Looking up the edge just added finds it, at the descriptor [add_edge]
    returned, when [u] had no edge to [v] before. *)
Lemma edge_add_edge u v l g :
  u < adj_num_vertices g → v < adj_num_vertices g →
  v ∉ (out_edge_list u g).*1 →
  edge u v (put_edge_bundle (add_edge u v g).1.1 l (add_edge u v g).2)
  = ((add_edge u v g).1.1, true).
Proof.
  intros Hu Hv Hnew. unfold edge, adj_out_edges.
  rewrite out_edge_list_add_edge, decide_True by done.
  rewrite imap_app. simpl.
  rewrite list_find_app_r; cycle 1.
  { apply list_find_None, Forall_forall. intros e (i & [w l'] & -> & Hi)%elem_of_lookup_imap.
    simpl. intros <-. apply Hnew, list_elem_of_fmap. exists (w, l'). split; [done|].
    by eapply list_elem_of_lookup_2. }
  simpl. rewrite decide_True by done. simpl. rewrite Nat.add_0_r.
  unfold add_edge, out_edge_list. simpl. by rewrite decide_False by lia.
Qed.
End adjacency_list_more.

(** ** More on registration *)

Section registration_more.
Context {ID : Type} `{Countable ID}.
Context {VertexProperty EdgeProperty : Type}.
Context `{!Inhabited VertexProperty, !Inhabited EdgeProperty}.
Implicit Types σ : DependencyManager (ID:=ID) (VertexProperty:=VertexProperty)
                                     (EdgeProperty:=EdgeProperty).

Lemma register_component_fresh id p σ :
  m_vertices_map σ !! id = None →
  register_component id p σ
  = (Normal tt,
     mkManager (add_vertex p (m_dependency_graph σ)).2
               (<[id:=adj_num_vertices (m_dependency_graph σ)]> (m_vertices_map σ))).
Proof.
  intros Hid. unfold register_component, emplace; unfold_M. rewrite Hid.
  simpl. by rewrite Hid.
Qed.

Lemma register_component_known id p σ v :
  m_vertices_map σ !! id = Some v →
  register_component id p σ = (Throw AlreadyExists, σ).
Proof. intros Hid. unfold register_component; unfold_M. by rewrite Hid. Qed.

Lemma register_dependency_unknown src_id dst_id l σ :
  m_vertices_map σ !! src_id = None ∨ m_vertices_map σ !! dst_id = None →
  register_dependency src_id dst_id l σ = (Throw UnknownId, σ).
Proof.
  intros Hid. unfold register_dependency; unfold_M.
  destruct (m_vertices_map σ !! src_id) eqn:?, (m_vertices_map σ !! dst_id) eqn:?;
    try done; by destruct Hid.
Qed.

(** The state a returning [register_dependency] leaves. *)
Definition with_dependency (src dst : Vertex) (l : EdgeProperty) σ :=
  mkManager (put_edge_bundle (add_edge src dst (m_dependency_graph σ)).1.1 l
                             (add_edge src dst (m_dependency_graph σ)).2)
            (m_vertices_map σ).

(** Every way [register_dependency] ends, in a state registration
    maintains. *)
Lemma register_dependency_cases src_id dst_id l σ :
  manager_wf σ →
  (register_dependency src_id dst_id l σ = (Throw UnknownId, σ) ∧
   (m_vertices_map σ !! src_id = None ∨ m_vertices_map σ !! dst_id = None)) ∨
  ∃ src dst,
    m_vertices_map σ !! src_id = Some src ∧ m_vertices_map σ !! dst_id = Some dst ∧
    ((register_dependency src_id dst_id l σ = (Throw DuplicateEdge, σ) ∧
      edge_rel (m_dependency_graph σ) src dst) ∨
     (register_dependency src_id dst_id l σ = (Throw WouldCycle, σ) ∧
      ¬ edge_rel (m_dependency_graph σ) src dst ∧
      rtc (edge_rel (m_dependency_graph σ)) dst src) ∨
     (register_dependency src_id dst_id l σ = (Normal tt, with_dependency src dst l σ) ∧
      ¬ edge_rel (m_dependency_graph σ) src dst ∧
      ¬ rtc (edge_rel (m_dependency_graph σ)) dst src)).
Proof.
  intros Hwf.
  destruct (m_vertices_map σ !! src_id) as [src|] eqn:Hs; cycle 1.
  { left. split; [|by left]. apply register_dependency_unknown. by left. }
  destruct (m_vertices_map σ !! dst_id) as [dst|] eqn:Hd; cycle 1.
  { left. split; [|by right]. apply register_dependency_unknown. by right. }
  right. exists src, dst. split_and!; [done..|].
  rewrite (register_dependency_found _ _ _ _ src dst) by done.
  destruct (edge _ _ _).2 eqn:Hedge.
  { left. split; [done|]. by apply edge_found. }
  assert (¬ edge_rel (m_dependency_graph σ) src dst) as Hno.
  { intros Hyes%edge_found. congruence. }
  right.
  pose proof (detect_cycle_spec σ src dst Hwf (wf_map _ Hwf _ _ Hs) (wf_map _ Hwf _ _ Hd))
    as Hdetect.
  destruct (detect_cycle src dst σ) as [[[]|e] σ1].
  - destruct Hdetect as [-> ?]. by right.
  - destruct Hdetect as (-> & -> & ?). by left.
Qed.

(** What, beyond [manager_wf], the calls maintain: identifiers and vertices
    correspond one to one, no edge is doubled, and the in-edge lists mirror
    the out-edge lists. *)
Record manager_shape σ : Prop := {
  shape_inj : ∀ id1 id2 v,
    m_vertices_map σ !! id1 = Some v → m_vertices_map σ !! id2 = Some v → id1 = id2;
  shape_surj : ∀ v,
    v < adj_num_vertices (m_dependency_graph σ) → ∃ id, m_vertices_map σ !! id = Some v;
  shape_simple : ∀ u, NoDup (out_edge_list u (m_dependency_graph σ)).*1;
  shape_in_nodup : ∀ v, NoDup (in_edge_list v (m_dependency_graph σ));
  shape_in_out : ∀ u v,
    u ∈ in_edge_list v (m_dependency_graph σ)
    ↔ v ∈ (out_edge_list u (m_dependency_graph σ)).*1
}.

Lemma manager_shape_structure σ σ' :
  skeleton (m_dependency_graph σ') = skeleton (m_dependency_graph σ) →
  m_vertices_map σ' = m_vertices_map σ →
  manager_shape σ → manager_shape σ'.
Proof.
  intros Hsk Hmap [Hinj Hsurj Hsimple Hin Hio].
  pose proof (skeleton_num_vertices _ _ Hsk) as Hn.
  pose proof (λ u, proj1 (skeleton_lookup _ _ u Hsk)) as Hout.
  pose proof (λ u, proj2 (skeleton_lookup _ _ u Hsk)) as Hinl.
  split.
  - intros id1 id2 v. rewrite Hmap. apply Hinj.
  - intros v. rewrite Hmap, Hn. apply Hsurj.
  - intros u. rewrite Hout. apply Hsimple.
  - intros v. rewrite Hinl. apply Hin.
  - intros u v. rewrite Hinl, Hout. apply Hio.
Qed.

Lemma empty_manager_shape : manager_shape (empty_manager (ID:=ID)).
Proof.
  split; simpl; try done.
  - intros v Hv. unfold adj_num_vertices in Hv. simpl in Hv. lia.
  - intros u. apply NoDup_nil_2.
  - intros v. apply NoDup_nil_2.
  - intros u v. split; intros Hin; by apply elem_of_nil in Hin.
Qed.

Lemma register_component_shape id p σ :
  manager_wf σ → manager_shape σ → manager_shape (register_component id p σ).2.
Proof.
  intros Hwf [Hinj Hsurj Hsimple Hin Hio].
  destruct (m_vertices_map σ !! id) as [v0|] eqn:Hid.
  { by rewrite (register_component_known _ _ _ v0). }
  rewrite register_component_fresh by done. split; simpl.
  - intros id1 id2 v. rewrite !lookup_insert. repeat case_decide; subst.
    + done.
    + intros [= <-] Hv%(wf_map _ Hwf). lia.
    + intros Hv%(wf_map _ Hwf) [= <-]. lia.
    + apply Hinj.
  - intros v Hv. unfold add_vertex, adj_num_vertices in Hv. simpl in Hv.
    rewrite length_app in Hv. simpl in Hv.
    destruct (decide (v = adj_num_vertices (m_dependency_graph σ))) as [->|Hne].
    + exists id. by rewrite lookup_insert_eq.
    + destruct (Hsurj v) as [id' Hid']; [unfold adj_num_vertices in *; lia|].
      exists id'. rewrite lookup_insert_ne; [done|]. by intros ->; simplify_eq.
  - intros u. change (mkGraph _) with (add_vertex p (m_dependency_graph σ)).2.
    rewrite out_edge_list_add_vertex. apply Hsimple.
  - intros v. change (mkGraph _) with (add_vertex p (m_dependency_graph σ)).2.
    rewrite in_edge_list_add_vertex. apply Hin.
  - intros u v. change (mkGraph _) with (add_vertex p (m_dependency_graph σ)).2.
    rewrite in_edge_list_add_vertex, out_edge_list_add_vertex. apply Hio.
Qed.

Lemma register_dependency_shape src_id dst_id l σ :
  manager_wf σ → manager_shape σ →
  manager_shape (register_dependency src_id dst_id l σ).2.
Proof.
  intros Hwf Hshape.
  destruct (register_dependency_cases src_id dst_id l σ Hwf)
    as [[-> _]|(src & dst & Hs & Hd & [[-> _]|[[-> _]|(-> & Hno & _)]])]; try done.
  destruct Hshape as [Hinj Hsurj Hsimple Hin Hio].
  pose proof (wf_map _ Hwf _ _ Hs) as Hsrc. pose proof (wf_map _ Hwf _ _ Hd) as Hdst.
  assert (dst ∉ (out_edge_list src (m_dependency_graph σ)).*1) as Hno'
    by by rewrite <-adj_edge_rel.
  split; unfold with_dependency; cbn [snd m_dependency_graph m_vertices_map].
  - apply Hinj.
  - intros v. rewrite num_vertices_add_edge by done. apply Hsurj.
  - intros u. rewrite out_edge_list_add_edge by done. case_decide; [|done].
    rewrite fmap_app. apply NoDup_app. split_and!; [done| |apply NoDup_singleton].
    by intros x Hx ->%list_elem_of_singleton.
  - intros v. rewrite in_edge_list_add_edge by done. case_decide; [|done].
    apply NoDup_app. split_and!; [done| |apply NoDup_singleton].
    intros x Hx ->%list_elem_of_singleton. by apply Hio in Hx.
  - intros u v. specialize (Hio u v).
    rewrite in_edge_list_add_edge, out_edge_list_add_edge by done.
    repeat case_decide; subst; rewrite ?fmap_app, ?elem_of_app,
      ?list_elem_of_singleton; simpl; rewrite ?list_elem_of_singleton;
      intuition congruence.
Qed.
End registration_more.

(** ** More on the manager, for any vertex bundle, label and [Deleter] *)

(** Nothing registered is lost from [σ] to [σ']: identifiers keep their
    vertices, and every edge list is extended at its end. *)
Definition grows {ID} `{Countable ID} {VP EP}
    (σ σ' : DependencyManager (ID:=ID) (VertexProperty:=VP) (EdgeProperty:=EP))
    : Prop :=
  m_vertices_map σ ⊆ m_vertices_map σ' ∧
  adj_num_vertices (m_dependency_graph σ) ≤ adj_num_vertices (m_dependency_graph σ') ∧
  (∀ u, out_edge_list u (m_dependency_graph σ)
        `prefix_of` out_edge_list u (m_dependency_graph σ')) ∧
  (∀ v, in_edge_list v (m_dependency_graph σ)
        `prefix_of` in_edge_list v (m_dependency_graph σ')).

Section manager_more.
Context {ID : Type} `{Countable ID}.
Context {VertexProperty EdgeProperty World : Type}.
Context `{!Inhabited VertexProperty, !Inhabited EdgeProperty}.
Variable Deleter : M (VertexProperty * World) unit.
Implicit Types σ : DependencyManager (ID:=ID) (VertexProperty:=VertexProperty)
                                     (EdgeProperty:=EdgeProperty).
Implicit Types π : process (ID:=ID) (VertexProperty:=VertexProperty)
                           (EdgeProperty:=EdgeProperty) (World:=World).
Implicit Types c : call (ID:=ID) (VertexProperty:=VertexProperty)
                        (EdgeProperty:=EdgeProperty).
Implicit Types cs : list (call (ID:=ID) (VertexProperty:=VertexProperty)
                               (EdgeProperty:=EdgeProperty)).

Lemma run_call_shape c π :
  manager_wf (manager π) → manager_shape (manager π) →
  manager_shape (manager (run_call Deleter c π).2).
Proof.
  intros Hwf Hshape. destruct c as [id p|src_id dst_id l|]; simpl.
  - unfold on_manager. pose proof (register_component_shape id p _ Hwf Hshape).
    by destruct (register_component _ _ _).
  - unfold on_manager.
    pose proof (register_dependency_shape src_id dst_id l _ Hwf Hshape).
    by destruct (register_dependency _ _ _ _).
  - destruct (clear_structure Deleter π) as [Hsk Hmap].
    by eapply manager_shape_structure.
Qed.

Lemma run_calls_shape cs π :
  manager_wf (manager π) → manager_shape (manager π) →
  manager_shape (manager (run_calls Deleter cs π)).
Proof.
  revert π. induction cs as [|c cs IH]; intros π Hwf Hshape; [done|].
  simpl. apply IH; [by apply run_call_wf|by apply run_call_shape].
Qed.

Lemma reachable_shape π : reachable Deleter π → manager_shape (manager π).
Proof.
  intros (cs & w & ->).
  apply run_calls_shape; [apply empty_manager_wf|apply empty_manager_shape].
Qed.

Lemma reachable_run_calls cs π :
  reachable Deleter π → reachable Deleter (run_calls Deleter cs π).
Proof.
  intros (cs0 & w & ->). exists (cs0 ++ cs), w. unfold run_calls.
  by rewrite foldl_app.
Qed.

#[local] Instance grows_preorder : PreOrder (grows (ID:=ID) (VP:=VertexProperty)
                                                   (EP:=EdgeProperty)).
Proof.
  split.
  - intros σ. by split_and!.
  - intros σ1 σ2 σ3 (Hm1 & Hn1 & Ho1 & Hi1) (Hm2 & Hn2 & Ho2 & Hi2). split_and!.
    + by etrans.
    + lia.
    + intros u. etrans; [apply Ho1|apply Ho2].
    + intros v. etrans; [apply Hi1|apply Hi2].
Qed.

Lemma grows_structure σ σ' :
  skeleton (m_dependency_graph σ') = skeleton (m_dependency_graph σ) →
  m_vertices_map σ' = m_vertices_map σ →
  grows σ σ'.
Proof.
  intros Hsk Hmap. unfold grows.
  rewrite Hmap, (skeleton_num_vertices _ _ Hsk). split_and!; [done..| |].
  - intros u. by destruct (skeleton_lookup _ _ u Hsk) as [-> _].
  - intros u. by destruct (skeleton_lookup _ _ u Hsk) as [_ ->].
Qed.

Lemma run_call_grows c π :
  manager_wf (manager π) → grows (manager π) (manager (run_call Deleter c π).2).
Proof.
  intros Hwf. destruct c as [id p|src_id dst_id l|]; simpl.
  - unfold on_manager.
    destruct (m_vertices_map (manager π) !! id) as [v0|] eqn:Hid.
    { by rewrite (register_component_known _ _ _ v0). }
    rewrite register_component_fresh by done. simpl. split_and!; simpl.
    + by apply insert_subseteq.
    + unfold adj_num_vertices. simpl. rewrite length_app. lia.
    + intros u. change (mkGraph _) with (add_vertex p (m_dependency_graph (manager π))).2.
      by rewrite out_edge_list_add_vertex.
    + intros u. change (mkGraph _) with (add_vertex p (m_dependency_graph (manager π))).2.
      by rewrite in_edge_list_add_vertex.
  - unfold on_manager.
    destruct (register_dependency_cases src_id dst_id l _ Hwf)
      as [[-> _]|(src & dst & Hs & Hd & [[-> _]|[[-> _]|(-> & _ & _)]])]; try done.
    pose proof (wf_map _ Hwf _ _ Hs) as Hsrc. pose proof (wf_map _ Hwf _ _ Hd) as Hdst.
    unfold grows.
    cbn [snd manager m_dependency_graph m_vertices_map with_dependency].
    split_and!; [done|by rewrite num_vertices_add_edge| |].
    + intros u. rewrite out_edge_list_add_edge by done.
      case_decide; subst; [by apply prefix_app_r|done].
    + intros v. rewrite in_edge_list_add_edge by done.
      case_decide; subst; [by apply prefix_app_r|done].
  - destruct (clear_structure Deleter π) as [Hsk Hmap]. by apply grows_structure.
Qed.

(** X8. From a state the calls of a client lead to, no further calls lose
    anything registered: every identifier keeps its vertex, no vertex is
    removed, and the out-edges (with their labels) and in-edges of every
    vertex stay where they are, later ones being added after them. *)
Theorem registered_is_kept cs π :
  reachable Deleter π →
  grows (manager π) (manager (run_calls Deleter cs π)).
Proof.
  intros Hwf%reachable_wf. revert π Hwf.
  induction cs as [|c cs IH]; intros π Hwf; [done|].
  simpl. etrans; [by apply run_call_grows|]. by apply IH, run_call_wf.
Qed.
(** X1. In every state the calls of a client lead to, [register_dependency]
    ends in one of four ways, each with the state it leaves: the unknown-id
    error when an identifier is not registered; otherwise the duplicate-edge
    error when the edge is in the graph; otherwise the would-cycle error when
    the target reaches the source; otherwise it returns with the edge added.
    No other exception leaves it, the one that halts the search included. *)
Theorem register_dependency_outcomes π (src_id dst_id : ID) (l : EdgeProperty) :
  reachable Deleter π →
  (register_dependency src_id dst_id l (manager π) = (Throw UnknownId, manager π) ∧
   (m_vertices_map (manager π) !! src_id = None ∨
    m_vertices_map (manager π) !! dst_id = None)) ∨
  ∃ src dst,
    m_vertices_map (manager π) !! src_id = Some src ∧
    m_vertices_map (manager π) !! dst_id = Some dst ∧
    ((register_dependency src_id dst_id l (manager π)
        = (Throw DuplicateEdge, manager π) ∧
      edge_rel (m_dependency_graph (manager π)) src dst) ∨
     (register_dependency src_id dst_id l (manager π)
        = (Throw WouldCycle, manager π) ∧
      ¬ edge_rel (m_dependency_graph (manager π)) src dst ∧
      rtc (edge_rel (m_dependency_graph (manager π))) dst src) ∨
     (register_dependency src_id dst_id l (manager π)
        = (Normal tt, with_dependency src dst l (manager π)) ∧
      ¬ edge_rel (m_dependency_graph (manager π)) src dst ∧
      ¬ rtc (edge_rel (m_dependency_graph (manager π))) dst src)).
Proof. intros Hwf%reachable_wf. by apply register_dependency_cases. Qed.

(** X2. [register_component] on a registered identifier throws the
    already-registered error and leaves the manager; on a new identifier it
    returns, the identifier is mapped to a new vertex that holds the record
    given and has no edge, and the other identifiers, records and edges are
    as before. *)
Theorem register_component_registers (id : ID) (p : VertexProperty) σ :
  match m_vertices_map σ !! id with
  | Some _ => register_component id p σ = (Throw AlreadyExists, σ)
  | None =>
      ∃ σ', register_component id p σ = (Normal tt, σ') ∧
        m_vertices_map σ' !! id = Some (adj_num_vertices (m_dependency_graph σ)) ∧
        vertex_bundle (adj_num_vertices (m_dependency_graph σ)) (m_dependency_graph σ')
          = Some p ∧
        skeleton (m_dependency_graph σ') = skeleton (m_dependency_graph σ) ++ [([], [])] ∧
        (∀ id', id' ≠ id → m_vertices_map σ' !! id' = m_vertices_map σ !! id') ∧
        (∀ v, v ≠ adj_num_vertices (m_dependency_graph σ) →
              vertex_bundle v (m_dependency_graph σ')
              = vertex_bundle v (m_dependency_graph σ))
  end.
Proof.
  destruct (m_vertices_map σ !! id) as [v0|] eqn:Hid.
  { by eapply register_component_known. }
  eexists. split; [by apply register_component_fresh|]. simpl.
  change (mkGraph _) with (add_vertex p (m_dependency_graph σ)).2.
  split_and!.
  - by rewrite lookup_insert_eq.
  - by rewrite vertex_bundle_add_vertex, decide_True.
  - apply skeleton_add_vertex.
  - intros id' Hne. by rewrite lookup_insert_ne.
  - intros v Hv. by rewrite vertex_bundle_add_vertex, decide_False.
Qed.

(** X3. In every state the calls of a client lead to, when
    [register_dependency] returns, both identifiers were registered, looking
    the edge up finds it and reads the label given back, the edge was added
    at the end of the out-edges of the source and of the in-edges of the
    target, and the map, the records and every other edge list are as
    before. *)
Theorem register_dependency_installs π (src_id dst_id : ID) (l : EdgeProperty) σ' :
  reachable Deleter π →
  register_dependency src_id dst_id l (manager π) = (Normal tt, σ') →
  ∃ src dst,
    m_vertices_map (manager π) !! src_id = Some src ∧
    m_vertices_map (manager π) !! dst_id = Some dst ∧
    m_vertices_map σ' = m_vertices_map (manager π) ∧
    (edge src dst (m_dependency_graph σ')).2 = true ∧
    edge_bundle (edge src dst (m_dependency_graph σ')).1 (m_dependency_graph σ')
      = Some l ∧
    (∀ u, out_edge_list u (m_dependency_graph σ')
          = if decide (u = src)
            then out_edge_list src (m_dependency_graph (manager π)) ++ [(dst, l)]
            else out_edge_list u (m_dependency_graph (manager π))) ∧
    (∀ v, in_edge_list v (m_dependency_graph σ')
          = if decide (v = dst)
            then in_edge_list dst (m_dependency_graph (manager π)) ++ [src]
            else in_edge_list v (m_dependency_graph (manager π))) ∧
    (∀ v, vertex_bundle v (m_dependency_graph σ')
          = vertex_bundle v (m_dependency_graph (manager π))).
Proof.
  intros Hwf%reachable_wf Hret.
  destruct (register_dependency_cases src_id dst_id l _ Hwf)
    as [[Hcase _]|(src & dst & Hs & Hd & [[Hcase _]|[[Hcase _]|(Hcase & Hno & _)]])];
    rewrite Hcase in Hret; simplify_eq.
  pose proof (wf_map _ Hwf _ _ Hs) as Hsrc. pose proof (wf_map _ Hwf _ _ Hd) as Hdst.
  exists src, dst. unfold with_dependency. cbn [m_dependency_graph m_vertices_map].
  rewrite edge_add_edge by (by rewrite <-?adj_edge_rel).
  split_and!; try done.
  - by apply edge_bundle_add_edge.
  - intros u. by apply out_edge_list_add_edge.
  - intros v. by apply in_edge_list_add_edge.
  - intros v. by apply vertex_bundle_add_edge.
Qed.

(** X4. In every state the calls of a client lead to, once
    [register_dependency(a, b)] has returned, registering the same
    dependency again throws the duplicate-edge error and registering the
    opposite one throws the would-cycle error, each leaving the manager as
    the first call left it. *)
Theorem dependency_neither_repeated_nor_reversed
    π (a b : ID) (l l' : EdgeProperty) σ' :
  reachable Deleter π →
  register_dependency a b l (manager π) = (Normal tt, σ') →
  register_dependency a b l' σ' = (Throw DuplicateEdge, σ') ∧
  register_dependency b a l' σ' = (Throw WouldCycle, σ').
Proof.
  intros Hwf%reachable_wf Hret.
  pose proof (register_dependency_wf a b l _ Hwf) as Hwf'. rewrite Hret in Hwf'.
  destruct (register_dependency_cases a b l _ Hwf)
    as [[Hcase _]|(va & vb & Ha & Hb & [[Hcase _]|[[Hcase _]|(Hcase & Hno & Hnc)]])];
    rewrite Hcase in Hret; simplify_eq.
  pose proof (wf_map _ Hwf _ _ Ha) as Hva. pose proof (wf_map _ Hwf _ _ Hb) as Hvb.
  set (σ' := with_dependency va vb l (manager π)) in *.
  assert (∀ u v, edge_rel (m_dependency_graph σ') u v
                 ↔ edge_rel (m_dependency_graph (manager π)) u v ∨ (u = va ∧ v = vb))
    as Hedge.
  { intros u v. rewrite !adj_edge_rel. unfold σ', with_dependency.
    cbn [m_dependency_graph]. rewrite out_edge_list_add_edge by done.
    case_decide; subst; rewrite ?fmap_app, ?elem_of_app; simpl;
      rewrite ?list_elem_of_singleton; intuition congruence. }
  assert (edge_rel (m_dependency_graph σ') va vb) as Hnew by (apply Hedge; by right).
  split.
  - destruct (register_dependency_cases a b l' σ' Hwf')
      as [[_ [?|?]]|(va' & vb' & Ha' & Hb' & [[Hcase' _]|[(_ & ? & _)|(_ & ? & _)]])];
      simplify_eq/=; done.
  - destruct (register_dependency_cases b a l' σ' Hwf')
      as [[_ [?|?]]|(vb' & va' & Hb' & Ha'
                     & [[_ Hdup]|[(Hcase' & _ & _)|(_ & _ & Hnc')]])];
      simplify_eq/=; [|done|].
    + apply Hedge in Hdup as [Hdup|[-> _]].
      * destruct Hnc. by apply rtc_once.
      * by destruct Hnc.
    + destruct Hnc'. by apply rtc_once.
Qed.

(** X5. In every state the calls of a client lead to, the map is a one to
    one correspondence between the registered identifiers and the vertices
    of the graph. *)
Theorem identifiers_and_vertices_correspond π :
  reachable Deleter π →
  (∀ id1 id2 v,
      m_vertices_map (manager π) !! id1 = Some v →
      m_vertices_map (manager π) !! id2 = Some v → id1 = id2) ∧
  (∀ v, v < adj_num_vertices (m_dependency_graph (manager π))
        ↔ ∃ id, m_vertices_map (manager π) !! id = Some v).
Proof.
  intros Hreach. pose proof (reachable_wf _ _ Hreach) as Hwf.
  destruct (reachable_shape _ Hreach) as [Hinj Hsurj _ _ _].
  split; [done|]. intros v. split; [apply Hsurj|].
  intros [id Hid]. by eapply wf_map.
Qed.

(** X6. In every state the calls of a client lead to, no vertex has two
    out-edges to the same target, although the out-edge lists are vectors,
    which would hold them. *)
Theorem no_dependency_is_doubled π (u : Vertex) :
  reachable Deleter π →
  NoDup (target <$> out_edges u (m_dependency_graph (manager π))).
Proof.
  intros [_ _ Hsimple _ _]%reachable_shape. specialize (Hsimple u).
  simpl. unfold adj_out_edges. rewrite fmap_imap.
  by rewrite (imap_ext _ (const fst)), imap_const.
Qed.

(** X7. In every state the calls of a client lead to, the in-edge lists
    mirror the out-edge lists, so that [is_root_dependency] holds of exactly
    the vertices no edge leads to. *)
Theorem is_root_dependency_spec π (v : Vertex) :
  reachable Deleter π →
  (∀ u, u ∈ in_edges v (m_dependency_graph (manager π))
        ↔ edge_rel (m_dependency_graph (manager π)) u v) ∧
  (is_root_dependency v (manager π) = true
   ↔ ∀ u, ¬ edge_rel (m_dependency_graph (manager π)) u v).
Proof.
  intros [_ _ _ _ Hio]%reachable_shape.
  assert (∀ u, u ∈ in_edges v (m_dependency_graph (manager π))
               ↔ edge_rel (m_dependency_graph (manager π)) u v) as Hin.
  { intros u. rewrite adj_edge_rel. apply Hio. }
  split; [done|]. unfold is_root_dependency. rewrite bool_decide_eq_true. split.
  - intros Hnil u Hu%Hin.
    destruct (in_edges v _); [by apply elem_of_nil in Hu|done].
  - intros Hno. destruct (in_edges v _) as [|u us] eqn:Hl; [done|].
    destruct (Hno u). apply Hin. by left.
Qed.

Lemma run_call_keeps_records c π v :
  manager_wf (manager π) → is_registration c = true →
  v < adj_num_vertices (m_dependency_graph (manager π)) →
  vertex_bundle v (m_dependency_graph (manager (run_call Deleter c π).2))
  = vertex_bundle v (m_dependency_graph (manager π)).
Proof.
  intros Hwf Hc Hv. destruct c as [id p|src_id dst_id l|]; [| |done]; simpl.
  - unfold on_manager.
    destruct (m_vertices_map (manager π) !! id) as [v0|] eqn:Hid.
    { by rewrite (register_component_known _ _ _ v0). }
    rewrite register_component_fresh by done. simpl.
    change (mkGraph _) with (add_vertex p (m_dependency_graph (manager π))).2.
    rewrite vertex_bundle_add_vertex, decide_False; [done|lia].
  - unfold on_manager.
    destruct (register_dependency_cases src_id dst_id l _ Hwf)
      as [[-> _]|(src & dst & Hs & Hd & [[-> _]|[[-> _]|(-> & _ & _)]])]; try done.
    cbn [snd manager m_dependency_graph with_dependency].
    apply vertex_bundle_add_edge; by eapply wf_map.
Qed.

(** X9. From a state the calls of a client lead to, registrations never
    write the record of a vertex of the graph: after any sequence of
    [register_component] and [register_dependency] calls it is the record
    given when its component was registered. *)
Theorem registrations_keep_records cs π (v : Vertex) :
  reachable Deleter π →
  Forall (λ c, is_registration c = true) cs →
  v < adj_num_vertices (m_dependency_graph (manager π)) →
  vertex_bundle v (m_dependency_graph (manager (run_calls Deleter cs π)))
  = vertex_bundle v (m_dependency_graph (manager π)).
Proof.
  intros Hwf%reachable_wf Hcs. revert π Hwf.
  induction Hcs as [|c cs Hc Hcs IH]; intros π Hwf Hv; [done|].
  simpl. rewrite IH; [by apply run_call_keeps_records|by apply run_call_wf|].
  destruct (run_call_grows c π Hwf) as (_ & Hn & _). lia.
Qed.
End manager_more.

(** ** Searches whose visitor halts on a predicate or records what it
       discovers *)

(** The vertex has been discovered: it is in the colour map and not white. *)
Definition discovered (cs : list default_color_type) (v : Vertex) : Prop :=
  ∃ c, cs !! v = Some c ∧ c ≠ white_color.

Lemma discovered_insert cs v c w :
  c ≠ white_color → discovered cs w → discovered (<[v:=c]> cs) w.
Proof.
  intros Hc (c' & Hw & Hc'). destruct (decide (w = v)) as [->|Hne].
  - exists c. split; [|done]. apply list_lookup_insert_eq. by eapply lookup_lt_Some.
  - exists c'. by rewrite list_lookup_insert_ne.
Qed.

Lemma discovered_insert_eq cs v c :
  v < length cs → c ≠ white_color → discovered (<[v:=c]> cs) v.
Proof. intros Hv Hc. exists c. by rewrite list_lookup_insert_eq. Qed.

Lemma discovered_insert_inv cs v c w :
  discovered (<[v:=c]> cs) w → w = v ∨ discovered cs w.
Proof.
  intros (c' & Hw & Hc'). destruct (decide (w = v)) as [->|Hne]; [by left|].
  right. exists c'. by rewrite list_lookup_insert_ne in Hw.
Qed.

Section search_facts.
Context {G Vis : Type} `{!Graph G}.
Variable (g : G) (V : BFSVisitor G Vis) (s : Vertex).

(** What makes each event of the visitor throw. *)
Variable (halt_v : Vertex → bool) (halt_e : Edge → bool).
Hypothesis discover_ends : ∀ v vs,
  (discover_vertex V v g vs).1
  = if halt_v v then Throw breaking_condition_exception else Normal tt.
Hypothesis examine_ends : ∀ e vs,
  (examine_edge V e g vs).1
  = if halt_e e then Throw breaking_condition_exception else Normal tt.
Hypothesis targets_valid : ∀ u v, edge_rel g u v → v < num_vertices g.
Hypothesis s_valid : s < num_vertices g.

(** A vertex [s] reaches, or an out-edge of one, makes the visitor throw. *)
Definition halting : Prop :=
  (∃ v, rtc (edge_rel g) s v ∧ halt_v v = true) ∨
  (∃ u e, rtc (edge_rel g) s u ∧ e ∈ out_edges u g ∧ halt_e e = true).

Record search_inv (cur : option Vertex) (σ : bfs_state Vis) : Prop := {
  si_len : length (color σ) = num_vertices g;
  si_queue : ∀ v, v ∈ Q σ → discovered (color σ) v;
  si_gray : ∀ v, color σ !! v = Some gray_color → v ∈ Q σ ∨ cur = Some v;
  si_cur : ∀ u, cur = Some u → discovered (color σ) u;
  si_black : ∀ u v,
    color σ !! u = Some black_color → edge_rel g u v → discovered (color σ) v;
  si_black_e : ∀ u e,
    color σ !! u = Some black_color → e ∈ out_edges u g → halt_e e = false;
  si_start : discovered (color σ) s;
  si_halt : ∀ v, discovered (color σ) v → halt_v v = false;
  si_reach : ∀ v, discovered (color σ) v → rtc (edge_rel g) s v
}.

Lemma edge_rel_out_edges u e : e ∈ out_edges u g → edge_rel g u (target e).
Proof. intros He. apply list_elem_of_fmap. eauto. Qed.

Lemma bfs_edge_search u e σ :
  search_inv (Some u) σ → e ∈ out_edges u g →
  match bfs_edge g V e σ with
  | (Normal _, σ') =>
      search_inv (Some u) σ' ∧ discovered (color σ') (target e) ∧
      halt_e e = false ∧ Q σ `prefix_of` Q σ' ∧
      (∀ v, discovered (color σ) v → discovered (color σ') v)
  | (Throw ex, _) => ex = breaking_condition_exception ∧ halting
  end.
Proof.
  intros Hinv He. pose proof (edge_rel_out_edges u e He) as Hedge.
  pose proof (si_reach _ _ Hinv u (si_cur _ _ Hinv u eq_refl)) as Hsu.
  unfold bfs_edge, on_vis, get_color, put_color, Q_push; unfold_M.
  pose proof (examine_ends e (vis σ)) as Hex.
  destruct (examine_edge V e g (vis σ)) as [r1 s1]. simpl in *. subst r1.
  destruct (halt_e e) eqn:Hhe.
  { split; [done|]. right. by exists u, e. }
  simpl.
  assert (target e < length (color σ)) as Hlt.
  { rewrite (si_len _ _ Hinv). eauto. }
  destruct (lookup_lt_is_Some_2 _ _ Hlt) as [c Hc]. rewrite Hc. simpl.
  destruct c; simpl;
    [|split_and!; [by destruct Hinv|by eexists|done..]
     |split_and!; [by destruct Hinv|by eexists|done..]].
  pose proof (discover_ends (target e) s1) as Hdi.
  destruct (discover_vertex V (target e) g s1) as [r2 s2]. simpl in *. subst r2.
  assert (rtc (edge_rel g) s (target e)) as Hst by (by eapply rtc_r).
  destruct (halt_v (target e)) eqn:Hhv.
  { split; [done|]. left. by exists (target e). }
  simpl.
  assert (∀ v, discovered (color σ) v →
               discovered (<[target e:=gray_color]> (color σ)) v) as Hmono
    by (intros v; by apply discovered_insert).
  assert (discovered (<[target e:=gray_color]> (color σ)) (target e)) as Hnew
    by by apply discovered_insert_eq.
  split_and!; [split; simpl|done|done|by apply prefix_app_r|done].
  - rewrite length_insert. apply (si_len _ _ Hinv).
  - intros v [Hv| ->%list_elem_of_singleton]%elem_of_app; [|done].
    by apply Hmono, (si_queue _ _ Hinv).
  - intros v Hv. destruct (decide (v = target e)) as [->|Hne].
    + left. apply elem_of_app. right. by apply list_elem_of_singleton.
    + rewrite list_lookup_insert_ne in Hv by done.
      destruct (si_gray _ _ Hinv v Hv); [left|by right].
      apply elem_of_app. by left.
  - intros u' [= <-]. by apply Hmono, (si_cur _ _ Hinv).
  - intros u' v Hu' Hv. destruct (decide (u' = target e)) as [->|Hne].
    + by rewrite list_lookup_insert_eq in Hu'.
    + rewrite list_lookup_insert_ne in Hu' by done.
      by eapply Hmono, (si_black _ _ Hinv).
  - intros u' e' Hu' He'. destruct (decide (u' = target e)) as [->|Hne].
    + by rewrite list_lookup_insert_eq in Hu'.
    + rewrite list_lookup_insert_ne in Hu' by done. by eapply (si_black_e _ _ Hinv).
  - apply Hmono, (si_start _ _ Hinv).
  - intros v [->|Hv]%discovered_insert_inv; [done|]. by apply (si_halt _ _ Hinv).
  - intros v [->|Hv]%discovered_insert_inv; [done|]. by apply (si_reach _ _ Hinv).
Qed.

Lemma for_each_bfs_edge_search u es σ :
  search_inv (Some u) σ → (∀ e, e ∈ es → e ∈ out_edges u g) →
  match for_each (bfs_edge g V) es σ with
  | (Normal _, σ') =>
      search_inv (Some u) σ' ∧
      (∀ e, e ∈ es → discovered (color σ') (target e) ∧ halt_e e = false) ∧
      Q σ `prefix_of` Q σ' ∧
      (∀ v, discovered (color σ) v → discovered (color σ') v)
  | (Throw ex, _) => ex = breaking_condition_exception ∧ halting
  end.
Proof.
  revert σ. induction es as [|e es IH]; intros σ Hinv Hes; simpl.
  - unfold_M. split_and!; [done| |done..]. by intros e ?%elem_of_nil.
  - pose proof (bfs_edge_search u e σ Hinv (Hes e ltac:(left))) as He.
    unfold_M. destruct (bfs_edge _ _ e σ) as [[[]|ex] σ1]; [|done].
    destruct He as (Hinv1 & He1 & Hhe & Hq1 & Hmono1).
    specialize (IH σ1 Hinv1 (λ e' He', Hes e' ltac:(by right))).
    destruct (for_each _ es σ1) as [[[]|ex] σ2]; [|done].
    destruct IH as (Hinv2 & Hes2 & Hq2 & Hmono2).
    split_and!; [done| |by etrans|by auto].
    intros e' [->|He']%elem_of_cons; auto.
Qed.

Lemma search_inv_pop σ u q :
  search_inv None σ → Q σ = u :: q →
  search_inv (Some u) (mkBfs (color σ) q (vis σ)).
Proof.
  intros [Hlen Hq Hgray _ Hblack Hblacke Hs Hhalt Hreach] HQ.
  rewrite HQ in Hq, Hgray. split; simpl; try done.
  - intros v Hv. apply Hq. by right.
  - intros v [[->|Hv]%elem_of_cons|[=]]%Hgray; [by right|by left].
  - intros u' [= <-]. apply Hq. by left.
Qed.

Lemma search_inv_finish σ u :
  search_inv (Some u) σ →
  (∀ e, e ∈ out_edges u g → discovered (color σ) (target e) ∧ halt_e e = false) →
  search_inv None (mkBfs (<[u:=black_color]> (color σ)) (Q σ) (vis σ)).
Proof.
  intros [Hlen Hq Hgray Hcur Hblack Hblacke Hs Hhalt Hreach] Hout.
  pose proof (Hcur u eq_refl) as Hu.
  assert (∀ v, discovered (color σ) v → discovered (<[u:=black_color]> (color σ)) v)
    as Hmono by (intros v; by apply discovered_insert).
  assert (∀ v, discovered (<[u:=black_color]> (color σ)) v → discovered (color σ) v)
    as Hback by (by intros v [->|?]%discovered_insert_inv).
  split; simpl; try done.
  - by rewrite length_insert.
  - intros v Hv. by apply Hmono, Hq.
  - intros v Hv. destruct (decide (v = u)) as [->|Hne].
    + apply list_lookup_insert_Some in Hv. by destruct Hv as [(_ & [=] & _)|[? _]].
    + rewrite list_lookup_insert_ne in Hv by done.
      destruct (Hgray v Hv) as [|[=]]; [by left|done].
  - intros u' v Hu' Hedge. apply Hmono. destruct (decide (u' = u)) as [->|Hne].
    + apply list_elem_of_fmap in Hedge as (e & -> & He). by apply Hout.
    + rewrite list_lookup_insert_ne in Hu' by done. by eapply Hblack.
  - intros u' e Hu' He. destruct (decide (u' = u)) as [->|Hne].
    + by apply Hout.
    + rewrite list_lookup_insert_ne in Hu' by done. by eapply Hblacke.
  - by apply Hmono.
  - intros v Hv%Hback. by apply Hhalt.
  - intros v Hv%Hback. by apply Hreach.
Qed.

Lemma bfs_loop_search σ :
  search_inv None σ →
  match bfs_loop g V σ with
  | (Normal _, σ') => search_inv None σ' ∧ Q σ' = []
  | (Throw ex, _) => ex = breaking_condition_exception ∧ halting
  end.
Proof.
  intros Hinv.
  pose proof (bfs_loop_rule g V (search_inv None)
    (λ r σ', match r with
             | Normal _ => search_inv None σ' ∧ Q σ' = []
             | Throw ex => ex = breaking_condition_exception ∧ halting
             end)) as Hrule.
  destruct (bfs_loop _ _ σ) as [r σ'] eqn:Hloop.
  assert (r = (bfs_loop g V σ).1) as -> by by rewrite Hloop.
  assert (σ' = (bfs_loop g V σ).2) as -> by by rewrite Hloop.
  apply Hrule; [done| | |done]; clear dependent σ.
  - intros σ u q σ' Hinv HQ Hscan.
    pose proof (for_each_bfs_edge_search u (out_edges u g) _
                  (search_inv_pop _ _ _ Hinv HQ) (λ _ He, He)) as Hfor.
    rewrite Hscan in Hfor. destruct Hfor as (Hinv' & Hout & _).
    by apply search_inv_finish.
  - intros σ u q ex σ' Hinv HQ Hscan.
    pose proof (for_each_bfs_edge_search u (out_edges u g) _
                  (search_inv_pop _ _ _ Hinv HQ) (λ _ He, He)) as Hfor.
    by rewrite Hscan in Hfor.
Qed.

(** When the loop has emptied the queue, the black vertices are the vertices
    [s] reaches. *)
Lemma search_inv_closed σ v :
  search_inv None σ → Q σ = [] →
  rtc (edge_rel g) s v ↔ color σ !! v = Some black_color.
Proof.
  intros [Hlen Hq Hgray _ Hblack _ Hs _ Hreach] HQ.
  assert (∀ w, discovered (color σ) w → color σ !! w = Some black_color) as Hfin.
  { intros w ([] & Hc & Hnw); [done| |done].
    destruct (Hgray w Hc) as [Hin|[=]]. rewrite HQ in Hin. by apply elem_of_nil in Hin. }
  split.
  - revert v. apply (rtc_ind_r (λ v, color σ !! v = Some black_color)).
    + by apply Hfin.
    + intros u v _ Huv IH. by eapply Hfin, Hblack.
  - intros Hv. apply Hreach. by exists black_color.
Qed.

Lemma search_inv_init vs :
  halt_v s = false →
  search_inv None (mkBfs (<[s:=gray_color]> (replicate (num_vertices g) white_color))
                         [s] vs).
Proof.
  intros Hs.
  assert (∀ v, discovered (<[s:=gray_color]> (replicate (num_vertices g) white_color)) v
               → v = s) as Honly.
  { intros v [->|(c & Hc & Hnw)]%discovered_insert_inv; [done|].
    by apply lookup_replicate in Hc as [-> _]. }
  assert (discovered (<[s:=gray_color]> (replicate (num_vertices g) white_color)) s)
    as Hdisc by (apply discovered_insert_eq; [by rewrite length_replicate|done]).
  split; simpl.
  - by rewrite length_insert, length_replicate.
  - by intros v ->%list_elem_of_singleton.
  - intros v Hv. left. apply list_elem_of_singleton, Honly. by exists gray_color.
  - done.
  - intros u v Hu. assert (u = s) as -> by (apply Honly; by exists black_color).
    rewrite list_lookup_insert_eq in Hu; [done|by rewrite length_replicate].
  - intros u e Hu. assert (u = s) as -> by (apply Honly; by exists black_color).
    rewrite list_lookup_insert_eq in Hu; [done|by rewrite length_replicate].
  - done.
  - by intros v ->%Honly.
  - by intros v ->%Honly.
Qed.

(** The search from [s] is left by [breaking_condition_exception] when a
    vertex [s] reaches or an out-edge of one makes the visitor throw, and
    returns when none does. *)
Lemma breadth_first_search_halting vs :
  match breadth_first_search g V s vs with
  | (Normal _, _) =>
      (∀ v, rtc (edge_rel g) s v → halt_v v = false) ∧
      (∀ u e, rtc (edge_rel g) s u → e ∈ out_edges u g → halt_e e = false)
  | (Throw ex, _) => ex = breaking_condition_exception ∧ halting
  end.
Proof.
  unfold breadth_first_search, breadth_first_visit, on_vis, put_color, Q_push;
    unfold_M. simpl.
  pose proof (discover_ends s vs) as Hdi.
  destruct (discover_vertex V s g vs) as [r1 s1]. simpl in *. subst r1.
  destruct (halt_v s) eqn:Hs.
  { split; [done|]. left. by exists s. }
  pose proof (bfs_loop_search _ (search_inv_init s1 Hs)) as Hloop.
  destruct (bfs_loop _ _ _) as [[[]|ex] σ']; [|done].
  destruct Hloop as [Hinv HQ]. split.
  - intros v Hv%(search_inv_closed _ _ Hinv HQ).
    apply (si_halt _ _ Hinv). by exists black_color.
  - intros u e Hu%(search_inv_closed _ _ Hinv HQ). by apply (si_black_e _ _ Hinv).
Qed.
End search_facts.

(** X10. A search whose visitor is a [bfs_halting_visitor] over a base
    visitor that never throws is left by [breaking_condition_exception] when
    the vertex predicate holds of a vertex the start reaches or the edge
    predicate holds of an out-edge of such a vertex, and returns when
    neither does. *)
Theorem bfs_halting_visitor_spec {G Vis} `{!Graph G} (g : G)
    (vpred : Vertex → G → bool) (epred : Edge → G → bool)
    (base : BFSVisitor G Vis) (s : Vertex) (vs : Vis) :
  (∀ v vs, (discover_vertex base v g vs).1 = Normal tt) →
  (∀ e vs, (examine_edge base e g vs).1 = Normal tt) →
  (∀ u v, edge_rel g u v → v < num_vertices g) →
  s < num_vertices g →
  match breadth_first_search g (bfs_halting_visitor vpred epred base) s vs with
  | (Normal _, _) =>
      (∀ v, rtc (edge_rel g) s v → vpred v g = false) ∧
      (∀ u e, rtc (edge_rel g) s u → e ∈ out_edges u g → epred e g = false)
  | (Throw ex, _) =>
      ex = breaking_condition_exception ∧
      ((∃ v, rtc (edge_rel g) s v ∧ vpred v g = true) ∨
       (∃ u e, rtc (edge_rel g) s u ∧ e ∈ out_edges u g ∧ epred e g = true))
  end.
Proof.
  intros Hdiscover Hexamine Htargets Hs.
  apply (breadth_first_search_halting g (bfs_halting_visitor vpred epred base) s
           (λ v, vpred v g) (λ e, epred e g)); [| |done..].
  - intros v vs'. unfold bfs_halting_visitor; unfold_M. simpl.
    specialize (Hdiscover v vs').
    destruct (discover_vertex base v g vs') as [[[]|ex] s1]; [|done].
    by destruct (vpred v g).
  - intros e vs'. unfold bfs_halting_visitor; unfold_M. simpl.
    specialize (Hexamine e vs').
    destruct (examine_edge base e g vs') as [[[]|ex] s1]; [|done].
    by destruct (epred e g).
Qed.

Section stack_facts.
Context {G : Type} `{!Graph G}.
Variable (g : G) (s : Vertex).
Hypothesis targets_valid : ∀ u v, edge_rel g u v → v < num_vertices g.
Hypothesis s_valid : s < num_vertices g.

Abbreviation never := (λ _, false).

Lemma bfs_edge_stack e (σ : bfs_state (list Vertex)) :
  bfs_edge g DeletionStackBfsVisitor e σ =
  match color σ !! target e with
  | Some white_color =>
      (Normal tt, mkBfs (<[target e:=gray_color]> (color σ)) (Q σ ++ [target e])
                        (vis σ ++ [target e]))
  | _ => (Normal tt, σ)
  end.
Proof.
  destruct σ as [cs q st].
  unfold bfs_edge, DeletionStackBfsVisitor, on_vis, get_color, put_color, Q_push;
    unfold_M; simpl.
  by destruct (cs !! target e) as [[]|].
Qed.

(** What the vector of the visitor holds while the search runs: the
    discovered vertices, each once, [s] first, and every other one after a
    vertex with an edge to it. *)
Record stack_inv (σ : bfs_state (list Vertex)) : Prop := {
  st_nodup : NoDup (vis σ);
  st_elem : ∀ v, v ∈ vis σ ↔ discovered (color σ) v;
  st_head : head (vis σ) = Some s;
  st_parent : ∀ i v,
    vis σ !! i = Some v → v ≠ s →
    ∃ j u, j < i ∧ vis σ !! j = Some u ∧ edge_rel g u v
}.

Lemma bfs_edge_stack_inv u e σ :
  stack_inv σ → discovered (color σ) u → edge_rel g u (target e) →
  stack_inv (bfs_edge g DeletionStackBfsVisitor e σ).2.
Proof.
  intros [Hnodup Helem Hhead Hparent] Hu Hedge. rewrite bfs_edge_stack.
  destruct (color σ !! target e) as [c|] eqn:Hc; [|done].
  destruct c; [|done..]. simpl.
  assert (target e ∉ vis σ) as Hnew.
  { intros (c & Hc' & Hnw)%Helem. congruence. }
  assert (target e < length (color σ)) as Hlt by by eapply lookup_lt_Some.
  split; simpl.
  - apply NoDup_app. split_and!; [done| |apply NoDup_singleton].
    by intros v Hv ->%list_elem_of_singleton.
  - intros v. rewrite elem_of_app, list_elem_of_singleton, Helem. split.
    + intros [Hv| ->]; [by apply discovered_insert|by apply discovered_insert_eq].
    + intros [->|Hv]%discovered_insert_inv; [by right|by left].
  - by destruct (vis σ).
  - intros i v Hi Hv. apply lookup_app_Some in Hi as [Hi|[Hlen Hi]].
    + destruct (Hparent i v Hi Hv) as (j & w & Hj & Hw & Hwv).
      exists j, w. split_and!; [done| |done]. by apply lookup_app_l_Some.
    + apply list_lookup_singleton_Some in Hi as [Hi <-].
      apply Helem, list_elem_of_lookup in Hu as [j Hj].
      exists j, u. split_and!; [|by apply lookup_app_l_Some|done].
      apply lookup_lt_Some in Hj. lia.
Qed.

Lemma for_each_bfs_edge_stack_inv u es σ :
  stack_inv σ → discovered (color σ) u → (∀ e, e ∈ es → e ∈ out_edges u g) →
  stack_inv (for_each (bfs_edge g DeletionStackBfsVisitor) es σ).2.
Proof.
  revert σ. induction es as [|e es IH]; intros σ Hinv Hu Hes; [done|].
  simpl. unfold_M.
  pose proof (bfs_edge_stack_inv u e σ Hinv Hu
                (edge_rel_out_edges g u e (Hes e ltac:(left)))) as Hinv1.
  assert (discovered (color (bfs_edge g DeletionStackBfsVisitor e σ).2) u) as Hu1.
  { apply (st_elem _ Hinv1). rewrite bfs_edge_stack.
    apply (st_elem _ Hinv) in Hu.
    destruct (color σ !! target e) as [[]|]; simpl; [|done..].
    apply elem_of_app. by left. }
  destruct (bfs_edge _ _ e σ) as [[[]|ex] σ1]; [|done].
  apply IH; [done..|]. intros e' He'. apply Hes. by right.
Qed.

Lemma stack_inv_finish u σ :
  stack_inv σ → discovered (color σ) u →
  stack_inv (mkBfs (<[u:=black_color]> (color σ)) (Q σ) (vis σ)).
Proof.
  intros [Hnodup Helem Hhead Hparent] Hu. split; simpl; try done.
  intros v. rewrite Helem. split; [by apply discovered_insert|].
  by intros [->|?]%discovered_insert_inv.
Qed.

Lemma bfs_loop_stack σ :
  search_inv g s never never None σ → stack_inv σ →
  ∃ σ', bfs_loop g DeletionStackBfsVisitor σ = (Normal tt, σ') ∧
        search_inv g s never never None σ' ∧ Q σ' = [] ∧ stack_inv σ'.
Proof.
  intros Hsearch Hstack.
  assert (∀ v vs, (discover_vertex (G:=G) DeletionStackBfsVisitor v g vs).1
                  = if never v then Throw breaking_condition_exception else Normal tt)
    as Hdiscover by done.
  assert (∀ e vs, (examine_edge (G:=G) DeletionStackBfsVisitor e g vs).1
                  = if never e then Throw breaking_condition_exception else Normal tt)
    as Hexamine by done.
  pose proof (bfs_loop_rule g DeletionStackBfsVisitor
    (λ σ, search_inv g s never never None σ ∧ stack_inv σ)
    (λ r σ', r = Normal tt ∧ search_inv g s never never None σ' ∧ Q σ' = []
             ∧ stack_inv σ')) as Hrule.
  destruct (bfs_loop _ _ σ) as [r σ'] eqn:Hloop.
  assert (r = (bfs_loop g DeletionStackBfsVisitor σ).1) as Hr by by rewrite Hloop.
  assert (σ' = (bfs_loop g DeletionStackBfsVisitor σ).2) as Hσ' by by rewrite Hloop.
  exists σ'. rewrite Hr, Hσ'.
  cut ((bfs_loop g DeletionStackBfsVisitor σ).1 = Normal tt ∧
       search_inv g s never never None (bfs_loop g DeletionStackBfsVisitor σ).2 ∧
       Q (bfs_loop g DeletionStackBfsVisitor σ).2 = [] ∧
       stack_inv (bfs_loop g DeletionStackBfsVisitor σ).2).
  { intros (-> & ? & ? & ?). by destruct (bfs_loop _ _ _) as [? ?]; simplify_eq/=. }
  apply Hrule; [by intros ? []| | |done]; clear dependent σ r σ'.
  - intros σ u q σ' [Hsearch Hstack] HQ Hscan.
    pose proof (for_each_bfs_edge_search g DeletionStackBfsVisitor s never never
                  Hdiscover Hexamine targets_valid u (out_edges u g) _
                  (search_inv_pop g s never never _ _ _ Hsearch HQ) (λ _ He, He))
      as Hfor.
    pose proof (for_each_bfs_edge_stack_inv u (out_edges u g)
                  (mkBfs (color σ) q (vis σ))) as Hfor'.
    rewrite Hscan in Hfor, Hfor'. destruct Hfor as (Hinv' & Hout & _).
    split; [by apply search_inv_finish|].
    apply stack_inv_finish; [|by apply (si_cur _ _ _ _ _ _ Hinv')].
    apply Hfor'; [by destruct Hstack| |done].
    apply (si_queue _ _ _ _ _ _ Hsearch). rewrite HQ. by left.
  - intros σ u q ex σ' [Hsearch Hstack] HQ Hscan.
    pose proof (for_each_bfs_edge_search g DeletionStackBfsVisitor s never never
                  Hdiscover Hexamine targets_valid u (out_edges u g) _
                  (search_inv_pop g s never never _ _ _ Hsearch HQ) (λ _ He, He))
      as Hfor.
    rewrite Hscan in Hfor. destruct Hfor as [_ [(? & _ & [=])|(? & ? & _ & _ & [=])]].
Qed.

(** The search that fills the deletion stack returns; the stack holds the
    vertices [s] reaches, each once, [s] first, and every other one after a
    vertex with an edge to it. *)
Lemma deletion_search_spec :
  ∃ stack,
    breadth_first_search g DeletionStackBfsVisitor s [] = (Normal tt, stack) ∧
    NoDup stack ∧ head stack = Some s ∧
    (∀ v, v ∈ stack ↔ rtc (edge_rel g) s v) ∧
    (∀ i v, stack !! i = Some v → v ≠ s →
            ∃ j u, j < i ∧ stack !! j = Some u ∧ edge_rel g u v).
Proof.
  unfold breadth_first_search, breadth_first_visit, on_vis, put_color, Q_push;
    unfold_M. simpl.
  set (σ0 := mkBfs _ _ _).
  assert (search_inv g s never never None σ0) as Hsearch by by apply search_inv_init.
  assert (stack_inv σ0) as Hstack.
  { split; simpl.
    - apply NoDup_singleton.
    - intros v. rewrite list_elem_of_singleton. split.
      + intros ->. apply (si_start _ _ _ _ _ _ Hsearch).
      + intros [->|(c & Hc & Hnw)]%discovered_insert_inv; [done|].
        by apply lookup_replicate in Hc as [-> _].
    - done.
    - intros [|i] v Hi Hv; by simplify_eq/=. }
  destruct (bfs_loop_stack σ0 Hsearch Hstack) as (σ' & -> & Hsearch' & HQ & Hstack').
  exists (vis σ'). destruct Hstack' as [Hnodup Helem Hhead Hparent].
  split_and!; try done.
  intros v. rewrite Helem, (search_inv_closed g s never never _ _ Hsearch' HQ).
  split; [|by exists black_color].
  intros Hv. apply (search_inv_closed g s never never _ _ Hsearch' HQ).
  by apply (si_reach _ _ _ _ _ _ Hsearch').
Qed.
End stack_facts.

(** ** More on the sweep *)

Lemma elem_of_concat {A} (x : A) (ls : list (list A)) :
  x ∈ concat ls ↔ ∃ l, l ∈ ls ∧ x ∈ l.
Proof.
  induction ls as [|l ls IH]; simpl.
  - split; [by intros ?%elem_of_nil|by intros (l & ?%elem_of_nil & _)].
  - rewrite elem_of_app, IH. split.
    + intros [Hx|(l' & Hl' & Hx)]; [exists l; split; [by left|done]|].
      exists l'. split; [by right|done].
    + intros (l' & [->|Hl']%elem_of_cons & Hx); [by left|right; eauto].
Qed.

Lemma edge_rel_filtered {G} `{!Graph G} (g : G) (pred : Vertex → bool) u v :
  edge_rel (mkFiltered g keep_all pred) u v ↔ edge_rel g u v ∧ pred v = true.
Proof.
  unfold edge_rel. simpl. rewrite !list_elem_of_fmap. split.
  - intros (e & -> & [He Hg]%list_elem_of_filter). split; [by exists e|done].
  - intros [(e & -> & He) Hv]. exists e. split; [done|].
    by apply list_elem_of_filter.
Qed.

Section sweep_more.
Context {ID : Type} `{Countable ID}.
Context {VertexProperty EdgeProperty World : Type}.
Context `{!Inhabited VertexProperty, !Inhabited EdgeProperty}.
Variable Deleter : M (VertexProperty * World) unit.
Implicit Types σ : DependencyManager (ID:=ID) (VertexProperty:=VertexProperty)
                                     (EdgeProperty:=EdgeProperty).
Implicit Types π : process (ID:=ID) (VertexProperty:=VertexProperty)
                           (EdgeProperty:=EdgeProperty) (World:=World).
Implicit Types g : adjacency_list VertexProperty EdgeProperty.

(** X11. In every state the calls of a client lead to, for a vertex [root]
    of the graph, [get_deletion_stack(root, pred)] returns, leaving the
    manager, a vector without repetition that starts with [root] and holds
    exactly the vertices reached from [root] along edges whose target [pred]
    accepts. *)
Theorem get_deletion_stack_spec π (root : Vertex) (pred : Vertex → bool) :
  reachable Deleter π →
  root < adj_num_vertices (m_dependency_graph (manager π)) →
  ∃ stack,
    get_deletion_stack root pred (manager π) = (Normal stack, manager π) ∧
    NoDup stack ∧ head stack = Some root ∧
    ∀ v, v ∈ stack
         ↔ rtc (λ u v, edge_rel (m_dependency_graph (manager π)) u v ∧ pred v = true)
               root v.
Proof.
  intros Hwf%reachable_wf Hroot. unfold get_deletion_stack.
  destruct (deletion_search_spec
              (mkFiltered (m_dependency_graph (manager π)) keep_all pred) root)
    as (stack & -> & Hnodup & Hhead & Helem & _); [|done|].
  { intros u v [Huv _]%edge_rel_filtered. by eapply wf_targets. }
  exists stack. split_and!; try done. intros v. rewrite Helem.
  split; apply rtc_subrel; intros u w; by rewrite edge_rel_filtered.
Qed.

(** The deletion stack of a vertex of the graph, in a state registration
    maintains. *)
Lemma deletion_stack_spec σ (root : Vertex) :
  manager_wf σ → root < adj_num_vertices (m_dependency_graph σ) →
  NoDup (deletion_stack root (m_dependency_graph σ)) ∧
  head (deletion_stack root (m_dependency_graph σ)) = Some root ∧
  (∀ v, v ∈ deletion_stack root (m_dependency_graph σ)
        ↔ rtc (edge_rel (m_dependency_graph σ)) root v) ∧
  (∀ i v, deletion_stack root (m_dependency_graph σ) !! i = Some v → v ≠ root →
          ∃ j u, j < i ∧ deletion_stack root (m_dependency_graph σ) !! j = Some u ∧
                 edge_rel (m_dependency_graph σ) u v).
Proof.
  intros Hwf Hroot. unfold deletion_stack.
  assert (∀ u v, edge_rel (mkFiltered (m_dependency_graph σ) keep_all keep_all) u v
                 ↔ edge_rel (m_dependency_graph σ) u v) as Hedge.
  { intros u v. rewrite edge_rel_filtered. unfold keep_all. intuition. }
  destruct (deletion_search_spec
              (mkFiltered (m_dependency_graph σ) keep_all keep_all) root)
    as (stack & -> & Hnodup & Hhead & Helem & Hparent); [|done|].
  { intros u v Huv%Hedge. by eapply wf_targets. }
  simpl. split_and!; try done.
  - intros v. rewrite Helem. split; apply rtc_subrel; intros u w; by rewrite Hedge.
  - intros i v Hi Hv. destruct (Hparent i v Hi Hv) as (j & u & ? & ? & ?%Hedge).
    by exists j, u.
Qed.

Lemma reached_valid σ (u v : Vertex) :
  manager_wf σ → u < adj_num_vertices (m_dependency_graph σ) →
  rtc (edge_rel (m_dependency_graph σ)) u v →
  v < adj_num_vertices (m_dependency_graph σ).
Proof.
  intros Hwf Hu Huv. induction Huv as [|u w v Huw _ IH]; [done|].
  apply IH. by eapply wf_targets.
Qed.

(** A loop of [Deleter] calls over vertices of the graph that returns has
    made them all, in order. *)
Lemma for_each_call_Deleter_calls l π π' :
  (∀ v, v ∈ l → v < adj_num_vertices (m_dependency_graph (manager π))) →
  for_each (call_Deleter Deleter) l π = (Normal tt, π') →
  calls π' = calls π ++ l.
Proof.
  revert π. induction l as [|v l IH]; intros π Hl; simpl; unfold_M.
  { intros [= <-]. by rewrite app_nil_r. }
  destruct (call_Deleter_structure Deleter v π) as [Hsk _].
  assert (calls (call_Deleter Deleter v π).2 = calls π ++ [v]) as Hcalls.
  { unfold call_Deleter, vertex_bundle.
    destruct (lookup_lt_is_Some_2 (m_vertices (m_dependency_graph (manager π))) v)
      as [sv ->]; [apply Hl; by left|].
    simpl. by destruct (Deleter _) as [r [p' w']]. }
  destruct (call_Deleter Deleter v π) as [[[]|e] π1]; [|done].
  simpl in Hcalls. intros Hrest. apply IH in Hrest.
  - rewrite Hrest, Hcalls. by rewrite <-app_assoc.
  - intros w Hw. simpl in Hsk. rewrite (skeleton_num_vertices _ _ Hsk).
    apply Hl. by right.
Qed.

(** X12. In every state the calls of a client lead to, when
    [perform_deletion_from(root)] returns for a vertex [root] of the graph,
    it has handed to the [Deleter] exactly the vertices [root] reaches, each
    once, and [root] last. *)
Theorem perform_deletion_from_pass π (root : Vertex) π' :
  reachable Deleter π →
  root < adj_num_vertices (m_dependency_graph (manager π)) →
  perform_deletion_from Deleter root π = (Normal tt, π') →
  ∃ pass,
    calls π' = calls π ++ pass ∧ NoDup pass ∧ last pass = Some root ∧
    ∀ v, v ∈ pass ↔ rtc (edge_rel (m_dependency_graph (manager π))) root v.
Proof.
  intros Hwf%reachable_wf Hroot Hret. rewrite perform_deletion_from_eq in Hret.
  destruct (deletion_stack_spec _ root Hwf Hroot) as (Hnodup & Hhead & Helem & _).
  exists (reverse (deletion_stack root (m_dependency_graph (manager π)))).
  split_and!.
  - apply for_each_call_Deleter_calls; [|done].
    intros v Hv. rewrite elem_of_reverse, Helem in Hv. by eapply reached_valid.
  - by rewrite reverse_Permutation.
  - by rewrite last_reverse.
  - intros v. by rewrite elem_of_reverse.
Qed.

(** In an acyclic graph every vertex is reached from a vertex without
    in-edges. *)
Lemma root_ancestor σ (v : Vertex) :
  manager_wf σ → manager_shape σ →
  v < adj_num_vertices (m_dependency_graph σ) →
  ∃ r, r < adj_num_vertices (m_dependency_graph σ) ∧
       in_edge_list r (m_dependency_graph σ) = [] ∧
       rtc (edge_rel (m_dependency_graph σ)) r v.
Proof.
  intros Hwf Hshape Hv.
  set (n := adj_num_vertices (m_dependency_graph σ)) in *.
  assert (∀ k seen cur,
            n < length seen + k → NoDup seen →
            (∀ x, x ∈ seen → x < n ∧ rtc (edge_rel (m_dependency_graph σ)) cur x) →
            cur ∈ seen → rtc (edge_rel (m_dependency_graph σ)) cur v →
            ∃ r, r < n ∧ in_edge_list r (m_dependency_graph σ) = [] ∧
                 rtc (edge_rel (m_dependency_graph σ)) r v) as Hwalk.
  { induction k as [|k IH]; intros seen cur Hlen Hnodup Hseen Hcur Hcv.
    - assert (seen ⊆+ seq 0 n) as Hsub%submseteq_length.
      { apply NoDup_submseteq; [done|]. intros x [Hx _]%Hseen.
        apply elem_of_seq. lia. }
      rewrite length_seq in Hsub. lia.
    - destruct (in_edge_list cur (m_dependency_graph σ)) as [|p ps] eqn:Hin.
      { exists cur. split_and!; [by apply Hseen|done..]. }
      assert (edge_rel (m_dependency_graph σ) p cur) as Hpc.
      { apply adj_edge_rel, (shape_in_out _ Hshape). rewrite Hin. by left. }
      assert (p < n) as Hp.
      { apply adj_edge_rel in Hpc. unfold out_edge_list in Hpc.
        destruct (m_vertices (m_dependency_graph σ) !! p) eqn:Hl.
        - by apply lookup_lt_Some in Hl.
        - by apply elem_of_nil in Hpc. }
      assert (p ∉ seen) as Hfresh.
      { intros [_ Hcp]%Hseen. apply (wf_acyclic _ Hwf cur).
        eapply tc_rtc_l; [done|]. by apply tc_once. }
      apply (IH (p :: seen) p).
      + simpl. lia.
      + by apply NoDup_cons.
      + intros x [->|Hx]%elem_of_cons; [done|].
        destruct (Hseen x Hx) as [? ?]. split; [done|]. by eapply rtc_l.
      + by left.
      + by eapply rtc_l. }
  apply (Hwalk n [v] v).
  - simpl. lia.
  - apply NoDup_singleton.
  - by intros x ->%list_elem_of_singleton.
  - by left.
  - done.
Qed.

Lemma elem_of_deletion_schedule σ (v : Vertex) :
  manager_wf σ →
  v ∈ deletion_schedule (m_dependency_graph σ)
  ↔ ∃ r, r < adj_num_vertices (m_dependency_graph σ) ∧
         in_edge_list r (m_dependency_graph σ) = [] ∧
         rtc (edge_rel (m_dependency_graph σ)) r v.
Proof.
  intros Hwf. unfold deletion_schedule. rewrite elem_of_concat. split.
  - intros (l & (r & -> & [Hr Hin]%list_elem_of_filter)%list_elem_of_fmap & Hv).
    rewrite elem_of_reverse in Hv. apply elem_of_seq in Hin. exists r. split_and!; [lia|done|].
    destruct (deletion_stack_spec σ r Hwf) as (_ & _ & Helem & _); [lia|].
    by apply Helem.
  - intros (r & Hr & Hroot & Hrv).
    exists (reverse (deletion_stack r (m_dependency_graph σ))). split.
    + apply list_elem_of_fmap. exists r. split; [done|].
      apply list_elem_of_filter. split; [done|]. apply elem_of_seq. lia.
    + destruct (deletion_stack_spec σ r Hwf Hr) as (_ & _ & Helem & _).
      by apply elem_of_reverse, Helem.
Qed.

(** The schedule of a reachable state holds exactly the vertices of its
    graph. *)
Lemma deletion_schedule_covers π v :
  reachable Deleter π →
  v ∈ deletion_schedule (m_dependency_graph (manager π))
  ↔ v < adj_num_vertices (m_dependency_graph (manager π)).
Proof.
  intros Hreach. pose proof (reachable_wf _ _ Hreach) as Hwf.
  pose proof (reachable_shape _ _ Hreach) as Hshape.
  rewrite elem_of_deletion_schedule by done. split.
  - intros (r & Hr & _ & Hrv). by eapply reached_valid.
  - by apply root_ancestor.
Qed.

(** What a sweep that returns has handed to the [Deleter]. *)
Lemma clear_calls π π' :
  reachable Deleter π →
  clear Deleter π = (Normal tt, π') →
  calls π' = calls π ++ deletion_schedule (m_dependency_graph (manager π)).
Proof.
  intros Hreach Hret. rewrite clear_schedule in Hret.
  apply for_each_call_Deleter_calls; [|done].
  intros v. by apply deletion_schedule_covers.
Qed.

(** X13. In every state the calls of a client lead to, when [clear()]
    returns, the vertices it has handed to the [Deleter] are, in order, the
    deletion schedule of the graph, and every vertex of the graph is among
    them: no registered component is left out of the sweep. *)
Theorem sweep_reaches_every_vertex π π' :
  reachable Deleter π →
  clear Deleter π = (Normal tt, π') →
  calls π' = calls π ++ deletion_schedule (m_dependency_graph (manager π)) ∧
  ∀ v, v ∈ deletion_schedule (m_dependency_graph (manager π))
       ↔ v < adj_num_vertices (m_dependency_graph (manager π)).
Proof.
  intros Hreach Hret. split; [by apply clear_calls|].
  intros v. by apply deletion_schedule_covers.
Qed.

(** How often a value occurs in the concatenation of lists without
    repetition: once per list that holds it. *)
Lemma count_concat_NoDup {A B} `{EqDecision B} (f : A → list B) (rs : list A) (x : B) :
  (∀ r, r ∈ rs → NoDup (f r)) →
  length (filter (x =.) (concat (f <$> rs))) = length (filter (λ r, x ∈ f r) rs).
Proof.
  intros Hnodup. induction rs as [|r rs IH]; [done|].
  rewrite fmap_cons. simpl. rewrite filter_app, length_app, filter_cons.
  rewrite IH by (intros r' Hr'; apply Hnodup; by right).
  assert (NoDup (f r)) as Hr by (apply Hnodup; by left).
  assert (length (filter (x =.) (f r)) = if decide (x ∈ f r) then 1 else 0) as ->.
  { clear -Hr. induction Hr as [|y l Hy Hl IH]; [done|].
    rewrite filter_cons. destruct (decide (x = y)) as [<-|Hne]; simpl; rewrite IH.
    - rewrite decide_False by done. by rewrite decide_True by (by left).
    - destruct (decide (x ∈ l)) as [Hx|Hx].
      + by rewrite decide_True by (by right).
      + rewrite decide_False; [done|]. by intros [?|?]%elem_of_cons. }
  by destruct (decide (x ∈ f r)).
Qed.

(** X14. In every state the calls of a client lead to, when [clear()]
    returns, a vertex has been handed to the [Deleter] once for every vertex
    without in-edges that reaches it: as many times as it has roots above
    it. *)
Theorem sweep_visits_once_per_root π π' (v : Vertex) :
  reachable Deleter π →
  clear Deleter π = (Normal tt, π') →
  ∃ sched roots,
    calls π' = calls π ++ sched ∧
    NoDup roots ∧
    (∀ r, r ∈ roots
          ↔ r < adj_num_vertices (m_dependency_graph (manager π)) ∧
            is_root_dependency r (manager π) = true ∧
            rtc (edge_rel (m_dependency_graph (manager π))) r v) ∧
    length (filter (v =.) sched) = length roots.
Proof.
  intros Hreach Hret. pose proof (reachable_wf _ _ Hreach) as Hwf.
  pose proof (clear_calls π π' Hreach Hret) as Hcalls.
  set (g := m_dependency_graph (manager π)) in *.
  exists (deletion_schedule g),
         (filter (λ r, v ∈ reverse (deletion_stack r g))
                 (filter (λ r, in_edges r g = []) (vertices g))).
  assert (∀ r, r ∈ filter (λ r, in_edges r g = []) (vertices g)
               ↔ r < adj_num_vertices g ∧ in_edges r g = []) as Hroots.
  { intros r. rewrite list_elem_of_filter. unfold vertices. rewrite elem_of_seq.
    intuition lia. }
  split_and!; [done| | |].
  - apply NoDup_filter, NoDup_filter, NoDup_seq.
  - intros r. rewrite list_elem_of_filter, Hroots, elem_of_reverse.
    unfold is_root_dependency. rewrite bool_decide_eq_true. split.
    + intros (Hv & Hr & Hroot). split_and!; [done..|].
      by apply (deletion_stack_spec _ r Hwf Hr).
    + intros (Hr & Hroot & Hv). split_and!; [|done..].
      by apply (deletion_stack_spec _ r Hwf Hr).
  - unfold deletion_schedule. apply count_concat_NoDup.
    intros r [Hr _]%Hroots. rewrite reverse_Permutation.
    by apply (deletion_stack_spec _ r Hwf Hr).
Qed.

(** Two positions of a list, in order, split it in three. *)
Lemma lookup_lt_split {A} (l : list A) i j a b :
  i < j → l !! i = Some a → l !! j = Some b →
  ∃ l1 l2 l3, l = l1 ++ a :: l2 ++ b :: l3.
Proof.
  intros Hij Ha Hb.
  pose proof (take_drop_middle l j b Hb) as Hj.
  assert (take j l !! i = Some a) as Hi by by rewrite lookup_take_lt.
  pose proof (take_drop_middle (take j l) i a Hi) as Hi'.
  exists (take i (take j l)), (drop (S i) (take j l)), (drop (S j) l).
  assert (l = (take i (take j l) ++ a :: drop (S i) (take j l)) ++ b :: drop (S j) l)
    as Heq by by rewrite Hi', Hj.
  rewrite Heq at 1. by rewrite <-app_assoc.
Qed.

Lemma NoDup_concat_fmap {A B} (f : A → list B) (rs : list A) :
  NoDup rs → (∀ r, r ∈ rs → NoDup (f r)) →
  (∀ r1 r2 x, r1 ∈ rs → r2 ∈ rs → x ∈ f r1 → x ∈ f r2 → r1 = r2) →
  NoDup (concat (f <$> rs)).
Proof.
  intros Hrs Hf Hdisj. induction Hrs as [|r rs Hr Hrs IH]; [apply NoDup_nil_2|].
  rewrite fmap_cons. simpl. apply NoDup_app. split_and!.
  - apply Hf. by left.
  - intros x Hx (l & (r' & -> & Hr')%list_elem_of_fmap & Hx')%elem_of_concat.
    apply Hr. rewrite (Hdisj r r' x); [done|by left|by right|done..].
  - apply IH.
    + intros r' Hr'. apply Hf. by right.
    + intros r1 r2 x Hr1 Hr2. apply Hdisj; by right.
Qed.

(** With at most one in-edge per vertex, a vertex is reached from one vertex
    without in-edges only. *)
Lemma unique_root σ (r1 r2 v : Vertex) :
  manager_shape σ →
  (∀ v, length (in_edges v (m_dependency_graph σ)) ≤ 1) →
  in_edge_list r1 (m_dependency_graph σ) = [] →
  in_edge_list r2 (m_dependency_graph σ) = [] →
  rtc (edge_rel (m_dependency_graph σ)) r1 v →
  rtc (edge_rel (m_dependency_graph σ)) r2 v →
  r1 = r2.
Proof.
  intros Hshape Hone Hr1 Hr2 Hv1. revert v Hv1.
  assert (∀ u w, edge_rel (m_dependency_graph σ) u w
                 → u ∈ in_edge_list w (m_dependency_graph σ)) as Hin.
  { intros u w Huw%adj_edge_rel. by apply (shape_in_out _ Hshape). }
  assert (∀ u u' w, edge_rel (m_dependency_graph σ) u w →
                    edge_rel (m_dependency_graph σ) u' w → u = u') as Hsame.
  { intros u u' w Hu%Hin Hu'%Hin. specialize (Hone w). unfold in_edges in Hone.
    destruct (in_edge_list w (m_dependency_graph σ)) as [|x [|y l]];
      [by apply elem_of_nil in Hu| |simpl in Hone; lia].
    apply list_elem_of_singleton in Hu, Hu'. congruence. }
  apply (rtc_ind_r (λ v, rtc (edge_rel (m_dependency_graph σ)) r2 v → r1 = r2)).
  - intros [->|(y & _ & Hy%Hin)]%rtc_inv_r; [done|].
    rewrite Hr1 in Hy. by apply elem_of_nil in Hy.
  - intros w v _ Hwv IH [->|(y & Hy & Hyv)]%rtc_inv_r.
    + apply Hin in Hwv. rewrite Hr2 in Hwv. by apply elem_of_nil in Hwv.
    + apply IH. by rewrite (Hsame w y v).
Qed.

(** X15. In every state the calls of a client lead to in which no vertex
    has more than one in-edge (each component is depended on at most once in
    the graph's direction: chains and trees), when [clear()] returns it has
    handed every vertex to the [Deleter] exactly once, and for every edge
    the target before the source: each component is cleaned before the one
    it depends on. *)
Theorem sweep_respects_edges_of_a_forest π π' :
  reachable Deleter π →
  (∀ v, length (in_edges v (m_dependency_graph (manager π))) ≤ 1) →
  clear Deleter π = (Normal tt, π') →
  ∃ sched,
    calls π' = calls π ++ sched ∧
    NoDup sched ∧
    (∀ v, v ∈ sched ↔ v < adj_num_vertices (m_dependency_graph (manager π))) ∧
    ∀ u v, edge_rel (m_dependency_graph (manager π)) u v →
           ∃ l1 l2 l3, sched = l1 ++ v :: l2 ++ u :: l3.
Proof.
  intros Hreach Hone Hret. pose proof (reachable_wf _ _ Hreach) as Hwf.
  pose proof (reachable_shape _ _ Hreach) as Hshape.
  pose proof (clear_calls π π' Hreach Hret) as Hcalls.
  pose proof (λ v, deletion_schedule_covers π v Hreach) as Hall.
  set (g := m_dependency_graph (manager π)) in *.
  exists (deletion_schedule g).
  assert (∀ r, r ∈ filter (λ r, in_edges r g = []) (vertices g)
               ↔ r < adj_num_vertices g ∧ in_edges r g = []) as Hroots.
  { intros r. rewrite list_elem_of_filter. unfold vertices. rewrite elem_of_seq.
    intuition lia. }
  split_and!; [done| |done|].
  - unfold deletion_schedule. apply NoDup_concat_fmap.
    + apply NoDup_filter, NoDup_seq.
    + intros r [Hr _]%Hroots. rewrite reverse_Permutation.
      by apply (deletion_stack_spec _ r Hwf Hr).
    + intros r1 r2 x [Hr1 Hroot1]%Hroots [Hr2 Hroot2]%Hroots Hx1 Hx2.
      rewrite elem_of_reverse in Hx1, Hx2.
      apply (deletion_stack_spec _ r1 Hwf Hr1) in Hx1.
      apply (deletion_stack_spec _ r2 Hwf Hr2) in Hx2.
      by eapply (unique_root (manager π)).
  - intros u v Huv.
    assert (u < adj_num_vertices g) as Hu.
    { apply adj_edge_rel in Huv. unfold out_edge_list in Huv.
      destruct (m_vertices g !! u) eqn:Hl; [by apply lookup_lt_Some in Hl|].
      by apply elem_of_nil in Huv. }
    destruct (root_ancestor _ u Hwf Hshape Hu) as (r & Hr & Hroot & Hru).
    destruct (deletion_stack_spec _ r Hwf Hr) as (_ & _ & Helem & Hparent).
    assert (rtc (edge_rel g) r v) as Hrv by by eapply rtc_r.
    apply Helem, list_elem_of_lookup in Hrv as [i Hi].
    assert (u ∈ in_edge_list v g) as Hin.
    { apply (shape_in_out _ Hshape). by apply adj_edge_rel. }
    destruct (Hparent i v Hi) as (j & p & Hj & Hp & Hpv).
    { intros ->. fold g in Hroot. rewrite Hroot in Hin. by apply elem_of_nil in Hin. }
    assert (p = u) as ->.
    { apply adj_edge_rel, (shape_in_out _ Hshape) in Hpv. fold g in Hpv.
      specialize (Hone v). unfold in_edges in Hone.
      destruct (in_edge_list v g) as [|x [|y l]];
        [by apply elem_of_nil in Hin| |simpl in Hone; lia].
      apply list_elem_of_singleton in Hin, Hpv. congruence. }
    destruct (lookup_lt_split _ j i u v Hj Hp Hi) as (s1 & s2 & s3 & Hstack).
    assert (r ∈ filter (λ r, in_edges r g = []) (vertices g)) as Hrin
      by by apply Hroots.
    apply list_elem_of_split in Hrin as (ra & rb & Hsplit).
    subst g. unfold deletion_schedule.
    rewrite Hsplit, fmap_app, fmap_cons, concat_app.
    simpl. rewrite Hstack.
    generalize (concat ((λ v0, reverse (deletion_stack v0 (m_dependency_graph (manager π))))
                          <$> ra)),
               (concat ((λ v0, reverse (deletion_stack v0 (m_dependency_graph (manager π))))
                          <$> rb)).
    intros pre post. clear.
    exists (pre ++ reverse s3), (reverse s2), (reverse s1 ++ post).
    rewrite reverse_app, reverse_cons, reverse_app, reverse_cons.
    by rewrite <-!(assoc_L (++)).
Qed.
End sweep_more.

(** ** Runs that meet the hypotheses above *)

Section more_scenarios.
Import singleton.

(** 1 is depended on by 2, and 2 by 3. *)
Definition chain : list (DepCall (list N)) :=
  [RegisterComponent 1%N (logging 1); RegisterComponent 2%N (logging 2);
   RegisterComponent 3%N (logging 3);
   RegisterDependency 1%N 2%N tt; RegisterDependency 2%N 3%N tt].

(** 1 and 2, not yet related, and the manager once 2 depends on 1. *)
Definition pair : list (DepCall (list N)) :=
  [RegisterComponent 1%N (logging 1); RegisterComponent 2%N (logging 2)].
Definition pair_linked : DepManager (list N) :=
  (register_dependency 1%N 2%N tt (manager (run pair))).2.

(** The states after the sweep of [triangle] and of [chain]. *)
Definition triangle_swept : DepProcess (list N) :=
  (clear DependencyCleaner (run triangle)).2.
Definition chain_swept : DepProcess (list N) :=
  (clear DependencyCleaner (run chain)).2.

Lemma triangle_targets_valid u v :
  edge_rel (m_dependency_graph (manager (run triangle))) u v →
  v < num_vertices (m_dependency_graph (manager (run triangle))).
Proof.
  apply (wf_targets _ (reachable_wf DependencyCleaner _ (run_reachable triangle))).
Defined.

Lemma register_dependency_outcomes_witness :
  reachable DependencyCleaner (run triangle) ∧
  ((register_dependency 11%N 10%N tt (manager (run triangle))
      = (Throw UnknownId, manager (run triangle)) ∧
    (m_vertices_map (manager (run triangle)) !! 11%N = None ∨
     m_vertices_map (manager (run triangle)) !! 10%N = None)) ∨
   ∃ src dst,
     m_vertices_map (manager (run triangle)) !! 11%N = Some src ∧
     m_vertices_map (manager (run triangle)) !! 10%N = Some dst ∧
     ((register_dependency 11%N 10%N tt (manager (run triangle))
         = (Throw DuplicateEdge, manager (run triangle)) ∧
       edge_rel (m_dependency_graph (manager (run triangle))) src dst) ∨
      (register_dependency 11%N 10%N tt (manager (run triangle))
         = (Throw WouldCycle, manager (run triangle)) ∧
       ¬ edge_rel (m_dependency_graph (manager (run triangle))) src dst ∧
       rtc (edge_rel (m_dependency_graph (manager (run triangle)))) dst src) ∨
      (register_dependency 11%N 10%N tt (manager (run triangle))
         = (Normal tt, with_dependency src dst tt (manager (run triangle))) ∧
       ¬ edge_rel (m_dependency_graph (manager (run triangle))) src dst ∧
       ¬ rtc (edge_rel (m_dependency_graph (manager (run triangle)))) dst src))).
Proof.
  split; [apply run_reachable|].
  apply (register_dependency_outcomes DependencyCleaner (run triangle) 11%N 10%N tt).
  apply run_reachable.
Defined.

Lemma register_dependency_installs_witness :
  reachable DependencyCleaner (run pair) ∧
  register_dependency 1%N 2%N tt (manager (run pair)) = (Normal tt, pair_linked) ∧
  ∃ src dst,
    m_vertices_map (manager (run pair)) !! 1%N = Some src ∧
    m_vertices_map (manager (run pair)) !! 2%N = Some dst ∧
    m_vertices_map pair_linked = m_vertices_map (manager (run pair)) ∧
    (edge src dst (m_dependency_graph pair_linked)).2 = true ∧
    edge_bundle (edge src dst (m_dependency_graph pair_linked)).1
                (m_dependency_graph pair_linked) = Some tt ∧
    (∀ u, out_edge_list u (m_dependency_graph pair_linked)
          = if decide (u = src)
            then out_edge_list src (m_dependency_graph (manager (run pair))) ++ [(dst, tt)]
            else out_edge_list u (m_dependency_graph (manager (run pair)))) ∧
    (∀ v, in_edge_list v (m_dependency_graph pair_linked)
          = if decide (v = dst)
            then in_edge_list dst (m_dependency_graph (manager (run pair))) ++ [src]
            else in_edge_list v (m_dependency_graph (manager (run pair)))) ∧
    (∀ v, vertex_bundle v (m_dependency_graph pair_linked)
          = vertex_bundle v (m_dependency_graph (manager (run pair)))).
Proof.
  split_and!; [apply run_reachable|reflexivity|].
  apply (register_dependency_installs DependencyCleaner (run pair) 1%N 2%N tt);
    [apply run_reachable|reflexivity].
Defined.

Lemma dependency_neither_repeated_nor_reversed_witness :
  reachable DependencyCleaner (run pair) ∧
  register_dependency 1%N 2%N tt (manager (run pair)) = (Normal tt, pair_linked) ∧
  register_dependency 1%N 2%N tt pair_linked = (Throw DuplicateEdge, pair_linked) ∧
  register_dependency 2%N 1%N tt pair_linked = (Throw WouldCycle, pair_linked).
Proof.
  split_and!; [apply run_reachable|reflexivity|..];
    apply (dependency_neither_repeated_nor_reversed DependencyCleaner (run pair)
             1%N 2%N tt tt pair_linked); (apply run_reachable || reflexivity).
Defined.

Lemma identifiers_and_vertices_correspond_witness :
  reachable DependencyCleaner (run triangle) ∧
  (∀ id1 id2 v,
      m_vertices_map (manager (run triangle)) !! id1 = Some v →
      m_vertices_map (manager (run triangle)) !! id2 = Some v → id1 = id2) ∧
  (∀ v, v < adj_num_vertices (m_dependency_graph (manager (run triangle)))
        ↔ ∃ id, m_vertices_map (manager (run triangle)) !! id = Some v).
Proof.
  split; [apply run_reachable|].
  apply (identifiers_and_vertices_correspond DependencyCleaner (run triangle)).
  apply run_reachable.
Defined.

Lemma no_dependency_is_doubled_witness :
  reachable DependencyCleaner (run triangle) ∧
  NoDup (target <$> out_edges 0 (m_dependency_graph (manager (run triangle)))).
Proof.
  split; [apply run_reachable|].
  apply (no_dependency_is_doubled DependencyCleaner (run triangle) 0).
  apply run_reachable.
Defined.

Lemma is_root_dependency_spec_witness :
  reachable DependencyCleaner (run triangle) ∧
  (∀ u, u ∈ in_edges 1 (m_dependency_graph (manager (run triangle)))
        ↔ edge_rel (m_dependency_graph (manager (run triangle))) u 1) ∧
  (is_root_dependency 1 (manager (run triangle)) = true
   ↔ ∀ u, ¬ edge_rel (m_dependency_graph (manager (run triangle))) u 1).
Proof.
  split; [apply run_reachable|].
  apply (is_root_dependency_spec DependencyCleaner (run triangle) 1).
  apply run_reachable.
Defined.

Lemma registered_is_kept_witness :
  reachable DependencyCleaner (run pair) ∧
  grows (manager (run pair))
        (manager (run_calls DependencyCleaner
                    [RegisterDependency 1%N 2%N tt; Clear;
                     RegisterComponent 3%N (logging 3)] (run pair))).
Proof.
  split; [apply run_reachable|].
  apply (registered_is_kept DependencyCleaner). apply run_reachable.
Defined.

Lemma registrations_keep_records_witness :
  reachable DependencyCleaner (run pair) ∧
  Forall (λ c : DepCall (list N), is_registration c = true)
         [RegisterDependency 1%N 2%N tt; RegisterComponent 3%N (logging 3)] ∧
  0 < adj_num_vertices (m_dependency_graph (manager (run pair))) ∧
  vertex_bundle 0 (m_dependency_graph
                     (manager (run_calls DependencyCleaner
                                 [RegisterDependency 1%N 2%N tt;
                                  RegisterComponent 3%N (logging 3)] (run pair))))
  = vertex_bundle 0 (m_dependency_graph (manager (run pair))).
Proof.
  split_and!; [apply run_reachable|by repeat constructor|vm_compute; lia|].
  apply (registrations_keep_records DependencyCleaner);
    [apply run_reachable|by repeat constructor|vm_compute; lia].
Defined.

(** The search from vertex 0 of [triangle] that halts on vertex 1. *)
Lemma bfs_halting_visitor_spec_witness :
  (∀ v vs, (discover_vertex (default_bfs_visitor (Vis:=unit)) v
              (m_dependency_graph (manager (run triangle))) vs).1 = Normal tt) ∧
  (∀ e vs, (examine_edge (default_bfs_visitor (Vis:=unit)) e
              (m_dependency_graph (manager (run triangle))) vs).1 = Normal tt) ∧
  (∀ u v, edge_rel (m_dependency_graph (manager (run triangle))) u v →
          v < num_vertices (m_dependency_graph (manager (run triangle)))) ∧
  0 < num_vertices (m_dependency_graph (manager (run triangle))) ∧
  match breadth_first_search (m_dependency_graph (manager (run triangle)))
          (bfs_halting_visitor (λ v _, bool_decide (v = 1)) make_no_halting
                               default_bfs_visitor) 0 tt with
  | (Normal _, _) =>
      (∀ v, rtc (edge_rel (m_dependency_graph (manager (run triangle)))) 0 v →
            bool_decide (v = 1) = false) ∧
      (∀ u e, rtc (edge_rel (m_dependency_graph (manager (run triangle)))) 0 u →
              e ∈ out_edges u (m_dependency_graph (manager (run triangle))) →
              make_no_halting e (m_dependency_graph (manager (run triangle))) = false)
  | (Throw ex, _) =>
      ex = breaking_condition_exception ∧
      ((∃ v, rtc (edge_rel (m_dependency_graph (manager (run triangle)))) 0 v ∧
             bool_decide (v = 1) = true) ∨
       (∃ u e, rtc (edge_rel (m_dependency_graph (manager (run triangle)))) 0 u ∧
               e ∈ out_edges u (m_dependency_graph (manager (run triangle))) ∧
               make_no_halting e (m_dependency_graph (manager (run triangle))) = true))
  end.
Proof.
  split_and!; [done|done|apply triangle_targets_valid|vm_compute; lia|].
  apply (bfs_halting_visitor_spec (m_dependency_graph (manager (run triangle)))
           (λ v _, bool_decide (v = 1)) make_no_halting default_bfs_visitor 0 tt);
    [done|done|apply triangle_targets_valid|vm_compute; lia].
Defined.

Lemma get_deletion_stack_spec_witness :
  reachable DependencyCleaner (run triangle) ∧
  0 < adj_num_vertices (m_dependency_graph (manager (run triangle))) ∧
  ∃ stack,
    get_deletion_stack 0 (λ v, bool_decide (v ≠ 1)) (manager (run triangle))
      = (Normal stack, manager (run triangle)) ∧
    NoDup stack ∧ head stack = Some 0 ∧
    ∀ v, v ∈ stack
         ↔ rtc (λ u v, edge_rel (m_dependency_graph (manager (run triangle))) u v ∧
                       bool_decide (v ≠ 1) = true) 0 v.
Proof.
  split_and!; [apply run_reachable|vm_compute; lia|].
  apply (get_deletion_stack_spec DependencyCleaner (run triangle) 0);
    [apply run_reachable|vm_compute; lia].
Defined.

Lemma perform_deletion_from_pass_witness :
  reachable DependencyCleaner (run triangle) ∧
  0 < adj_num_vertices (m_dependency_graph (manager (run triangle))) ∧
  perform_deletion_from DependencyCleaner 0 (run triangle) = (Normal tt, triangle_swept) ∧
  ∃ pass,
    calls triangle_swept = calls (run triangle) ++ pass ∧ NoDup pass ∧
    last pass = Some 0 ∧
    ∀ v, v ∈ pass ↔ rtc (edge_rel (m_dependency_graph (manager (run triangle)))) 0 v.
Proof.
  split_and!; [apply run_reachable|vm_compute; lia|reflexivity|].
  apply (perform_deletion_from_pass DependencyCleaner (run triangle) 0 triangle_swept);
    [apply run_reachable|vm_compute; lia|reflexivity].
Defined.

Lemma sweep_reaches_every_vertex_witness :
  reachable DependencyCleaner (run triangle) ∧
  clear DependencyCleaner (run triangle) = (Normal tt, triangle_swept) ∧
  calls triangle_swept
    = calls (run triangle)
      ++ deletion_schedule (m_dependency_graph (manager (run triangle))) ∧
  ∀ v, v ∈ deletion_schedule (m_dependency_graph (manager (run triangle)))
       ↔ v < adj_num_vertices (m_dependency_graph (manager (run triangle))).
Proof.
  split_and!; [apply run_reachable|reflexivity|..];
    apply (sweep_reaches_every_vertex DependencyCleaner (run triangle) triangle_swept);
    (apply run_reachable || reflexivity).
Defined.

Lemma sweep_visits_once_per_root_witness :
  reachable DependencyCleaner (run triangle) ∧
  clear DependencyCleaner (run triangle) = (Normal tt, triangle_swept) ∧
  ∃ sched roots,
    calls triangle_swept = calls (run triangle) ++ sched ∧
    NoDup roots ∧
    (∀ r, r ∈ roots
          ↔ r < adj_num_vertices (m_dependency_graph (manager (run triangle))) ∧
            is_root_dependency r (manager (run triangle)) = true ∧
            rtc (edge_rel (m_dependency_graph (manager (run triangle)))) r 1) ∧
    length (filter (1 =.) sched) = length roots.
Proof.
  split_and!; [apply run_reachable|reflexivity|].
  apply (sweep_visits_once_per_root DependencyCleaner (run triangle) triangle_swept 1);
    [apply run_reachable|reflexivity].
Defined.

Lemma chain_is_a_forest v :
  length (in_edges v (m_dependency_graph (manager (run chain)))) ≤ 1.
Proof. destruct v as [|[|[|v]]]; vm_compute; lia. Defined.

Lemma sweep_respects_edges_of_a_forest_witness :
  reachable DependencyCleaner (run chain) ∧
  (∀ v, length (in_edges v (m_dependency_graph (manager (run chain)))) ≤ 1) ∧
  clear DependencyCleaner (run chain) = (Normal tt, chain_swept) ∧
  ∃ sched,
    calls chain_swept = calls (run chain) ++ sched ∧
    NoDup sched ∧
    (∀ v, v ∈ sched ↔ v < adj_num_vertices (m_dependency_graph (manager (run chain)))) ∧
    ∀ u v, edge_rel (m_dependency_graph (manager (run chain))) u v →
           ∃ l1 l2 l3, sched = l1 ++ v :: l2 ++ u :: l3.
Proof.
  split_and!; [apply run_reachable|apply chain_is_a_forest|reflexivity|].
  apply (sweep_respects_edges_of_a_forest DependencyCleaner (run chain) chain_swept);
    [apply run_reachable|apply chain_is_a_forest|reflexivity].
Defined.
End more_scenarios.

(** ** More on the manager of [namespace singleton] *)

Section singleton_more.
Import singleton.
Context {World : Type}.
Implicit Types (π : DepProcess World) (c : DependencyComponent World).
Implicit Types g : DependencyGraph World.

(** The clean-up action of the record at a vertex. *)
Definition cleaner_of g (v : Vertex) : M World unit :=
  match vertex_bundle v g with
  | Some c => cleaner c
  | None => mret tt
  end.

Lemma call_DependencyCleaner_world g0 v π :
  identity <$> vertex_bundle v (m_dependency_graph (manager π))
    = identity <$> vertex_bundle v g0 →
  cleaner_of g0 v (world π)
  = ((call_Deleter DependencyCleaner v π).1,
     world (call_Deleter DependencyCleaner v π).2).
Proof.
  intros Hid. unfold cleaner_of, call_Deleter.
  destruct (vertex_bundle v (m_dependency_graph (manager π))) as [c1|];
    destruct (vertex_bundle v g0) as [c0|]; try done.
  assert (cleaner c0 = cleaner c1) as ->
    by (unfold identity in Hid; simpl in Hid; congruence).
  unfold DependencyCleaner, DependencyComponent_clear.
  by destruct (cleaner c1 (world π)) as [[[]|e] w'].
Qed.

Lemma for_each_call_DependencyCleaner_world g0 l π :
  (∀ v, identity <$> vertex_bundle v (m_dependency_graph (manager π))
        = identity <$> vertex_bundle v g0) →
  for_each (cleaner_of g0) l (world π)
  = ((for_each (call_Deleter DependencyCleaner) l π).1,
     world (for_each (call_Deleter DependencyCleaner) l π).2).
Proof.
  revert π. induction l as [|v l IH]; intros π Hid; [done|].
  simpl. unfold_M.
  rewrite (call_DependencyCleaner_world g0 v π (Hid v)).
  pose proof (λ w, call_DependencyCleaner_identity v π w) as Hid1.
  destruct (call_Deleter DependencyCleaner v π) as [[[]|e] π1]; [|done].
  simpl in *. apply IH. intros w. by rewrite Hid1.
Qed.

(** X16. On the rest of the program the sweep acts as the clean-up actions
    of the scheduled records, each run on what the one before left: it
    returns when all of them return and is left by the exception of the
    first that throws, with the world that one left. *)
Theorem sweep_runs_scheduled_cleaners π :
  for_each (cleaner_of (m_dependency_graph (manager π)))
           (deletion_schedule (m_dependency_graph (manager π))) (world π)
  = ((clear DependencyCleaner π).1, world (clear DependencyCleaner π).2).
Proof.
  rewrite clear_schedule. by apply for_each_call_DependencyCleaner_world.
Qed.

Lemma for_each_call_DependencyCleaner_flags l π π' v c :
  for_each (call_Deleter DependencyCleaner) l π = (Normal tt, π') →
  v ∈ l ∨ (∀ c0, vertex_bundle v (m_dependency_graph (manager π)) = Some c0
                 → is_deleted c0 = false) →
  vertex_bundle v (m_dependency_graph (manager π')) = Some c →
  is_deleted c = false.
Proof.
  revert π. induction l as [|u l IH]; intros π; simpl; unfold_M.
  { intros [= <-] [?%elem_of_nil|Hv]; [done|apply Hv]. }
  destruct (call_Deleter DependencyCleaner u π) as [[[]|e] π1] eqn:Hu; [|done].
  intros Hrest Hv. apply (IH π1 Hrest).
  destruct (decide (v ∈ l)) as [?|Hnl]; [by left|right].
  unfold call_Deleter in Hu.
  destruct (vertex_bundle u (m_dependency_graph (manager π))) as [cu|] eqn:Hcu.
  - unfold DependencyCleaner, DependencyComponent_clear in Hu.
    destruct (cleaner cu (world π)) as [[[]|e] w']; simplify_eq/=.
    intros c0. rewrite vertex_bundle_put. case_decide as Hvu.
    + subst v. rewrite Hcu. by intros [= <-].
    + destruct Hv as [[->|?]%elem_of_cons|Hv]; [done..|]. apply Hv.
  - simplify_eq. destruct Hv as [[->|?]%elem_of_cons|Hv]; [|done..].
    intros c0. by rewrite Hcu.
Qed.

(** X17. In every state the calls of a client lead to, when the sweep
    returns every record has [is_deleted == false], whatever it had before:
    each was handed to [clear()], which writes [false]. *)
Theorem sweep_leaves_every_flag_false π π' (v : Vertex) c :
  reachable DependencyCleaner π →
  clear DependencyCleaner π = (Normal tt, π') →
  vertex_bundle v (m_dependency_graph (manager π')) = Some c →
  is_deleted c = false.
Proof.
  intros Hreach Hret Hc.
  pose proof (λ v, deletion_schedule_covers _ π v Hreach) as Hall.
  rewrite clear_schedule in Hret.
  apply (for_each_call_DependencyCleaner_flags _ _ _ v c Hret); [|done].
  left. apply Hall.
  destruct (for_each_call_Deleter_structure DependencyCleaner
              (deletion_schedule (m_dependency_graph (manager π))) π) as [Hsk _].
  rewrite Hret in Hsk. simpl in Hsk. rewrite <-(skeleton_num_vertices _ _ Hsk).
  unfold vertex_bundle in Hc.
  destruct (m_vertices (m_dependency_graph (manager π')) !! v) eqn:Hl; [|done].
  by apply lookup_lt_Some in Hl.
Qed.
End singleton_more.

(** ** [SingletonWithDependency<T>] *)

Module SingletonWithDependency.
Section SingletonWithDependency.
Import singleton.
Context {World : Type}.

(** A type [T] that derives from [SingletonWithDependency<T>], by what the
    sources ask of it: [typeid(T).hash_code()], what [Cleaner<T>] does with
    the instance, and the types of [registered_dependencies<T>::type] in
    order, each with its own. The lists are compile-time lists of types;
    they are taken here not to lead back to [T], which makes a type a finite
    tree. *)
#[local] Unset Elimination Schemes.
Inductive type_info : Type := TypeInfo {
  hash_code : N;
  Cleaner : M World unit;
  registered_dependencies : list type_info
}.
#[local] Set Elimination Schemes.

(** [Cleaner<T>] where the user has not specialised it: it does nothing. *)
Definition Cleaner_default : M World unit := mret tt.

(** [static bool built = false;] no member function assigns it. *)
Definition built : bool := false.

(** [do_registration()], run by the constructor of [T] through that of its
    base: the component is registered with its cleaner, then the registrar
    of each dependency [U] forces [SingletonWithDependency<U>::instance()],
    which constructs a [U] as [built] is [false], and registers the
    dependency of [T] on [U]. *)
Fixpoint do_registration (T : type_info) : M (DepProcess World) unit :=
  on_manager (register_component (hash_code T)
                (DependencyComponent_new (hash_code T) (Cleaner T)));;
  (fix for_each_dependency (Us : list type_info) : M (DepProcess World) unit :=
     match Us with
     | [] => mret tt
     | U :: Us' =>
         ((if negb built then do_registration U else mret tt);;
          on_manager (register_dependency (hash_code U) (hash_code T) tt));;
         for_each_dependency Us'
     end) (registered_dependencies T).

(** [SingletonWithDependency<T>::instance()]: [if (!built) pInstance = new T;]
    of which the construction of the [T] is kept, that is the constructor of
    its base, which runs [do_registration()]; the constructor of [T] itself
    is the user's and is taken to leave the manager alone. *)
Definition instance (T : type_info) : M (DepProcess World) unit :=
  if negb built then do_registration T else mret tt.

(** [DependencyRegistrar<T>::operator()(wrapped_type<U>)] *)
Definition DependencyRegistrar (T U : type_info) : M (DepProcess World) unit :=
  instance U;;
  on_manager (register_dependency (hash_code U) (hash_code T) tt).
End SingletonWithDependency.
Arguments type_info : clear implicits.
End SingletonWithDependency.

Section SingletonWithDependency_facts.
Import singleton SingletonWithDependency.
Context {World : Type}.
Implicit Types (T U : type_info World) (π : DepProcess World).

(** [do_registration()] as the sources write it. *)
Lemma do_registration_eq T π :
  do_registration T π
  = (on_manager (register_component (hash_code T)
                   (DependencyComponent_new (hash_code T) (Cleaner T)));;
     for_each (DependencyRegistrar T) (registered_dependencies T)) π.
Proof.
  destruct T as [h c Us]. simpl. unfold_M.
  destruct (on_manager _ π) as [[[]|e] π1]; [|done].
  clear π. revert π1. induction Us as [|U Us IH]; intros π; [done|].
  simpl. unfold_M. unfold DependencyRegistrar at 1, instance; unfold_M. simpl.
  destruct (do_registration U π) as [[[]|e] π1]; [|done].
  destruct (on_manager _ π1) as [[[]|e] π2]; [|done].
  apply IH.
Qed.

Lemma type_info_induction (P : type_info World → Prop) :
  (∀ T, Forall P (registered_dependencies T) → P T) → ∀ T, P T.
Proof.
  intros Hstep.
  refine (fix go T := Hstep T _).
  destruct T as [h c Us]. simpl.
  induction Us as [|U Us IH]; [apply Forall_nil_2|].
  apply Forall_cons_2; [apply go|apply IH].
Qed.

(** The components a construction of [T] registers, each identifier with
    its record, in the order of the [register_component] calls. *)
Fixpoint components T : list (N * DependencyComponent World) :=
  (hash_code T, DependencyComponent_new (hash_code T) (Cleaner T))
  :: (registered_dependencies T ≫= components).

Definition hashes T : list N := (components T).*1.

(** The dependencies a construction of [T] registers, as the pairs of
    identifiers given to [register_dependency], in the order of the calls. *)
Fixpoint dependencies T : list (N * N) :=
  registered_dependencies T ≫= λ U, dependencies U ++ [(hash_code U, hash_code T)].

Lemma components_hashes (Us : list (type_info World)) :
  (Us ≫= components).*1 = Us ≫= hashes.
Proof.
  induction Us as [|U Us IH]; [done|].
  by rewrite !bind_cons, fmap_app, IH.
Qed.

Lemma hashes_eq T :
  hashes T = hash_code T :: (registered_dependencies T ≫= hashes).
Proof.
  unfold hashes at 1. destruct T as [h c Us]. simpl. by rewrite components_hashes.
Qed.

Lemma hash_code_hashes T : hash_code T ∈ hashes T.
Proof. rewrite hashes_eq. by left. Qed.

Lemma dependencies_hashes T hu hv :
  (hu, hv) ∈ dependencies T → hu ∈ hashes T ∧ hv ∈ hashes T.
Proof.
  revert hu hv. induction T as [T IH] using type_info_induction. intros hu hv.
  rewrite hashes_eq. destruct T as [h c Us]. simpl in *.
  rewrite list_elem_of_bind. intros (U & Hin & HU).
  rewrite Forall_forall in IH. apply elem_of_app in Hin as [Hin|Hin].
  - destruct (IH U HU hu hv Hin) as [Hu Hv].
    split; right; apply list_elem_of_bind; eauto.
  - apply list_elem_of_singleton in Hin as [= -> ->]. split; [|by left].
    right. apply list_elem_of_bind. exists U. split; [|done].
    apply hash_code_hashes.
Qed.

Lemma DependencyRegistrar_eq T U π :
  DependencyRegistrar T U π
  = match do_registration U π with
    | (Normal _, π1) =>
        on_manager (register_dependency (hash_code U) (hash_code T) tt) π1
    | (Throw e, π1) => (Throw e, π1)
    end.
Proof. done. Qed.

Lemma run_calls_app (cs1 cs2 : list (DepCall World)) π :
  run_calls DependencyCleaner (cs1 ++ cs2) π
  = run_calls DependencyCleaner cs2 (run_calls DependencyCleaner cs1 π).
Proof. apply foldl_app. Qed.

Lemma run_calls_cons (c : DepCall World) cs π :
  run_calls DependencyCleaner (c :: cs) π
  = run_calls DependencyCleaner cs (run_call DependencyCleaner c π).2.
Proof. done. Qed.

(** A construction acts on the manager by registration calls only. *)
Lemma for_each_DependencyRegistrar_calls T Us π :
  Forall (λ U, ∀ π, ∃ cs, Forall (λ c, is_registration c = true) cs ∧
                 (do_registration U π).2 = run_calls DependencyCleaner cs π) Us →
  ∃ cs, Forall (λ c, is_registration c = true) cs ∧
        (for_each (DependencyRegistrar T) Us π).2 = run_calls DependencyCleaner cs π.
Proof.
  intros HUs. revert π. induction HUs as [|U Us HU _ IH]; intros π.
  { by exists []. }
  simpl. unfold_M. rewrite DependencyRegistrar_eq.
  destruct (HU π) as (cs1 & Hcs1 & Hrun1).
  destruct (do_registration U π) as [[[]|e] π1]; simpl in Hrun1; subst π1;
    [|exists cs1; by split].
  set (c := RegisterDependency (hash_code U) (hash_code T) tt : DepCall World).
  change (on_manager _ ?π) with (run_call DependencyCleaner c π).
  destruct (IH (run_call DependencyCleaner c (run_calls DependencyCleaner cs1 π)).2)
    as (cs2 & Hcs2 & Hrun2).
  destruct (run_call DependencyCleaner c (run_calls DependencyCleaner cs1 π))
    as [[[]|e] π2] eqn:Hc; simpl in Hrun2 |- *.
  - exists (cs1 ++ c :: cs2). split.
    + apply Forall_app. split; [done|]. by apply Forall_cons.
    + rewrite Hrun2, run_calls_app, run_calls_cons. by rewrite Hc.
  - exists (cs1 ++ [c]). split.
    + apply Forall_app. split; [done|]. by apply Forall_cons.
    + rewrite run_calls_app, run_calls_cons. by rewrite Hc.
Qed.

Lemma do_registration_calls T π :
  ∃ cs, Forall (λ c, is_registration c = true) cs ∧
        (do_registration T π).2 = run_calls DependencyCleaner cs π.
Proof.
  revert π. induction T as [T IH] using type_info_induction. intros π.
  rewrite do_registration_eq. unfold_M.
  set (c := RegisterComponent (hash_code T)
              (DependencyComponent_new (hash_code T) (Cleaner T)) : DepCall World).
  change (on_manager _ π) with (run_call DependencyCleaner c π).
  destruct (for_each_DependencyRegistrar_calls T (registered_dependencies T)
              (run_call DependencyCleaner c π).2 IH) as (cs & Hcs & Hrun).
  destruct (run_call DependencyCleaner c π) as [[[]|e] π1] eqn:Hc;
    simpl in Hrun |- *.
  - exists (c :: cs). split; [by apply Forall_cons|].
    by rewrite run_calls_cons, Hc.
  - exists [c]. split; [by apply Forall_cons|]. by rewrite run_calls_cons, Hc.
Qed.

Lemma do_registration_wf T π :
  manager_wf (manager π) → manager_shape (manager π) →
  manager_wf (manager (do_registration T π).2) ∧
  manager_shape (manager (do_registration T π).2).
Proof.
  intros Hwf Hshape. destruct (do_registration_calls T π) as (cs & _ & ->).
  split; [by apply run_calls_wf|by apply run_calls_shape].
Qed.

(** An edge leaves a vertex of the graph. *)
Lemma edge_rel_source (g : DependencyGraph World) u v :
  edge_rel g u v → u < adj_num_vertices g.
Proof.
  rewrite adj_edge_rel. unfold out_edge_list, adj_num_vertices.
  destruct (m_vertices g !! u) eqn:Hu; simpl.
  - intros _. by eapply lookup_lt_Some.
  - by intros ?%elem_of_nil.
Qed.

(** Identifiers that can all be registered: no two are equal and none is
    known to the manager. *)
Definition fresh (hs : list N) (m : gmap N Vertex) : Prop :=
  NoDup hs ∧ Forall (λ h, m !! h = None) hs.

#[global] Instance fresh_dec hs m : Decision (fresh hs m).
Proof. unfold fresh. apply _. Defined.

(** The pairs of vertices the map gives to pairs of identifiers. *)
Definition edges_via (m : gmap N Vertex) (ds : list (N * N)) (u v : Vertex) : Prop :=
  ∃ hu hv, (hu, hv) ∈ ds ∧ m !! hu = Some u ∧ m !! hv = Some v.

(** What registrations that all returned have done to the manager, by the
    components [cs] and the dependencies [ds] they were given: the other
    identifiers are mapped as before; each new identifier is mapped to a
    vertex added past the old ones, which carries its record; the old
    records are kept; and the edges are the old ones and one for each
    dependency. *)
Record registered_by (cs : list (N * DependencyComponent World))
    (ds : list (N * N)) (σ σ' : DepManager World) : Prop := {
  rb_other : ∀ h, h ∉ cs.*1 → m_vertices_map σ' !! h = m_vertices_map σ !! h;
  rb_new : ∀ h p, (h, p) ∈ cs →
    ∃ v, m_vertices_map σ' !! h = Some v ∧
         adj_num_vertices (m_dependency_graph σ) ≤ v ∧
         vertex_bundle v (m_dependency_graph σ') = Some p;
  rb_num : adj_num_vertices (m_dependency_graph σ')
           = adj_num_vertices (m_dependency_graph σ) + length cs;
  rb_kept : ∀ v, v < adj_num_vertices (m_dependency_graph σ) →
    vertex_bundle v (m_dependency_graph σ') = vertex_bundle v (m_dependency_graph σ);
  rb_edges : ∀ u v,
    edge_rel (m_dependency_graph σ') u v
    ↔ edge_rel (m_dependency_graph σ) u v ∨ edges_via (m_vertices_map σ') ds u v
}.

Lemma rb_new_hash cs ds σ σ' h :
  registered_by cs ds σ σ' → h ∈ cs.*1 →
  ∃ v, m_vertices_map σ' !! h = Some v ∧ adj_num_vertices (m_dependency_graph σ) ≤ v.
Proof.
  intros Hrb ([h' p] & -> & Hin)%list_elem_of_fmap.
  destruct (rb_new _ _ _ _ Hrb _ _ Hin) as (v & ? & ? & _). eauto.
Qed.

Lemma registered_by_refl σ : registered_by [] [] σ σ.
Proof.
  split; simpl.
  - done.
  - intros h p Hin. by apply elem_of_nil in Hin.
  - lia.
  - done.
  - intros u v. split; [by left|]. intros [?|(hu & hv & Hin & _)]; [done|].
    by apply elem_of_nil in Hin.
Qed.

Lemma registered_by_trans cs1 ds1 cs2 ds2 σ σ1 σ2 :
  manager_wf σ1 →
  registered_by cs1 ds1 σ σ1 → registered_by cs2 ds2 σ1 σ2 →
  (∀ h, h ∈ cs1.*1 → h ∉ cs2.*1) →
  (∀ hu hv, (hu, hv) ∈ ds1 → (hu ∉ cs2.*1) ∧ (hv ∉ cs2.*1)) →
  registered_by (cs1 ++ cs2) (ds1 ++ ds2) σ σ2.
Proof.
  intros Hwf H1 H2 Hcs Hds.
  pose proof (rb_num _ _ _ _ H1) as Hn1. pose proof (rb_num _ _ _ _ H2) as Hn2.
  split.
  - intros h. rewrite fmap_app, not_elem_of_app. intros [Hh1 Hh2].
    by rewrite (rb_other _ _ _ _ H2), (rb_other _ _ _ _ H1).
  - intros h p [Hin|Hin]%elem_of_app.
    + destruct (rb_new _ _ _ _ H1 _ _ Hin) as (v & Hv & Hle & Hp).
      exists v. split_and!; [|done|].
      * rewrite (rb_other _ _ _ _ H2); [done|]. apply Hcs.
        apply list_elem_of_fmap. by exists (h, p).
      * rewrite (rb_kept _ _ _ _ H2); [done|]. by eapply wf_map.
    + destruct (rb_new _ _ _ _ H2 _ _ Hin) as (v & Hv & Hle & Hp).
      exists v. split_and!; [done|lia|done].
  - rewrite length_app. lia.
  - intros v Hv. rewrite (rb_kept _ _ _ _ H2) by lia. by apply (rb_kept _ _ _ _ H1).
  - intros u v. rewrite (rb_edges _ _ _ _ H2), (rb_edges _ _ _ _ H1).
    assert (edges_via (m_vertices_map σ1) ds1 u v
            ↔ edges_via (m_vertices_map σ2) ds1 u v) as ->.
    { unfold edges_via. split; intros (hu & hv & Hin & Hu & Hv);
        destruct (Hds _ _ Hin) as [Hhu Hhv]; exists hu, hv.
      - by rewrite !(rb_other _ _ _ _ H2).
      - by rewrite !(rb_other _ _ _ _ H2) in Hu, Hv. }
    unfold edges_via. split.
    + intros [[?|(hu & hv & Hin & ?)]|(hu & hv & Hin & ?)]; [by left|right..];
        exists hu, hv; (split; [|done]); apply elem_of_app; eauto.
    + intros [?|(hu & hv & [Hin|Hin]%elem_of_app & ?)];
        [by left; left|left; right|right]; by exists hu, hv.
Qed.

Lemma register_component_registered h p (σ : DepManager World) :
  manager_wf σ → m_vertices_map σ !! h = None →
  register_component h p σ
  = (Normal tt, (register_component h p σ).2) ∧
  registered_by [(h, p)] [] σ (register_component h p σ).2 ∧
  m_vertices_map (register_component h p σ).2 !! h
  = Some (adj_num_vertices (m_dependency_graph σ)).
Proof.
  intros Hwf Hh. rewrite register_component_fresh by done. simpl.
  split; [done|]. split; [|by rewrite lookup_insert_eq].
  change (mkGraph _) with (add_vertex p (m_dependency_graph σ)).2.
  split; cbn [m_vertices_map m_dependency_graph].
  - intros h' Hh'. rewrite lookup_insert_ne; [done|].
    intros <-. apply Hh'. by left.
  - intros h' p' [= -> ->]%list_elem_of_singleton.
    exists (adj_num_vertices (m_dependency_graph σ)).
    rewrite lookup_insert_eq, vertex_bundle_add_vertex.
    split_and!; [done..|]. by rewrite decide_True.
  - unfold add_vertex, adj_num_vertices. simpl. by rewrite length_app.
  - intros v Hv. rewrite vertex_bundle_add_vertex. by rewrite decide_False by lia.
  - intros u v. rewrite !adj_edge_rel, out_edge_list_add_vertex.
    split; [by left|]. intros [?|(hu & hv & Hin & _)]; [done|].
    by apply elem_of_nil in Hin.
Qed.

Lemma with_dependency_registered hu hv u v (σ : DepManager World) :
  manager_wf σ →
  m_vertices_map σ !! hu = Some u → m_vertices_map σ !! hv = Some v →
  registered_by [] [(hu, hv)] σ (with_dependency u v tt σ).
Proof.
  intros Hwf Hu Hv.
  pose proof (wf_map _ Hwf _ _ Hu) as Hult. pose proof (wf_map _ Hwf _ _ Hv) as Hvlt.
  split; cbn [with_dependency m_dependency_graph m_vertices_map].
  - done.
  - intros h p Hin. by apply elem_of_nil in Hin.
  - rewrite num_vertices_add_edge by done. simpl. lia.
  - intros a Ha. by apply vertex_bundle_add_edge.
  - intros a b. rewrite !adj_edge_rel, out_edge_list_add_edge by done.
    assert (edges_via (m_vertices_map σ) [(hu, hv)] a b ↔ a = u ∧ b = v) as ->.
    { unfold edges_via. split.
      - intros (hu' & hv' & [= -> ->]%list_elem_of_singleton & ? & ?).
        split; congruence.
      - intros [-> ->]. exists hu, hv. split; [by left|done]. }
    case_decide as Ha.
    + subst a. rewrite fmap_app, elem_of_app. simpl. rewrite list_elem_of_singleton.
      intuition.
    + intuition.
Qed.

(** A construction of [T] that goes through, where its identifiers are
    fresh. *)
Definition constructs T : Prop :=
  ∀ π, manager_wf (manager π) → manager_shape (manager π) →
       fresh (hashes T) (m_vertices_map (manager π)) →
       ∃ π', do_registration T π = (Normal tt, π') ∧
             registered_by (components T) (dependencies T) (manager π) (manager π').

(** The registrar of a dependency [U] of [T], run where [T] is registered at
    a vertex without out-edges and the identifiers of [U] are fresh. *)
Lemma DependencyRegistrar_constructs T U t π :
  constructs U →
  manager_wf (manager π) → manager_shape (manager π) →
  m_vertices_map (manager π) !! hash_code T = Some t →
  (∀ v, ¬ edge_rel (m_dependency_graph (manager π)) t v) →
  fresh (hashes U) (m_vertices_map (manager π)) →
  ∃ π', DependencyRegistrar T U π = (Normal tt, π') ∧
        registered_by (components U) (dependencies U ++ [(hash_code U, hash_code T)])
                      (manager π) (manager π') ∧
        manager_wf (manager π') ∧ manager_shape (manager π') ∧
        (∀ v, ¬ edge_rel (m_dependency_graph (manager π')) t v).
Proof.
  intros HU Hwf Hshape Ht Hout Hfresh.
  destruct (HU π Hwf Hshape Hfresh) as (π1 & Hrun & Hrb).
  destruct (do_registration_wf U π Hwf Hshape) as [Hwf1 Hshape1].
  rewrite Hrun in Hwf1, Hshape1. simpl in Hwf1, Hshape1.
  pose proof (wf_map _ Hwf _ _ Ht) as Htlt.
  assert (∀ h v, h ∈ hashes U → m_vertices_map (manager π1) !! h = Some v →
                 adj_num_vertices (m_dependency_graph (manager π)) ≤ v) as Hnew.
  { intros h v Hh Hv.
    destruct (rb_new_hash _ _ _ _ h Hrb Hh) as (v' & Hv' & Hle). congruence. }
  destruct (rb_new_hash _ _ _ _ (hash_code U) Hrb (hash_code_hashes U))
    as (u & Hu & Hule).
  assert (hash_code T ∉ hashes U) as HTU.
  { intros Hin. destruct Hfresh as [_ Hf]. rewrite Forall_forall in Hf.
    specialize (Hf _ Hin). congruence. }
  assert (m_vertices_map (manager π1) !! hash_code T = Some t) as Ht1.
  { by rewrite (rb_other _ _ _ _ Hrb). }
  assert (∀ a b, edges_via (m_vertices_map (manager π1)) (dependencies U) a b →
                 adj_num_vertices (m_dependency_graph (manager π)) ≤ a ∧
                 adj_num_vertices (m_dependency_graph (manager π)) ≤ b) as Hvia.
  { intros a b (hu & hv & Hin & Ha & Hb).
    apply dependencies_hashes in Hin as [? ?].
    split; [by apply (Hnew hu)|by apply (Hnew hv)]. }
  assert (∀ v, ¬ edge_rel (m_dependency_graph (manager π1)) t v) as Hout1.
  { intros v [?|Hv]%(rb_edges _ _ _ _ Hrb); [by eapply Hout|].
    apply Hvia in Hv. lia. }
  rewrite DependencyRegistrar_eq, Hrun.
  destruct (register_dependency_cases (hash_code U) (hash_code T) tt (manager π1) Hwf1)
    as [[_ [?|?]]|(src & dst & Hs & Hd & Hcases)]; [congruence..|].
  assert (src = u) as -> by congruence. assert (dst = t) as -> by congruence.
  pose proof (with_dependency_registered _ _ _ _ _ Hwf1 Hu Ht1) as Hrb2.
  destruct Hcases as [[_ Hedge]|[(_ & _ & Hrtc)|(Hreg & _ & _)]].
  - exfalso. apply (rb_edges _ _ _ _ Hrb) in Hedge as [Hedge|Hedge].
    + apply edge_rel_source in Hedge. lia.
    + apply Hvia in Hedge. lia.
  - exfalso. inversion Hrtc as [|? y ? Hstep _]; subst; [lia|].
    by eapply Hout1.
  - pose proof (register_dependency_wf (hash_code U) (hash_code T) tt _ Hwf1) as Hwf2.
    pose proof (register_dependency_shape (hash_code U) (hash_code T) tt _ Hwf1 Hshape1)
      as Hshape2.
    unfold on_manager. rewrite Hreg in Hwf2, Hshape2 |- *.
    eexists. split; [done|]. simpl. split_and!; [|done..|].
    + rewrite <-(app_nil_r (components U)).
      apply (registered_by_trans _ _ _ _ _ (manager π1)); [done..| |].
      * intros h _. apply not_elem_of_nil.
      * intros hu hv _. split; apply not_elem_of_nil.
    + intros v [?|(hu & hv & [= -> ->]%list_elem_of_singleton & Ha & _)]%(rb_edges _ _ _ _ Hrb2);
        [by eapply Hout1|].
      cbn [with_dependency m_vertices_map] in Ha. assert (u = t) by congruence. lia.
Qed.

Lemma fresh_app hs1 hs2 (m : gmap N Vertex) :
  fresh (hs1 ++ hs2) m
  ↔ fresh hs1 m ∧ fresh hs2 m ∧ ∀ h, h ∈ hs1 → h ∉ hs2.
Proof.
  unfold fresh. rewrite NoDup_app, Forall_app. tauto.
Qed.

(** The loop over the dependencies of [T], where all of them can be
    registered. *)
Lemma for_each_DependencyRegistrar_constructs T t Us π :
  Forall constructs Us →
  manager_wf (manager π) → manager_shape (manager π) →
  m_vertices_map (manager π) !! hash_code T = Some t →
  (∀ v, ¬ edge_rel (m_dependency_graph (manager π)) t v) →
  fresh (Us ≫= hashes) (m_vertices_map (manager π)) →
  ∃ π', for_each (DependencyRegistrar T) Us π = (Normal tt, π') ∧
        registered_by (Us ≫= components)
          (Us ≫= λ U, dependencies U ++ [(hash_code U, hash_code T)])
          (manager π) (manager π').
Proof.
  intros HUs. revert π.
  induction HUs as [|U Us HU _ IH]; intros π Hwf Hshape Ht Hout Hfresh.
  { exists π. split; [done|]. apply registered_by_refl. }
  rewrite bind_cons in Hfresh. apply fresh_app in Hfresh as (HfU & HfUs & Hdisj).
  destruct (DependencyRegistrar_constructs T U t π HU Hwf Hshape Ht Hout HfU)
    as (π1 & Hrun & Hrb & Hwf1 & Hshape1 & Hout1).
  assert (hash_code T ∉ Us ≫= hashes) as HT.
  { intros Hin. destruct HfUs as [_ Hf]. rewrite Forall_forall in Hf.
    specialize (Hf _ Hin). congruence. }
  assert (hash_code T ∉ hashes U) as HTU.
  { intros Hin. destruct HfU as [_ Hf]. rewrite Forall_forall in Hf.
    specialize (Hf _ Hin). congruence. }
  destruct (IH π1) as (π' & Hrun' & Hrb'); [done|done| |done| |].
  { by rewrite (rb_other _ _ _ _ Hrb). }
  { destruct HfUs as [Hnd Hf]. split; [done|].
    rewrite Forall_forall in Hf |- *. intros h Hh.
    rewrite (rb_other _ _ _ _ Hrb); [by apply Hf|].
    intros Hin. by eapply Hdisj. }
  exists π'. split.
  { simpl. unfold_M. by rewrite Hrun. }
  rewrite !bind_cons.
  apply (registered_by_trans _ _ _ _ _ (manager π1)); [done..| |].
  - intros h Hh. rewrite components_hashes. by apply Hdisj.
  - intros hu hv. rewrite components_hashes.
    intros [Hin%dependencies_hashes|[= -> ->]%list_elem_of_singleton]%elem_of_app.
    + destruct Hin. split; by apply Hdisj.
    + split; [|done]. apply Hdisj, hash_code_hashes.
Qed.

(** The first step of a construction of [T] whose identifier is not known:
    the component is registered at a new vertex. *)
Lemma do_registration_first T π :
  manager_wf (manager π) → manager_shape (manager π) →
  m_vertices_map (manager π) !! hash_code T = None →
  ∃ π1,
    on_manager (register_component (hash_code T)
                  (DependencyComponent_new (hash_code T) (Cleaner T))) π
    = (Normal tt, π1) ∧
    registered_by [(hash_code T, DependencyComponent_new (hash_code T) (Cleaner T))] []
                  (manager π) (manager π1) ∧
    manager_wf (manager π1) ∧ manager_shape (manager π1) ∧
    m_vertices_map (manager π1) !! hash_code T
    = Some (adj_num_vertices (m_dependency_graph (manager π))) ∧
    (∀ v, ¬ edge_rel (m_dependency_graph (manager π1))
              (adj_num_vertices (m_dependency_graph (manager π))) v).
Proof.
  intros Hwf Hshape Hh.
  set (p := DependencyComponent_new (hash_code T) (Cleaner T)).
  destruct (register_component_registered (hash_code T) p _ Hwf Hh)
    as (Hrun & Hrb & Hlookup).
  pose proof (register_component_wf (hash_code T) p _ Hwf) as Hwf1.
  pose proof (register_component_shape (hash_code T) p _ Hwf Hshape) as Hshape1.
  unfold on_manager. rewrite Hrun. eexists. split; [done|]. simpl.
  split_and!; [done..|].
  intros v [Hedge|(hu & hv & Hin & _)]%(rb_edges _ _ _ _ Hrb).
  - apply edge_rel_source in Hedge. lia.
  - by apply elem_of_nil in Hin.
Qed.

Lemma components_eq T :
  components T
  = [(hash_code T, DependencyComponent_new (hash_code T) (Cleaner T))]
    ++ (registered_dependencies T ≫= components).
Proof. by destruct T. Qed.

Lemma dependencies_eq T :
  dependencies T
  = registered_dependencies T ≫= λ U, dependencies U ++ [(hash_code U, hash_code T)].
Proof. by destruct T. Qed.

Lemma do_registration_constructs T : constructs T.
Proof.
  induction T as [T IH] using type_info_induction.
  intros π Hwf Hshape Hfresh. rewrite hashes_eq in Hfresh.
  apply (fresh_app [_]) in Hfresh as ([_ HfT] & HfUs & Hdisj).
  rewrite Forall_singleton in HfT.
  destruct (do_registration_first T π Hwf Hshape HfT)
    as (π1 & Hrun & Hrb & Hwf1 & Hshape1 & Ht & Hout).
  assert (hash_code T ∉ registered_dependencies T ≫= hashes) as HT.
  { apply Hdisj. by left. }
  destruct (for_each_DependencyRegistrar_constructs T _ _ π1 IH Hwf1 Hshape1 Ht Hout)
    as (π' & Hrun' & Hrb').
  { destruct HfUs as [Hnd Hf]. split; [done|].
    rewrite Forall_forall in Hf |- *. intros h Hh.
    rewrite (rb_other _ _ _ _ Hrb); [by apply Hf|].
    simpl. intros ->%list_elem_of_singleton. done. }
  exists π'. split.
  { rewrite do_registration_eq. unfold_M. by rewrite Hrun. }
  rewrite components_eq, dependencies_eq.
  apply (registered_by_trans _ [] _ _ _ (manager π1)); [done..| |].
  - simpl. intros h ->%list_elem_of_singleton. by rewrite components_hashes.
  - intros hu hv Hin. by apply elem_of_nil in Hin.
Qed.

(** A construction of [T] that is refused, where its identifiers are not
    fresh. *)
Definition refuses T : Prop :=
  ∀ π, manager_wf (manager π) → manager_shape (manager π) →
       ¬ fresh (hashes T) (m_vertices_map (manager π)) →
       ∃ π', do_registration T π = (Throw AlreadyExists, π').

(** The loop over the dependencies of [T], where some identifier of theirs
    cannot be registered. *)
Lemma for_each_DependencyRegistrar_refuses T t Us π :
  Forall refuses Us →
  manager_wf (manager π) → manager_shape (manager π) →
  m_vertices_map (manager π) !! hash_code T = Some t →
  (∀ v, ¬ edge_rel (m_dependency_graph (manager π)) t v) →
  ¬ fresh (Us ≫= hashes) (m_vertices_map (manager π)) →
  ∃ π', for_each (DependencyRegistrar T) Us π = (Throw AlreadyExists, π').
Proof.
  intros HUs. revert π.
  induction HUs as [|U Us HU _ IH]; intros π Hwf Hshape Ht Hout Hnot.
  { destruct Hnot. split; [apply NoDup_nil_2|apply Forall_nil_2]. }
  simpl. unfold_M.
  destruct (decide (fresh (hashes U) (m_vertices_map (manager π)))) as [HfU|HfU].
  - destruct (DependencyRegistrar_constructs T U t π (do_registration_constructs U)
                Hwf Hshape Ht Hout HfU) as (π1 & Hrun & Hrb & Hwf1 & Hshape1 & Hout1).
    rewrite Hrun.
    assert (hash_code T ∉ hashes U) as HTU.
    { intros Hin. destruct HfU as [_ Hf]. rewrite Forall_forall in Hf.
      specialize (Hf _ Hin). congruence. }
    apply IH; [done|done| |done|].
    { by rewrite (rb_other _ _ _ _ Hrb). }
    intros [Hnd Hf]. rewrite Forall_forall in Hf.
    assert (∀ h, h ∈ hashes U → h ∉ Us ≫= hashes) as Hdisj.
    { intros h Hin Hh. destruct (rb_new_hash _ _ _ _ h Hrb Hin) as (v & Hv & _).
      specialize (Hf h Hh). congruence. }
    apply Hnot. rewrite bind_cons. apply fresh_app. split_and!; [done| |done].
    split; [done|]. rewrite Forall_forall. intros h Hh.
    rewrite <-(rb_other _ _ _ _ Hrb); [by apply Hf|].
    intros Hin. by eapply Hdisj.
  - destruct (HU π Hwf Hshape HfU) as (π1 & Hrun).
    rewrite DependencyRegistrar_eq, Hrun. eauto.
Qed.

Lemma do_registration_refuses T : refuses T.
Proof.
  induction T as [T IH] using type_info_induction.
  intros π Hwf Hshape Hnot. rewrite do_registration_eq. unfold_M.
  destruct (m_vertices_map (manager π) !! hash_code T) as [v|] eqn:HT.
  { unfold on_manager. rewrite (register_component_known _ _ _ v HT). eauto. }
  destruct (do_registration_first T π Hwf Hshape HT)
    as (π1 & Hrun & Hrb & Hwf1 & Hshape1 & Ht & Hout).
  rewrite Hrun.
  apply (for_each_DependencyRegistrar_refuses T _ _ π1 IH Hwf1 Hshape1 Ht Hout).
  intros [Hnd Hf]. rewrite Forall_forall in Hf.
  assert (hash_code T ∉ registered_dependencies T ≫= hashes) as HTUs.
  { intros Hin. specialize (Hf _ Hin). congruence. }
  apply Hnot. rewrite hashes_eq. apply (fresh_app [_]). split_and!.
  - split; [apply NoDup_singleton|by apply Forall_singleton].
  - split; [done|]. rewrite Forall_forall. intros h Hh.
    rewrite <-(rb_other _ _ _ _ Hrb); [by apply Hf|].
    simpl. intros ->%list_elem_of_singleton. done.
  - by intros h ->%list_elem_of_singleton.
Qed.

(** Registration calls leave the world and the trace of the sweeps alone. *)
Lemma run_calls_registration (cs : list (DepCall World)) π :
  Forall (λ c, is_registration c = true) cs →
  world (run_calls DependencyCleaner cs π) = world π ∧
  calls (run_calls DependencyCleaner cs π) = calls π.
Proof.
  intros Hcs. revert π. induction Hcs as [|c cs Hc _ IH]; intros π; [done|].
  rewrite run_calls_cons.
  destruct (IH (run_call DependencyCleaner c π).2) as [-> ->].
  destruct c as [h p|hu hv l|]; [| |done]; simpl; unfold on_manager.
  - by destruct (register_component _ _ _).
  - by destruct (register_dependency _ _ _ _).
Qed.

(** X18. In every state the calls of a client lead to, where the
    identifiers of the types [T] depends on, directly or not, and its own are
    pairwise different and none is registered, [instance()] returns. It has
    registered each type of the tree at a new vertex with a record that is
    not deleted and holds the identifier and the [Cleaner] of the type, and
    an edge from each dependency to its dependent; the other identifiers,
    records and edges are as before, and no clean-up action has run. *)
Theorem instance_registers_its_tree T π :
  reachable DependencyCleaner π →
  fresh (hashes T) (m_vertices_map (manager π)) →
  ∃ π', instance T π = (Normal tt, π') ∧
        reachable DependencyCleaner π' ∧
        world π' = world π ∧ calls π' = calls π ∧
        registered_by (components T) (dependencies T) (manager π) (manager π').
Proof.
  intros Hreach Hfresh.
  destruct (do_registration_constructs T π) as (π' & Hrun & Hrb);
    [by apply reachable_wf in Hreach|by apply reachable_shape in Hreach|done|].
  destruct (do_registration_calls T π) as (cs & Hcs & Hcalls).
  rewrite Hrun in Hcalls. simpl in Hcalls. subst π'.
  eexists. split; [done|].
  destruct (run_calls_registration cs π Hcs) as [-> ->].
  split_and!; [|done..]. by apply reachable_run_calls.
Qed.

(** X19. In every state the calls of a client lead to, where two types of
    the tree of [T] have the same identifier (as when two of its dependencies
    share one) or the identifier of one of them is registered, [instance()]
    throws the already-registered error of [register_component], and no
    other. *)
Theorem instance_refuses_a_shared_dependency T π :
  reachable DependencyCleaner π →
  ¬ fresh (hashes T) (m_vertices_map (manager π)) →
  ∃ π', instance T π = (Throw AlreadyExists, π') ∧
        reachable DependencyCleaner π'.
Proof.
  intros Hreach Hnot.
  destruct (do_registration_refuses T π) as (π' & Hrun);
    [by apply reachable_wf in Hreach|by apply reachable_shape in Hreach|done|].
  destruct (do_registration_calls T π) as (cs & Hcs & Hcalls).
  rewrite Hrun in Hcalls. simpl in Hcalls. subst π'.
  eexists. split; [done|]. by apply reachable_run_calls.
Qed.

(** X20. [built] is never set: in every state the calls of a client lead
    to, a call of [instance()] that follows one that returned constructs a
    second [T], whose registration throws the already-registered error and
    leaves the manager as it was. *)
Theorem instance_again_throws T π π' :
  reachable DependencyCleaner π →
  instance T π = (Normal tt, π') →
  instance T π' = (Throw AlreadyExists, π').
Proof.
  intros Hreach Hret.
  pose proof (reachable_wf _ _ Hreach) as Hwf.
  pose proof (reachable_shape _ _ Hreach) as Hshape.
  change (instance T) with (do_registration T) in *.
  destruct (decide (fresh (hashes T) (m_vertices_map (manager π)))) as [Hf|Hf].
  - destruct (do_registration_constructs T π Hwf Hshape Hf) as (π1 & Hrun & Hrb).
    assert (π1 = π') as -> by congruence.
    destruct (rb_new_hash _ _ _ _ (hash_code T) Hrb (hash_code_hashes T))
      as (v & Hv & _).
    rewrite do_registration_eq. unfold_M. unfold on_manager.
    rewrite (register_component_known _ _ _ v Hv). by destruct π'.
  - destruct (do_registration_refuses T π Hwf Hshape Hf) as (π1 & Hrun). congruence.
Qed.

End SingletonWithDependency_facts.

Section singleton_scenarios.
Import singleton SingletonWithDependency.

(** A singleton type whose [Cleaner] appends the identifier to the log. *)
Definition logged (h : N) (Us : list (type_info (list N))) : type_info (list N) :=
  TypeInfo h (modify (λ log, log ++ [h])) Us.

(** 1 depends on 2 and 3, and 3 on 4. *)
Definition tree : type_info (list N) :=
  logged 1 [logged 2 []; logged 3 [logged 4 []]].

(** 1 depends on 2 and 3, which both depend on 4. *)
Definition diamond : type_info (list N) :=
  logged 1 [logged 2 [logged 4 []]; logged 3 [logged 4 []]].

Definition tree_built : DepProcess (list N) := (instance tree (run [])).2.

Lemma sweep_leaves_every_flag_false_witness :
  reachable DependencyCleaner (run default_record) ∧
  clear DependencyCleaner (run default_record)
  = (Normal tt, (clear DependencyCleaner (run default_record)).2) ∧
  vertex_bundle 0 (m_dependency_graph (manager (run default_record)))
  = Some DependencyComponent_default ∧
  vertex_bundle 0 (m_dependency_graph
                     (manager (clear DependencyCleaner (run default_record)).2))
  = Some (mkComponent false 0 (cleaner DependencyComponent_default)) ∧
  is_deleted (mkComponent false 0 (cleaner (DependencyComponent_default (World:=list N))))
  = false.
Proof.
  split_and!; [apply run_reachable|reflexivity..|].
  apply (sweep_leaves_every_flag_false (run default_record)
           (clear DependencyCleaner (run default_record)).2 0);
    [apply run_reachable|reflexivity..].
Defined.

Lemma instance_registers_its_tree_witness :
  reachable DependencyCleaner (run []) ∧
  fresh (hashes tree) (m_vertices_map (manager (run []))) ∧
  ∃ π', instance tree (run []) = (Normal tt, π') ∧
        reachable DependencyCleaner π' ∧
        world π' = world (run []) ∧ calls π' = calls (run []) ∧
        registered_by (components tree) (dependencies tree)
                      (manager (run [])) (manager π').
Proof.
  assert (fresh (hashes tree) (m_vertices_map (manager (run [])))) as Hfresh.
  { apply (bool_decide_unpack (fresh _ _)). by vm_compute. }
  split_and!; [apply run_reachable|done|].
  apply (instance_registers_its_tree tree (run [])); [apply run_reachable|done].
Defined.

Lemma instance_refuses_a_shared_dependency_witness :
  reachable DependencyCleaner (run []) ∧
  ¬ fresh (hashes diamond) (m_vertices_map (manager (run []))) ∧
  ∃ π', instance diamond (run []) = (Throw AlreadyExists, π') ∧
        reachable DependencyCleaner π'.
Proof.
  assert (¬ fresh (hashes diamond) (m_vertices_map (manager (run [])))) as Hnot.
  { apply (bool_decide_eq_false (fresh _ _)). by vm_compute. }
  split_and!; [apply run_reachable|done|].
  apply (instance_refuses_a_shared_dependency diamond (run []));
    [apply run_reachable|done].
Defined.

Lemma instance_again_throws_witness :
  reachable DependencyCleaner (run []) ∧
  instance tree (run []) = (Normal tt, tree_built) ∧
  instance tree tree_built = (Throw AlreadyExists, tree_built).
Proof.
  split_and!; [apply run_reachable|reflexivity|].
  apply (instance_again_throws tree (run [])); [apply run_reachable|reflexivity].
Defined.

End singleton_scenarios.
